(** * Voice identifier: a shallow embedding of [app.py]

    The script registers audio files in a catalog (an SQLite table keyed by
    the absolute path of the file), keeps the catalog in step with the
    [uploads] directory, and ranks candidate files by the Euclidean distance
    between mean MFCC vectors.

    Conventions of the model.
    - The POSIX flavour of [os.path], [pathlib] and [glob] is modelled
      ([posixpath], [PurePosixPath], case-sensitive [fnmatch]), as in
      CPython 3.11.
    - A Python [str] is a [string] (a sequence of bytes, UTF-8); only ASCII
      letters change under [lower].
    - A Python [float] is a real number: no rounding, no NaN.
    - The filesystem is the finite map from the absolute, normalised path of
      every existing entry to its node; the catalog is the list of its rows
      in insertion order.
    - External libraries ([librosa]'s decoder and MFCC) and the current
      working directory are parameters of the definitions that use them. *)

From Stdlib Require Import Reals Lra Ascii.
From stdpp Require Import gmap strings list vector sorting pretty.

(* ================================================================== *)
(** * Strings *)

Module Str.

(** [s.startswith(p)] *)
Fixpoint startswith (p s : string) : bool :=
  match p, s with
  | EmptyString, _ => true
  | String a p', String b s' => if decide (a = b) then startswith p' s' else false
  | String _ _, EmptyString => false
  end.

(** [s.endswith(p)] *)
Definition endswith (p s : string) : bool :=
  startswith (String.rev p) (String.rev s).

(** One character of [str.lower()]: ASCII upper-case letters are mapped to
    lower case, every other byte is kept. *)
Definition lower_ascii (c : ascii) : ascii :=
  let n := nat_of_ascii c in
  if (65 <=? n)%nat && (n <=? 90)%nat then ascii_of_nat (n + 32) else c.

(** [s.lower()] *)
Fixpoint lower (s : string) : string :=
  match s with
  | EmptyString => EmptyString
  | String a s' => String (lower_ascii a) (lower s')
  end.

(** [s.split(c)] for a one-character separator: never the empty list. *)
Fixpoint split (c : ascii) (s : string) : list string :=
  match s with
  | EmptyString => [EmptyString]
  | String a s' =>
      if decide (a = c) then EmptyString :: split c s'
      else match split c s' with
           | [] => [String a EmptyString]
           | w :: ws => String a w :: ws
           end
  end.

(** [sep.join(l)] *)
Fixpoint join (sep : string) (l : list string) : string :=
  match l with
  | [] => EmptyString
  | [x] => x
  | x :: l' => x +:+ sep +:+ join sep l'
  end.

(** [(s[:i], s[i+1:])] for [i = s.rfind(c)], when [c] occurs in [s]. *)
Fixpoint rsplit (c : ascii) (s : string) : option (string * string) :=
  match s with
  | EmptyString => None
  | String a s' =>
      match rsplit c s' with
      | Some (pre, post) => Some (String a pre, post)
      | None => if decide (a = c) then Some (EmptyString, s') else None
      end
  end.

(** [c in s] *)
Fixpoint contains (c : ascii) (s : string) : bool :=
  match s with
  | EmptyString => false
  | String a s' => if decide (a = c) then true else contains c s'
  end.

End Str.

(* ================================================================== *)
(** * [os.path] (posixpath) *)

Module OsPath.

Definition sep : ascii := "/"%char.

(** [os.path.basename(p)]: [p[p.rfind('/') + 1:]]. *)
Definition basename (p : string) : string :=
  match Str.rsplit sep p with
  | Some (_, post) => post
  | None => p
  end.

(** [os.path.isabs(p)] *)
Definition isabs (p : string) : bool := Str.startswith "/" p.

(** [os.path.join(a, b)] *)
Definition join (a b : string) : string :=
  if isabs b then b
  else if decide (a = "") then b
  else if Str.endswith "/" a then a +:+ b
  else a +:+ "/" +:+ b.

(** The number of leading slashes [normpath] keeps: 0, 1, or 2 when the
    path starts with exactly two. *)
Definition initial_slashes (p : string) : nat :=
  if Str.startswith "/" p then
    if Str.startswith "//" p && negb (Str.startswith "///" p) then 2 else 1
  else 0.

(** One turn of the loop of [normpath] over the components. *)
Definition norm_step (slashes : nat) (new_comps : list string) (comp : string)
  : list string :=
  if decide (comp = "" ∨ comp = ".") then new_comps
  else if decide (comp ≠ ".."
                  ∨ (slashes = 0 ∧ new_comps = [])
                  ∨ last new_comps = Some "..")
       then new_comps ++ [comp]
       else removelast new_comps.

(** [os.path.normpath(p)] *)
Definition normpath (p : string) : string :=
  if decide (p = "") then "."
  else
    let slashes := initial_slashes p in
    let comps := foldl (norm_step slashes) [] (Str.split sep p) in
    let path := Str.join "/" comps in
    let path := Str.join "" (replicate slashes "/") +:+ path in
    if decide (path = "") then "." else path.

(** [os.path.abspath(p)], with [cwd] the value of [os.getcwd()]. *)
Definition abspath (cwd p : string) : string :=
  normpath (if isabs p then p else join cwd p).

End OsPath.

(* ================================================================== *)
(** * [pathlib.Path] (PurePosixPath) *)

Module PathLib.

(** A parsed path: its root ([""], ["/"] or ["//"]) and its parts. *)
Record path := Path_ { root : string; parts : list string }.

(** [Path(s)]: empty and ["."] components are dropped, [".."] is kept. *)
Definition Path (s : string) : path :=
  {| root := Str.join "" (replicate (OsPath.initial_slashes s) "/");
     parts := filter (λ x, x ≠ "" ∧ x ≠ ".") (Str.split OsPath.sep s) |}.

(** [str(p)] *)
Definition str (p : path) : string :=
  let s := root p +:+ Str.join "/" (parts p) in
  if decide (s = "") then "." else s.

(** [p.name] *)
Definition name (p : path) : string := default "" (last (parts p)).

(** [p.parent] *)
Definition parent (p : path) : path :=
  {| root := root p; parts := removelast (parts p) |}.

(** [p.suffix]: [name[i:]] for [i = name.rfind('.')] when
    [0 < i < len(name) - 1], else empty. *)
Definition suffix_of_name (n : string) : string :=
  match Str.rsplit "."%char n with
  | Some (pre, post) =>
      if decide (pre = "" ∨ post = "") then "" else String "."%char post
  | None => ""
  end.

(** [p.stem]: the name without its suffix. *)
Definition stem_of_name (n : string) : string :=
  match Str.rsplit "."%char n with
  | Some (pre, post) =>
      if decide (pre = "" ∨ post = "") then n else pre
  | None => n
  end.

Definition suffix (p : path) : string := suffix_of_name (name p).
Definition stem (p : path) : string := stem_of_name (name p).

(** [p / s] *)
Definition joinpath (p : path) (s : string) : path :=
  if OsPath.isabs s then Path s
  else {| root := root p; parts := parts p ++ parts (Path s) |}.

End PathLib.

(* ================================================================== *)
(** * The filesystem *)

Module FS.

(** An existing entry: a regular file with its bytes, or a directory. *)
Inductive node :=
| File (data : list Byte.byte)
| Dir.

(** The filesystem state: absolute normalised path -> node. *)
Abbreviation t := (gmap string node).

Section WithCwd.
Variable cwd : string.

(** [os.path.exists(p)] / [Path.exists()] *)
Definition exists_ (fs : t) (p : string) : bool :=
  bool_decide (is_Some (fs !! OsPath.abspath cwd p)).

(** [os.path.isfile(p)] *)
Definition isfile (fs : t) (p : string) : bool :=
  match fs !! OsPath.abspath cwd p with
  | Some (File _) => true
  | _ => false
  end.

(** [open(p, "rb").read()]; [None] when opening raises. *)
Definition read_file (fs : t) (p : string) : option (list Byte.byte) :=
  match fs !! OsPath.abspath cwd p with
  | Some (File data) => Some data
  | _ => None
  end.

(** [with open(p, "wb") as f: f.write(data)]; [None] when opening raises
    (the path is a directory). The file is created or truncated; its
    directory is taken to exist ([UPLOAD_DIR] is created when the script
    starts). *)
Definition write_file (fs : t) (p : string) (data : list Byte.byte) : option t :=
  match fs !! OsPath.abspath cwd p with
  | Some Dir => None
  | _ => Some (<[OsPath.abspath cwd p := File data]> fs)
  end.

(** [os.remove(p)]; [None] when it raises (no such file, or a
    directory). *)
Definition remove (fs : t) (p : string) : option t :=
  match fs !! OsPath.abspath cwd p with
  | Some (File _) => Some (delete (OsPath.abspath cwd p) fs)
  | _ => None
  end.

(** [try: os.remove(p) except Exception: pass] *)
Definition try_remove (fs : t) (p : string) : t :=
  default fs (remove fs p).

(** [glob._ishidden] *)
Definition ishidden (name : string) : bool := Str.startswith "." name.

(** The strings [prefix + rest] stripped of [prefix]. *)
Fixpoint strip_prefix (prefix s : string) : option string :=
  match prefix, s with
  | EmptyString, _ => Some s
  | String a p', String b s' => if decide (a = b) then strip_prefix p' s' else None
  | String _ _, EmptyString => None
  end.

(** Whether the entry at [rel] below the globbed directory is matched by
    the pattern [**/*ext]: no component on the way is hidden (neither
    [**] nor [*] matches a name that starts with a dot), and the last
    one ends with [ext], compared case-sensitively. *)
Definition glob_match (ext rel : string) : bool :=
  let comps := Str.split OsPath.sep rel in
  forallb (λ c, negb (bool_decide (c = "")) && negb (ishidden c)) comps
  && Str.endswith ext (default "" (last comps)).

(** [glob.glob(os.path.join(dir, "**/*" + ext), recursive=True)]: the
    entries (files and directories) below [dir] that the pattern
    matches, each as [dir/rel]. The order is the one of the directory
    listing, which the caller does not rely on. *)
Definition glob_rec (fs : t) (dir ext : string) : list string :=
  omap (λ k, rel ← strip_prefix (OsPath.abspath cwd dir +:+ "/") k;
             if glob_match ext rel then Some (dir +:+ "/" +:+ rel) else None)
       (map_to_list fs).*1.

End WithCwd.

End FS.

(* ================================================================== *)
(** * Configuration *)

Definition UPLOAD_DIR : string := "uploads".

Definition ALLOWED_AUDIO_EXTS : list string :=
  [".wav"; ".mp3"; ".ogg"; ".flac"; ".m4a"; ".wav"].

(** [any(s.endswith(ext) for ext in ALLOWED_AUDIO_EXTS)] *)
Definition any_audio_ext (s : string) : bool :=
  existsb (λ ext, Str.endswith ext s) ALLOWED_AUDIO_EXTS.

(* ================================================================== *)
(** * The catalog *)

Module DB.

(** A row of the table [voices]. *)
Record row := Row { id : Z; name : string; filename : string }.

(** The table and the counter of [AUTOINCREMENT] (the largest id ever
    given). The column [filename] is [UNIQUE]. *)
Record t := Make { rows : list row; last_id : Z }.

(** [init_db] (lines 20-28) on a fresh database file. *)
Definition init_db : t := {| rows := []; last_id := 0 |}.

(** [file_registered_in_db(file_path)] (lines 60-66):
    [SELECT 1 FROM voices WHERE filename = ?]. *)
Definition file_registered_in_db (db : t) (file_path : string) : bool :=
  existsb (λ r, bool_decide (filename r = file_path)) (rows db).

(** [save_voice(name, file_path)] (lines 32-42):
    [INSERT OR IGNORE INTO voices (name, filename) VALUES (?, ?)]. The
    insertion is ignored when it would break [UNIQUE(filename)]. *)
Definition save_voice (db : t) (name file_path : string) : t :=
  if file_registered_in_db db file_path then db
  else {| rows := rows db ++ [Row (last_id db + 1) name file_path];
          last_id := last_id db + 1 |}.

(** [get_all_db_rows()] (lines 52-58): [SELECT name, filename FROM voices],
    in the order of insertion. *)
Definition get_all_db_rows (db : t) : list (string * string) :=
  (λ r, (name r, filename r)) <$> rows db.

(** [DELETE FROM voices] (line 296) *)
Definition clear (db : t) : t := {| rows := []; last_id := last_id db |}.

End DB.

(* ================================================================== *)
(** * File helpers *)

(** An uploaded file: [uploaded_file.name] and [uploaded_file.getbuffer()]. *)
Record uploaded_file := Upload { up_name : string; up_buffer : list Byte.byte }.

(** An archive as [zipfile.ZipFile] presents it: the entries in archive
    order, each with its name and its bytes ([None] when reading the entry
    raises, as for a bad checksum). *)
Definition archive := list (string * option (list Byte.byte)).

Section Files.
Variable cwd : string.

(** The loop of [unique_path] (lines 76-78): [p] is the path under test and [counter]
    the next number; [fuel] bounds the number of turns. *)
Fixpoint unique_path_loop (fs : FS.t) (parent : PathLib.path) (stem ext : string)
    (p : PathLib.path) (counter : nat) (fuel : nat) : option string :=
  if FS.exists_ cwd fs (PathLib.str p) then
    match fuel with
    | O => None
    | S fuel' =>
        unique_path_loop fs parent stem ext
          (PathLib.joinpath parent (stem +:+ "_" +:+ pretty counter +:+ ext))
          (S counter) fuel'
    end
  else Some (PathLib.str p).

(** [unique_path(target_path)] (lines 69-79). The loop is given one more turn than the
    filesystem has entries, which is enough for it to end
    ([unique_path_spec] below). *)
Definition unique_path (fs : FS.t) (target_path : string) : option string :=
  let base := PathLib.Path target_path in
  unique_path_loop fs (PathLib.parent base) (PathLib.stem base)
    (PathLib.suffix base) base 1 (S (size fs)).

(** [save_uploaded_file(uploaded_file, dest_dir)] (lines 81-87): the new
    filesystem and
    the path written; [None] when the function raises. *)
Definition save_uploaded_file (fs : FS.t) (up : uploaded_file) (dest_dir : string)
  : option (FS.t * string) :=
  let safe_name := OsPath.basename (up_name up) in
  let dest_path := OsPath.join dest_dir safe_name in
  dest_path ← unique_path fs dest_path;
  fs' ← FS.write_file cwd fs dest_path (up_buffer up);
  Some (fs', dest_path).

(** [z.namelist()] *)
Definition namelist (z : archive) : list string := z.*1.

(** [z.read(member)]: the entry registered last under that name. *)
Definition z_read (z : archive) (member : string) : option (list Byte.byte) :=
  match filter (λ e, e.1 = member) z with
  | [] => None
  | e :: es => (default e (last es)).2
  end.

(** The test that selects an archive member for extraction (lines 93-99:
    the two [continue]s and the [if] of the loop). *)
Definition member_selected (member : string) : bool :=
  negb (Str.endswith "/" member || Str.startswith "__MACOSX/" member)
  && negb (bool_decide (OsPath.basename member = ""))
  && any_audio_ext (Str.lower (OsPath.basename member)).

(** The body of the [try] for one selected member (lines 100-106); [None]
    when it raises. *)
Definition extract_member (z : archive) (fs : FS.t) (member dest_dir : string)
  : option (FS.t * string) :=
  data ← z_read z member;
  dest_path ← unique_path fs (OsPath.join dest_dir (OsPath.basename member));
  fs' ← FS.write_file cwd fs dest_path data;
  Some (fs', dest_path).

(** One turn of the loop over [z.namelist()]. *)
Definition extract_step (z : archive) (dest_dir : string)
    (st : FS.t * list string) (member : string) : FS.t * list string :=
  if member_selected member then
    match extract_member z st.1 member dest_dir with
    | Some (fs', dest_path) => (fs', st.2 ++ [dest_path])
    | None => st
    end
  else st.

(** [extract_audio_from_zip] (lines 89-109), once the archive is open. *)
Definition extract_audio_from_zip (z : archive) (fs : FS.t) (dest_dir : string)
  : FS.t * list string :=
  foldl (extract_step z dest_dir) (fs, []) (namelist z).

(** [scan_uploads_for_audio()] (lines 111-116) *)
Definition scan_uploads_for_audio (fs : FS.t) : list string :=
  let files := ext ← ALLOWED_AUDIO_EXTS; FS.glob_rec cwd fs UPLOAD_DIR ext in
  merge_sort String.le (remove_dups (OsPath.abspath cwd <$> files)).

(** [Path(f).stem] *)
Definition path_stem (f : string) : string := PathLib.stem (PathLib.Path f).

(** One turn of the loop of [sync_uploads_to_db]. *)
Definition sync_step (st : DB.t * nat) (f : string) : DB.t * nat :=
  if DB.file_registered_in_db st.1 f then st
  else (DB.save_voice st.1 (path_stem f) f, S st.2).

(** [sync_uploads_to_db()] (lines 118-126): the new catalog and the count
    returned. *)
Definition sync_uploads_to_db (fs : FS.t) (db : DB.t) : DB.t * nat :=
  foldl sync_step (db, 0) (scan_uploads_for_audio fs).

(** One turn of the registration loop of "Add Data" over [saved_all]
    (lines 188-192). *)
Definition register_step (fs : FS.t) (st : DB.t * nat) (path : string)
  : DB.t * nat :=
  if FS.isfile cwd fs path && any_audio_ext (Str.lower path)
  then (DB.save_voice st.1 (path_stem path) (OsPath.abspath cwd path), S st.2)
  else st.

(** The registration loop of "Add Data": the new catalog and the value of
    [registered]. *)
Definition register_saved (fs : FS.t) (db : DB.t) (saved_all : list string)
  : DB.t * nat :=
  foldl (register_step fs) (db, 0) saved_all.

End Files.

(* ================================================================== *)
(** * Audio and comparison *)

(** An MFCC matrix of shape [(n_mfcc, T)]: one row per coefficient, each
    row holding the values of that coefficient over the [T] time frames. *)
Definition mfcc_matrix (n_mfcc : nat) : Type := vec (list R) n_mfcc.

(** [np.mean] of a one-dimensional array. *)
Definition np_mean (l : list R) : R :=
  (foldr Rplus 0 l / INR (length l))%R.

(** [np.linalg.norm] of a one-dimensional array: the 2-norm. *)
Definition np_linalg_norm {n : nat} (v : vec R n) : R :=
  sqrt (foldr Rplus 0%R ((λ x, x * x)%R <$> vec_to_list v)).

(** [v1 - v2] on arrays of one shape. *)
Definition np_sub {n : nat} (v1 v2 : vec R n) : vec R n :=
  vzip_with Rminus v1 v2.

Section Audio.
Variable cwd : string.

(** [librosa.load(_, sr=None, mono=True)] on the bytes of a file: the
    mono signal and the native sampling rate; [None] when decoding
    raises. *)
Variable decode : list Byte.byte → option (list R * N).

(** [librosa.feature.mfcc(y=y, sr=sr, n_mfcc=n_mfcc)]; [None] when it
    raises. *)
Variable mfcc : list R → N → ∀ n_mfcc : nat, option (mfcc_matrix n_mfcc).

(** [librosa.load(path, sr=None, mono=True)] *)
Definition librosa_load (fs : FS.t) (path : string) : option (list R * N) :=
  FS.read_file cwd fs path ≫= decode.

(** [load_mfcc_mean(path, n_mfcc)] (lines 129-138) *)
Definition load_mfcc_mean (fs : FS.t) (path : string) (n_mfcc : nat)
  : option (vec R n_mfcc) :=
  match librosa_load fs path with
  | None => None
  | Some (y, sr) =>
      if (length y <? 10)%nat then None
      else match mfcc y sr n_mfcc with
           | None => None
           | Some m => Some (vmap np_mean m)
           end
  end.

(** [compare_voice(query_path, candidate_path)] (lines 140-149) *)
Definition compare_voice (fs : FS.t) (query_path candidate_path : string)
  : option R :=
  match load_mfcc_mean fs query_path 20, load_mfcc_mean fs candidate_path 20 with
  | Some v1, Some v2 => Some (np_linalg_norm (np_sub v1 v2))
  | _, _ => None
  end.

End Audio.

(* ================================================================== *)
(** * Find Data: matching a voice file *)

(** The radio button "Match Against". *)
Inductive match_mode := Database | UploadsFolder | Both.

(** The value of the threshold input: a float, which may be infinite. *)
Inductive threshold_value :=
| Finite (t : R)
| Infinity.

(** An entry of [results]: [(name, path, dist)]. *)
Definition result : Type := string * string * R.

Definition dist (r : result) : R := r.2.

(** [d <= threshold] *)
Definition le_threshold (d : R) (threshold : threshold_value) : bool :=
  match threshold with
  | Finite t => if Rle_dec d t then true else false
  | Infinity => true
  end.

(** Insertion of [x] into a list sorted by distance, before the first entry
    that is not strictly closer. *)
Fixpoint insert_by_dist (x : result) (l : list result) : list result :=
  match l with
  | [] => [x]
  | y :: l' =>
      if Rlt_dec (dist y) (dist x) then y :: insert_by_dist x l'
      else x :: y :: l'
  end.

(** [results.sort(key=lambda x: x[2])] (line 261): a stable sort by
    distance. *)
Definition sort_by_dist (l : list result) : list result :=
  foldr insert_by_dist [] l.

(** [d[k] = v] on a dictionary kept as the list of its items in insertion
    order: an existing key keeps its place and takes the new value. *)
Fixpoint dict_set (d : list (string * string)) (k v : string)
  : list (string * string) :=
  match d with
  | [] => [(k, v)]
  | (k', v') :: d' =>
      if decide (k' = k) then (k, v) :: d' else (k', v') :: dict_set d' k v
  end.

(** [d.get(k)] on such a dictionary. *)
Fixpoint dict_get (d : list (string * string)) (k : string) : option string :=
  match d with
  | [] => None
  | (k', v') :: d' => if decide (k' = k) then Some v' else dict_get d' k
  end.

Section Match.
Variable cwd : string.
Variable decode : list Byte.byte → option (list R * N).
Variable mfcc : list R → N → ∀ n_mfcc : nat, option (mfcc_matrix n_mfcc).

(** [{os.path.abspath(path): name for name, path in rows}] (line 249) *)
Definition combined_of (rows : list (string * string)) : list (string * string) :=
  foldl (λ d np, dict_set d (OsPath.abspath cwd np.2) np.1) [] rows.

(** The candidate list built from the catalog and the uploads folder
    (lines 241-250). *)
Definition candidates_of (mode : match_mode) (db : DB.t) (fs : FS.t)
  : list (string * string) :=
  let candidates :=
    match mode with
    | Database | Both => DB.get_all_db_rows db
    | UploadsFolder => []
    end in
  match mode with
  | UploadsFolder | Both =>
      let files := scan_uploads_for_audio cwd fs in
      let folder_rows := (λ f, (path_stem f, f)) <$> files in
      let combined := combined_of (candidates ++ folder_rows) in
      (λ pn, (pn.2, pn.1)) <$> combined
  | Database => candidates
  end.

(** The loop that fills [results] (lines 255-259): the candidates whose
    comparison with the query gives a distance. *)
Definition results_of (fs : FS.t) (query_path : string)
    (candidates : list (string * string)) : list result :=
  omap (λ c, d ← compare_voice cwd decode mfcc fs query_path c.2;
             Some (c.1, c.2, d)) candidates.

(** [accepted = [r for r in results if r[2] <= threshold]] (line 263) *)
Definition accepted_of (threshold : threshold_value) (results : list result)
  : list result :=
  filter (λ r, le_threshold (dist r) threshold = true) results.

(** [shown] (line 264): the entries displayed, from the sorted [results]. *)
Definition shown_of (threshold : threshold_value) (top_k : nat)
    (results : list result) : list result :=
  match accepted_of threshold results with
  | [] => take top_k results
  | accepted => take top_k accepted
  end.

(** The ranking of the candidates against the query (lines 255-264): what
    the branch displays. *)
Definition rank (fs : FS.t) (query_path : string)
    (candidates : list (string * string))
    (threshold : threshold_value) (top_k : nat) : list result :=
  shown_of threshold top_k (sort_by_dist (results_of fs query_path candidates)).

(** What the "Match" button reports. *)
Inductive outcome :=
| NoQueryFile                  (* "Upload a query audio file first." *)
| NoCandidates                 (* "No candidate files found." *)
| NoValidComparisons           (* "No valid comparisons." *)
| Shown (shown : list result).

(** The body of [if st.button("Match")] (lines 236-278): the filesystem
    afterwards and the report; [None] when an exception escapes. *)
Definition find_match (uploaded_voice : option uploaded_file)
    (mode : match_mode) (top_k : nat) (threshold : threshold_value)
    (db : DB.t) (fs : FS.t) : option (FS.t * outcome) :=
  match uploaded_voice with
  | None => Some (fs, NoQueryFile)
  | Some up =>
      '(fs1, query_path) ← save_uploaded_file cwd fs up UPLOAD_DIR;
      let candidates := candidates_of mode db fs1 in
      let report :=
        match candidates with
        | [] => NoCandidates
        | _ =>
            match sort_by_dist (results_of fs1 query_path candidates) with
            | [] => NoValidComparisons
            | results => Shown (shown_of threshold top_k results)
            end
        end in
      Some (FS.try_remove cwd fs1 query_path, report)
  end.

End Match.

(* ================================================================== *)
(** * Test doubles and sample states

    Stand-ins for the external libraries and a few small states, for the
    examples that evaluate the definitions. *)

Module Fixture.

Definition cwd : string := "/app".

(** A decoder that fails on fewer than four bytes and otherwise yields
    one sample per byte, all equal to 1, at 16 kHz. *)
Definition decode (data : list Byte.byte) : option (list R * N) :=
  if (length data <? 4)%nat then None
  else Some (replicate (length data) 1%R, 16000%N).

(** An MFCC whose every row is the signal itself. *)
Definition mfcc (y : list R) (sr : N) (n_mfcc : nat)
  : option (mfcc_matrix n_mfcc) :=
  Some (vreplicate n_mfcc y).

(** Twelve bytes of audio. *)
Definition audio12 : list Byte.byte := replicate 12 Byte.x01.

(** Eight bytes: decoded, but shorter than ten samples. *)
Definition audio8 : list Byte.byte := replicate 8 Byte.x01.

(** [uploads/] with [alice.wav] and [bob.mp3]. *)
Definition fs_two : FS.t :=
  {[ "/app/uploads" := FS.Dir;
     "/app/uploads/alice.wav" := FS.File audio12;
     "/app/uploads/bob.mp3" := FS.File audio12 ]}.

(** [uploads/] with the single file [SONG.WAV]. *)
Definition fs_upper : FS.t :=
  {[ "/app/uploads" := FS.Dir;
     "/app/uploads/SONG.WAV" := FS.File audio12 ]}.

(** [uploads/] with the single hidden file [.take.wav]. *)
Definition fs_hidden : FS.t :=
  {[ "/app/uploads" := FS.Dir;
     "/app/uploads/.take.wav" := FS.File audio12 ]}.

(** A catalog with one row for [alice.wav] under a name of its own. *)
Definition db_alice : DB.t :=
  DB.save_voice DB.init_db "Alice Smith" "/app/uploads/alice.wav".

End Fixture.

(* ================================================================== *)
(** * Manage: deleting the files of the uploads folder *)

Section Manage.
Variable cwd : string.

(** One turn of the loop of "Delete all files in uploads/" (lines
    305-310): a path that [os.remove] refuses (a directory, or a file that
    is gone) is passed over. *)
Definition delete_step (st : FS.t * nat) (f : string) : FS.t * nat :=
  match FS.remove cwd st.1 f with
  | Some fs' => (fs', S st.2)
  | None => st
  end.

(** The handler of "Delete all files in uploads/" (lines 302-312): the
    filesystem afterwards and the value of [deleted]. The catalog is not
    touched. *)
Definition delete_all_files (fs : FS.t) : FS.t * nat :=
  foldl delete_step (fs, 0) (scan_uploads_for_audio cwd fs).

End Manage.

(* ================================================================== *)
(** * Add Data: saving uploaded files *)

(** What the handler of "Save uploaded files" leaves behind. *)
Inductive add_outcome :=
| NoFilesUploaded                (* "No files uploaded." *)
| Raised (fs : FS.t)             (* an exception escapes the handler *)
| Saved (fs : FS.t) (db : DB.t) (saved_all : list string) (registered : nat).

Section AddData.
Variable cwd : string.

(** [zipfile.ZipFile(path, "r")] on the bytes of the file: the archive, or
    [None] when the constructor raises (not a zip file). *)
Variable unzip : list Byte.byte → option archive.

(** [extract_audio_from_zip(zip_path)] (lines 89-109) from the path of
    the archive; [None] when opening it raises. *)
Definition extract_audio_from_zip_path (fs : FS.t) (zip_path : string)
  : option (FS.t * list string) :=
  z ← FS.read_file cwd fs zip_path ≫= unzip;
  Some (extract_audio_from_zip cwd z fs UPLOAD_DIR).

(** The loop over [uploaded] (lines 174-185): the filesystem it leaves and
    [saved_all], or [None] in its place when an exception escapes. *)
Fixpoint save_all (fs : FS.t) (saved_all : list string)
    (uploaded : list uploaded_file) : FS.t * option (list string) :=
  match uploaded with
  | [] => (fs, Some saved_all)
  | up :: uploaded' =>
      if Str.endswith ".zip" (Str.lower (up_name up)) then
        match save_uploaded_file cwd fs up UPLOAD_DIR with
        | None => (fs, None)
        | Some (fs1, tmp_zip) =>
            match extract_audio_from_zip_path fs1 tmp_zip with
            | None => (fs1, None)
            | Some (fs2, extracted) =>
                save_all (FS.try_remove cwd fs2 tmp_zip)
                  (saved_all ++ extracted) uploaded'
            end
        end
      else
        match save_uploaded_file cwd fs up UPLOAD_DIR with
        | None => (fs, None)
        | Some (fs1, saved_path) =>
            save_all fs1 (saved_all ++ [saved_path]) uploaded'
        end
  end.

(** The body of [if submitted] (lines 169-196). *)
Definition add_data (uploaded : list uploaded_file) (db : DB.t) (fs : FS.t)
  : add_outcome :=
  match uploaded with
  | [] => NoFilesUploaded
  | _ =>
      match save_all fs [] uploaded with
      | (fs', None) => Raised fs'
      | (fs', Some saved_all) =>
          let '(db', registered) := register_saved cwd fs' db saved_all in
          Saved fs' db' saved_all registered
      end
  end.

End AddData.

(* ================================================================== *)
(** * Notions the statements are written with *)

(** The Euclidean distance of two sequences of coordinates: the square root
    of the sum of the squared coordinate differences. *)
Fixpoint sum_sq_diff (l1 l2 : list R) : R :=
  match l1, l2 with
  | x :: l1', y :: l2' => ((x - y) * (x - y) + sum_sq_diff l1' l2')%R
  | _, _ => 0%R
  end.

Definition euclidean_distance (l1 l2 : list R) : R := sqrt (sum_sq_diff l1 l2).

(** The arithmetic mean of the frames of one coefficient. *)
Definition frame_mean (frames : list R) : R :=
  (foldr Rplus 0 frames * / INR (length frames))%R.

(** The catalog respects [UNIQUE(filename)]. *)
Definition unique_filenames (db : DB.t) : Prop :=
  NoDup (DB.filename <$> DB.rows db).

(** The number of catalog rows of a path. *)
Definition rows_of_path (db : DB.t) (path : string) : nat :=
  length (filter (λ r, DB.filename r = path) (DB.rows db)).

(** The list is in non-decreasing order of distance. *)
Definition sorted_by_dist (l : list result) : Prop :=
  StronglySorted (λ a b, (dist a <= dist b)%R) l.

(** The distance of the entry is at most the threshold. *)
Definition within_threshold (threshold : threshold_value) (r : result) : Prop :=
  match threshold with
  | Finite t => (dist r <= t)%R
  | Infinity => True
  end.

#[global] Instance within_threshold_dec threshold r :
  Decision (within_threshold threshold r).
Proof. destruct threshold; [apply Rle_dec|left; exact I]. Defined.

#[global] Instance dist_eq_dec (d : R) (r : result) : Decision (dist r = d).
Proof. apply Req_dec_T. Defined.

(** A file name as a directory entry has it: no slash, and none of the
    names [""], ["."] and [".."]. *)
Definition proper_name (s : string) : Prop :=
  Str.contains OsPath.sep s = false ∧ s ≠ "" ∧ s ≠ "." ∧ s ≠ "..".

(** What may stand before the last component of a path: nothing, or a
    string that ends with a slash. *)
Definition dir_prefix (d : string) : Prop :=
  d = "" ∨ ∃ d', d = d' +:+ "/".

(** The name tried by [unique_path] at the turn numbered [k]. *)
Definition numbered_name (stem ext : string) (k : nat) : string :=
  stem +:+ "_" +:+ pretty k +:+ ext.

(** [dest] is the collision-free name [unique_path] gives to [target] on
    the filesystem [fs]: the target itself when no entry has that name, and
    otherwise the target's parent joined with [stem_k.ext] for the least
    [k >= 1] whose name is free. *)
Definition collision_free (cwd : string) (fs : FS.t) (target dest : string) : Prop :=
  let base := PathLib.Path target in
  let cand := λ k, PathLib.str (PathLib.joinpath (PathLib.parent base)
                (numbered_name (PathLib.stem base) (PathLib.suffix base) k)) in
  FS.exists_ cwd fs dest = false
  ∧ ((FS.exists_ cwd fs (PathLib.str base) = false ∧ dest = PathLib.str base)
     ∨ (FS.exists_ cwd fs (PathLib.str base) = true
        ∧ ∃ k, 1 ≤ k ∧ dest = cand k
            ∧ ∀ j, 1 ≤ j < k → FS.exists_ cwd fs (cand j) = true)).

(** What the extraction loop does over the members [ms] of the archive [z],
    from the filesystem [fs]: the paths saved, in order, and the filesystem
    left. A member that is not selected, or whose bytes cannot be read, is
    passed over; every other member is written under a collision-free
    name. *)
Inductive extracted (cwd : string) (z : archive)
  : list string → FS.t → list string → FS.t → Prop :=
| extracted_nil fs : extracted cwd z [] fs [] fs
| extracted_skip m ms fs saved fs' :
    member_selected m = false →
    extracted cwd z ms fs saved fs' →
    extracted cwd z (m :: ms) fs saved fs'
| extracted_fail m ms fs saved fs' :
    member_selected m = true → z_read z m = None →
    extracted cwd z ms fs saved fs' →
    extracted cwd z (m :: ms) fs saved fs'
| extracted_save m ms fs data dest saved fs' :
    member_selected m = true → z_read z m = Some data →
    collision_free cwd fs (OsPath.join UPLOAD_DIR (OsPath.basename m)) dest →
    extracted cwd z ms (<[OsPath.abspath cwd dest := FS.File data]> fs) saved fs' →
    extracted cwd z (m :: ms) fs (dest :: saved) fs'.

(** A component list as [normpath] builds it under [k] leading slashes:
    components are non-empty, have no slash and are not ["."]; [".."]
    stands only at the front, and only in a relative path. *)
Definition normal_comps (k : nat) (cs : list string) : Prop :=
  Forall (λ c, Str.contains OsPath.sep c = false ∧ c ≠ "" ∧ c ≠ ".") cs
  ∧ ∃ j cs', cs = replicate j ".." ++ cs'
      ∧ Forall (λ c, c ≠ "..") cs' ∧ (k ≠ 0 → j = 0).

(** Equality of distances is decided as in the classical reals. *)
#[global] Instance R_eq_dec : EqDecision R := Req_dec_T.

(** The absolute path of the uploads folder. *)
Definition uploads_root (cwd : string) : string := OsPath.abspath cwd UPLOAD_DIR.

(** A path relative to the uploads folder that the scan picks up: no
    component on the way is empty or hidden, and the last one ends with one
    of the allowed extensions, as it is written. *)
Definition scanned_rel (rel : string) : bool :=
  existsb (λ ext, FS.glob_match ext rel) ALLOWED_AUDIO_EXTS.

(** The paths are in strictly ascending order. *)
Definition ascending (l : list string) : Prop :=
  StronglySorted (λ a b, String.le a b ∧ a ≠ b) l.

(** Every entry of [fs] is in [fs'], unchanged. *)
Definition keeps (fs fs' : FS.t) : Prop :=
  ∀ p, is_Some (fs !! p) → fs' !! p = fs !! p.

(** [fs'] is [fs] with the entries [new] added and nothing else: each of
    them is a regular file of [fs'] that [fs] did not have, and no two of
    them are the same entry. *)
Definition adds_files (cwd : string) (fs fs' : FS.t) (new : list string) : Prop :=
  keeps fs fs'
  ∧ Forall (λ dest, fs !! OsPath.abspath cwd dest = None
                    ∧ ∃ data, fs' !! OsPath.abspath cwd dest = Some (FS.File data))
      new
  ∧ NoDup (OsPath.abspath cwd <$> new)
  ∧ ∀ k, is_Some (fs' !! k) →
         is_Some (fs !! k) ∨ k ∈ OsPath.abspath cwd <$> new.

(** The upload is treated as an archive (line 175). *)
Definition zip_named (up : uploaded_file) : bool :=
  Str.endswith ".zip" (Str.lower (up_name up)).


(* ================================================================== *)
(** * Fingerprints and distances *)

Section AudioFacts.
Context (cwd : string)
        (decode : list Byte.byte → option (list R * N))
        (mfcc : list R → N → ∀ n_mfcc : nat, option (mfcc_matrix n_mfcc)).

Lemma np_mean_frame_mean l : np_mean l = frame_mean l.
Proof. reflexivity. Qed.

Lemma sum_sq_diff_sub {n} (v1 v2 : vec R n) :
  foldr Rplus 0%R ((λ x, x * x)%R <$> vec_to_list (np_sub v1 v2))
  = sum_sq_diff (vec_to_list v1) (vec_to_list v2).
Proof.
  unfold np_sub. vec_double_ind v1 v2; [done|].
  intros n v1 v2 IH x y. cbn. by rewrite IH.
Qed.

Lemma norm_sub_euclidean {n} (v1 v2 : vec R n) :
  np_linalg_norm (np_sub v1 v2)
  = euclidean_distance (vec_to_list v1) (vec_to_list v2).
Proof. unfold np_linalg_norm, euclidean_distance. by rewrite sum_sq_diff_sub. Qed.

Lemma sum_sq_diff_sym l1 l2 : sum_sq_diff l1 l2 = sum_sq_diff l2 l1.
Proof.
  revert l2. induction l1 as [|x l1 IH]; intros [|y l2]; cbn; try done.
  rewrite IH. lra.
Qed.

Lemma sum_sq_diff_diag l : sum_sq_diff l l = 0%R.
Proof. induction l as [|x l IH]; cbn; [done|]. rewrite IH. lra. Qed.

Lemma compare_voice_None_l fs A B :
  load_mfcc_mean cwd decode mfcc fs A 20 = None →
  compare_voice cwd decode mfcc fs A B = None.
Proof. unfold compare_voice. by intros ->. Qed.

Lemma compare_voice_None_r fs A B :
  load_mfcc_mean cwd decode mfcc fs B 20 = None →
  compare_voice cwd decode mfcc fs A B = None.
Proof.
  unfold compare_voice. intros ->.
  by destruct (load_mfcc_mean cwd decode mfcc fs A 20).
Qed.

Lemma compare_voice_Some fs A B v1 v2 :
  load_mfcc_mean cwd decode mfcc fs A 20 = Some v1 →
  load_mfcc_mean cwd decode mfcc fs B 20 = Some v2 →
  compare_voice cwd decode mfcc fs A B
  = Some (euclidean_distance (vec_to_list v1) (vec_to_list v2)).
Proof.
  unfold compare_voice. intros -> ->. by rewrite norm_sub_euclidean.
Qed.

(** C2. [compare_voice] is a total function into [option R] (it never
    raises): it is absent whenever the fingerprint of either path is
    absent, and otherwise it is the Euclidean norm of the difference of
    the two fingerprints, which have 20 coordinates each. *)
Theorem compare_voice_spec fs A B :
  (load_mfcc_mean cwd decode mfcc fs A 20 = None
   ∨ load_mfcc_mean cwd decode mfcc fs B 20 = None →
   compare_voice cwd decode mfcc fs A B = None)
  ∧ (∀ v1 v2,
       load_mfcc_mean cwd decode mfcc fs A 20 = Some v1 →
       load_mfcc_mean cwd decode mfcc fs B 20 = Some v2 →
       compare_voice cwd decode mfcc fs A B
       = Some (euclidean_distance (vec_to_list v1) (vec_to_list v2))
       ∧ length (vec_to_list v1) = 20 ∧ length (vec_to_list v2) = 20)
  ∧ (is_Some (compare_voice cwd decode mfcc fs A B)
     ↔ is_Some (load_mfcc_mean cwd decode mfcc fs A 20)
       ∧ is_Some (load_mfcc_mean cwd decode mfcc fs B 20)).
Proof.
  split; [|split].
  - intros [H|H]; [by apply compare_voice_None_l|by apply compare_voice_None_r].
  - intros v1 v2 H1 H2. rewrite !length_vec_to_list.
    split; [by apply compare_voice_Some|done].
  - unfold compare_voice.
    destruct (load_mfcc_mean cwd decode mfcc fs A 20),
             (load_mfcc_mean cwd decode mfcc fs B 20); split;
      try (intros [[] []]); try (intros []); by eauto.
Qed.

(** C9. For valid audio files [A] and [B] (files with a fingerprint),
    [compare_voice] is symmetric and the distance of a file to itself
    is 0. *)
Theorem compare_voice_sym_refl fs A B :
  is_Some (load_mfcc_mean cwd decode mfcc fs A 20) →
  is_Some (load_mfcc_mean cwd decode mfcc fs B 20) →
  compare_voice cwd decode mfcc fs A B = compare_voice cwd decode mfcc fs B A
  ∧ compare_voice cwd decode mfcc fs A A = Some 0%R.
Proof.
  intros [v1 H1] [v2 H2].
  rewrite (compare_voice_Some _ _ _ _ _ H1 H2), (compare_voice_Some _ _ _ _ _ H2 H1),
    (compare_voice_Some _ _ _ _ _ H1 H1).
  unfold euclidean_distance.
  rewrite (sum_sq_diff_sym (vec_to_list v1)), sum_sq_diff_diag, sqrt_0. done.
Qed.

(** C4. [load_mfcc_mean] is absent when decoding fails and when the
    decoded signal has fewer than 10 samples; a signal of at least 10
    samples with an MFCC matrix gives a fingerprint; and coefficient [i] of
    a fingerprint is the plain mean over all frames of row [i] of the
    20-coefficient MFCC matrix of the decoded signal. *)
Theorem load_mfcc_mean_spec fs path :
  (librosa_load cwd decode fs path = None →
   load_mfcc_mean cwd decode mfcc fs path 20 = None)
  ∧ (∀ y sr, librosa_load cwd decode fs path = Some (y, sr) →
       length y < 10 → load_mfcc_mean cwd decode mfcc fs path 20 = None)
  ∧ (∀ y sr m, librosa_load cwd decode fs path = Some (y, sr) →
       10 ≤ length y → mfcc y sr 20 = Some m →
       ∃ v, load_mfcc_mean cwd decode mfcc fs path 20 = Some v
         ∧ ∀ i, v !!! i = frame_mean (m !!! i))
  ∧ (∀ v, load_mfcc_mean cwd decode mfcc fs path 20 = Some v →
       ∃ y sr m, librosa_load cwd decode fs path = Some (y, sr)
         ∧ 10 ≤ length y ∧ mfcc y sr 20 = Some m
         ∧ ∀ i, v !!! i = frame_mean (m !!! i)).
Proof.
  unfold load_mfcc_mean. repeat split.
  - by intros ->.
  - intros y sr -> Hy. by apply Nat.ltb_lt in Hy as ->.
  - intros y sr m -> Hy ->.
    destruct (Nat.ltb_spec (length y) 10) as [?|_]; [lia|].
    eexists; split; [done|]. intros i. by rewrite vlookup_map.
  - intros v. destruct (librosa_load _ _ _ _) as [[y sr]|]; [|done].
    destruct (Nat.ltb_spec (length y) 10) as [?|Hy]; [done|].
    destruct (mfcc y sr 20) as [m|] eqn:Hm; [|done].
    intros [= <-]. exists y, sr, m. repeat split; try done.
    intros i. by rewrite vlookup_map.
Qed.

End AudioFacts.

(* ================================================================== *)
(** * The catalog *)

Section CatalogFacts.

Lemma file_registered_iff db path :
  DB.file_registered_in_db db path = true
  ↔ path ∈ DB.filename <$> DB.rows db.
Proof.
  unfold DB.file_registered_in_db. rewrite existsb_exists, list_elem_of_fmap.
  split.
  - intros (r & Hr & Heq). apply bool_decide_eq_true in Heq.
    exists r. by rewrite list_elem_of_In.
  - intros (r & -> & Hr). exists r. rewrite <-list_elem_of_In.
    by rewrite bool_decide_eq_true.
Qed.

Lemma file_registered_false db path :
  DB.file_registered_in_db db path = false
  ↔ path ∉ DB.filename <$> DB.rows db.
Proof.
  rewrite <-file_registered_iff. by destruct (DB.file_registered_in_db db path).
Qed.

Lemma rows_of_path_0 db path :
  path ∉ DB.filename <$> DB.rows db → rows_of_path db path = 0.
Proof.
  unfold rows_of_path. destruct db as [rows n]. unfold DB.rows.
  induction rows as [|r rows IH]; [done|]. rewrite fmap_cons. intros Hnot.
  rewrite not_elem_of_cons in Hnot. destruct Hnot as [Hne Hnot].
  rewrite filter_cons_False by done. by apply IH.
Qed.

Lemma rows_of_path_1 db path :
  unique_filenames db → path ∈ DB.filename <$> DB.rows db →
  rows_of_path db path = 1.
Proof.
  unfold rows_of_path, unique_filenames. destruct db as [rows n]. unfold DB.rows.
  induction rows as [|r rows IH].
  - by intros _ ?%elem_of_nil.
  - rewrite fmap_cons. intros [Hnotin Hnd]%NoDup_cons Hin.
    destruct (decide (DB.filename r = path)) as [Heq|Hne].
    + rewrite filter_cons_True by done. cbn. f_equal.
      subst path. by apply (rows_of_path_0 (DB.Make rows n)).
    + rewrite filter_cons_False by done. apply IH; [done|].
      apply elem_of_cons in Hin as [?|?]; [by subst|done].
Qed.

Lemma save_voice_registered db name path :
  DB.file_registered_in_db (DB.save_voice db name path) path = true.
Proof.
  unfold DB.save_voice.
  destruct (DB.file_registered_in_db db path) eqn:E; [done|].
  apply file_registered_iff. cbn. rewrite fmap_app. set_solver.
Qed.

Lemma save_voice_unique db name path :
  unique_filenames db → unique_filenames (DB.save_voice db name path).
Proof.
  unfold DB.save_voice, unique_filenames.
  destruct (DB.file_registered_in_db db path) eqn:E; [done|].
  apply file_registered_false in E. cbn. rewrite fmap_app. cbn.
  intros Hnd. apply NoDup_app. split_and!; [done| |apply NoDup_singleton].
  intros x Hx ->%list_elem_of_singleton. done.
Qed.

Lemma save_voice_other db name path path' :
  path ≠ path' →
  rows_of_path (DB.save_voice db name path) path' = rows_of_path db path'.
Proof.
  intros Hne. unfold DB.save_voice, rows_of_path.
  destruct (DB.file_registered_in_db db path); [done|]. cbn.
  rewrite filter_app, filter_cons_False, filter_nil, app_nil_r by done. done.
Qed.

Lemma save_voice_rows_prefix db name path :
  DB.rows db `prefix_of` DB.rows (DB.save_voice db name path).
Proof.
  unfold DB.save_voice. destruct (DB.file_registered_in_db db path); [done|].
  cbn. by apply prefix_app_r.
Qed.


End CatalogFacts.

(* ================================================================== *)
(** * Ranking *)

Section RankFacts.
Context (cwd : string)
        (decode : list Byte.byte → option (list R * N))
        (mfcc : list R → N → ∀ n_mfcc : nat, option (mfcc_matrix n_mfcc)).

Lemma insert_by_dist_perm x l : insert_by_dist x l ≡ₚ x :: l.
Proof.
  induction l as [|y l IH]; cbn; [done|].
  destruct (Rlt_dec (dist y) (dist x)); [|done].
  rewrite IH. apply Permutation_swap.
Qed.

Lemma sort_by_dist_perm l : sort_by_dist l ≡ₚ l.
Proof.
  induction l as [|x l IH]; cbn; [done|].
  rewrite insert_by_dist_perm. by f_equiv.
Qed.

Lemma insert_by_dist_sorted x l :
  sorted_by_dist l → sorted_by_dist (insert_by_dist x l).
Proof.
  unfold sorted_by_dist. induction l as [|y l IH]; cbn; intros Hs.
  - repeat constructor.
  - apply StronglySorted_inv in Hs as [Hs Hy].
    destruct (Rlt_dec (dist y) (dist x)) as [Hlt|Hge].
    + constructor; [by apply IH|].
      rewrite insert_by_dist_perm. constructor; [lra|done].
    + apply Rnot_lt_le in Hge. constructor; [by constructor|].
      constructor; [done|]. eapply Forall_impl; [exact Hy|].
      cbn. intros z Hz. lra.
Qed.

Lemma sort_by_dist_sorted l : sorted_by_dist (sort_by_dist l).
Proof.
  induction l as [|x l IH]; cbn; [constructor|].
  by apply insert_by_dist_sorted.
Qed.

Lemma sorted_by_dist_sublist l1 l2 :
  l1 `sublist_of` l2 → sorted_by_dist l2 → sorted_by_dist l1.
Proof.
  unfold sorted_by_dist. induction 1 as [|x l1 l2 Hsub IH|x l1 l2 Hsub IH];
    intros Hs; [done|..]; apply StronglySorted_inv in Hs as [Hs Hx].
  - constructor; [by apply IH|].
    apply Forall_forall. intros y Hy. eapply Forall_forall in Hx; [exact Hx|].
    by eapply sublist_subseteq.
  - by apply IH.
Qed.

Lemma sorted_by_dist_take k l : sorted_by_dist l → sorted_by_dist (take k l).
Proof. apply sorted_by_dist_sublist, sublist_take. Qed.

Lemma sorted_by_dist_filter (P : result → Prop) `{∀ r, Decision (P r)} l :
  sorted_by_dist l → sorted_by_dist (filter P l).
Proof. apply sorted_by_dist_sublist, sublist_filter. Qed.

(** The sort is stable: entries at the same distance keep their order. *)
Lemma insert_by_dist_stable d x l :
  filter (λ r, dist r = d) (insert_by_dist x l)
  = filter (λ r, dist r = d) (x :: l).
Proof.
  induction l as [|y l IH]; cbn [insert_by_dist]; [done|].
  destruct (Rlt_dec (dist y) (dist x)) as [Hlt|_]; [|done].
  destruct (decide (dist y = d)) as [Hy|Hy].
  - rewrite (filter_cons_True _ y) by done. rewrite IH.
    rewrite (filter_cons_False _ x) by lra.
    rewrite (filter_cons_False _ x) by lra. by rewrite filter_cons_True.
  - rewrite (filter_cons_False _ y) by done. rewrite IH.
    destruct (decide (dist x = d)).
    + rewrite !(filter_cons_True _ x) by done. by rewrite filter_cons_False.
    + rewrite !(filter_cons_False _ x) by done. by rewrite filter_cons_False.
Qed.

Lemma sort_by_dist_stable d l :
  filter (λ r, dist r = d) (sort_by_dist l) = filter (λ r, dist r = d) l.
Proof.
  induction l as [|x l IH]; [done|]. cbn [sort_by_dist foldr].
  rewrite insert_by_dist_stable. fold (sort_by_dist l).
  destruct (decide (dist x = d)).
  - rewrite !(filter_cons_True _ x) by done. by rewrite IH.
  - rewrite !(filter_cons_False _ x) by done. by rewrite IH.
Qed.

Lemma le_threshold_within threshold r :
  le_threshold (dist r) threshold = true ↔ within_threshold threshold r.
Proof.
  unfold le_threshold, within_threshold. destruct threshold as [t|]; [|done].
  by destruct (Rle_dec (dist r) t).
Qed.

Lemma accepted_of_within threshold l :
  accepted_of threshold l = filter (within_threshold threshold) l.
Proof. unfold accepted_of. apply list_filter_iff, le_threshold_within. Qed.

Lemma accepted_of_Infinity l : accepted_of Infinity l = l.
Proof.
  unfold accepted_of. induction l as [|x l IH]; [done|].
  rewrite filter_cons_True by done. by rewrite IH.
Qed.

Lemma elem_of_results_of fs q cands r :
  r ∈ results_of cwd decode mfcc fs q cands
  ↔ ∃ name path d, (name, path) ∈ cands
      ∧ compare_voice cwd decode mfcc fs q path = Some d
      ∧ r = (name, path, d).
Proof.
  unfold results_of. rewrite list_elem_of_omap. split.
  - intros ([name path] & Hin & Hr). cbn in Hr.
    destruct (compare_voice _ _ _ _ _ _) as [d|] eqn:E; [|done].
    cbn in Hr. injection Hr as <-. by exists name, path, d.
  - intros (name & path & d & Hin & Hc & ->). exists (name, path).
    split; [done|]. cbn. by rewrite Hc.
Qed.

Lemma length_results_of fs q cands :
  length (results_of cwd decode mfcc fs q cands)
  = length (filter (λ c, is_Some (compare_voice cwd decode mfcc fs q c.2)) cands).
Proof.
  unfold results_of. induction cands as [|[name path] cands IH]; [done|].
  destruct (compare_voice cwd decode mfcc fs q path) as [d|] eqn:E.
  - rewrite filter_cons_True by (cbn; by rewrite E).
    cbn. rewrite E. cbn. by rewrite IH.
  - rewrite filter_cons_False by (cbn; rewrite E; by intros []).
    cbn. rewrite E. cbn. by rewrite IH.
Qed.

Lemma results_of_query_absent fs q cands :
  load_mfcc_mean cwd decode mfcc fs q 20 = None →
  results_of cwd decode mfcc fs q cands = [].
Proof.
  intros Hq. unfold results_of. induction cands as [|c cands IH]; [done|].
  cbn. by rewrite (compare_voice_None_l _ _ _ _ _ _ Hq).
Qed.

Lemma length_rank_Infinity fs q cands top_k :
  length (rank cwd decode mfcc fs q cands Infinity top_k)
  = top_k `min` length (results_of cwd decode mfcc fs q cands).
Proof.
  unfold rank, shown_of. rewrite accepted_of_Infinity.
  rewrite <-(Permutation_length
               (sort_by_dist_perm (results_of cwd decode mfcc fs q cands))).
  generalize (sort_by_dist (results_of cwd decode mfcc fs q cands)).
  intros [|r l]; by rewrite length_take.
Qed.

(** C1. [rank]: the valid comparisons are exactly the candidates with a
    distance (the absent ones are dropped); they are sorted in
    non-decreasing order of distance; what is returned is the first
    [top_k] of the entries whose distance is at most the threshold when
    there is one, and the first [top_k] of the whole sorted list otherwise;
    and with an infinite threshold exactly
    [min top_k (number of valid comparisons)] entries are returned. *)
Theorem rank_spec fs q cands threshold top_k :
  let valid := results_of cwd decode mfcc fs q cands in
  let sorted := sort_by_dist valid in
  let accepted := filter (within_threshold threshold) sorted in
  (∀ r, r ∈ valid ↔ ∃ name path d, (name, path) ∈ cands
          ∧ compare_voice cwd decode mfcc fs q path = Some d
          ∧ r = (name, path, d))
  ∧ length valid
    = length (filter (λ c, is_Some (compare_voice cwd decode mfcc fs q c.2)) cands)
  ∧ sorted ≡ₚ valid
  ∧ sorted_by_dist sorted
  ∧ rank cwd decode mfcc fs q cands threshold top_k
    = (if decide (accepted = []) then take top_k sorted else take top_k accepted)
  ∧ sorted_by_dist (rank cwd decode mfcc fs q cands threshold top_k)
  ∧ length (rank cwd decode mfcc fs q cands Infinity top_k)
    = top_k `min` length valid.
Proof.
  intros valid sorted accepted.
  assert (rank cwd decode mfcc fs q cands threshold top_k
    = (if decide (accepted = []) then take top_k sorted else take top_k accepted))
    as Hrank.
  { unfold rank, shown_of. rewrite accepted_of_within.
    fold valid. fold sorted. fold accepted.
    destruct accepted; by case_decide. }
  split_and!.
  - apply elem_of_results_of.
  - apply length_results_of.
  - apply sort_by_dist_perm.
  - apply sort_by_dist_sorted.
  - done.
  - rewrite Hrank. case_decide; apply sorted_by_dist_take;
      [|apply sorted_by_dist_filter]; apply sort_by_dist_sorted.
  - apply length_rank_Infinity.
Qed.

End RankFacts.

(* ================================================================== *)
(** * Strings and paths *)

Section StringFacts.
Implicit Types (s p r : string) (c : ascii).

Lemma string_app_cons a s1 s2 : String a s1 +:+ s2 = String a (s1 +:+ s2).
Proof. done. Qed.

Lemma string_app_nil_l s : "" +:+ s = s.
Proof. done. Qed.

Lemma string_app_nil_r s : s +:+ "" = s.
Proof. induction s; rewrite ?string_app_cons; by f_equal. Qed.

Lemma string_app_assoc s1 s2 s3 : (s1 +:+ s2) +:+ s3 = s1 +:+ (s2 +:+ s3).
Proof. induction s1; rewrite ?string_app_cons; by f_equal. Qed.

Lemma string_length_app s1 s2 :
  String.length (s1 +:+ s2) = String.length s1 + String.length s2.
Proof. induction s1; rewrite ?string_app_cons; cbn; by f_equal. Qed.

Lemma string_rev_app_spec s1 s2 : String.rev_app s1 s2 = String.rev s1 +:+ s2.
Proof.
  unfold String.rev. revert s2. induction s1 as [|a s1 IH]; intros s2; cbn; [done|].
  rewrite IH, (IH (String a "")), string_app_assoc. done.
Qed.

Lemma string_rev_cons a s : String.rev (String a s) = String.rev s +:+ String a "".
Proof. unfold String.rev at 1. cbn. apply string_rev_app_spec. Qed.

Lemma string_rev_app s1 s2 :
  String.rev (s1 +:+ s2) = String.rev s2 +:+ String.rev s1.
Proof.
  induction s1 as [|a s1 IH].
  - rewrite string_app_nil_l. change (String.rev "") with "".
    by rewrite string_app_nil_r.
  - by rewrite string_app_cons, !string_rev_cons, IH, string_app_assoc.
Qed.

Lemma string_rev_involutive s : String.rev (String.rev s) = s.
Proof.
  induction s as [|a s IH]; [done|].
  by rewrite string_rev_cons, string_rev_app, IH.
Qed.

Lemma string_app_inj_r s1 s2 s : s1 +:+ s = s2 +:+ s → s1 = s2.
Proof.
  intros H. apply (f_equal String.rev) in H. rewrite !string_rev_app in H.
  apply String.app_inj in H. apply (f_equal String.rev) in H.
  by rewrite !string_rev_involutive in H.
Qed.

Lemma startswith_spec p s : Str.startswith p s = true ↔ ∃ r, s = p +:+ r.
Proof.
  revert s. induction p as [|a p IH]; intros s; cbn.
  - split; [by exists s|done].
  - destruct s as [|b s]; [split; [done|by intros [? ?]]|].
    case_decide as Hab.
    + subst b. rewrite IH. split; intros [r Hr]; exists r; [by rewrite Hr|].
      rewrite string_app_cons in Hr. by injection Hr.
    + split; [done|]. intros [r Hr]. rewrite string_app_cons in Hr.
      injection Hr. congruence.
Qed.

Lemma endswith_spec p s : Str.endswith p s = true ↔ ∃ r, s = r +:+ p.
Proof.
  unfold Str.endswith. rewrite startswith_spec. split.
  - intros [r Hr]. exists (String.rev r).
    apply (f_equal String.rev) in Hr.
    by rewrite string_rev_app, !string_rev_involutive in Hr.
  - intros [r ->]. exists (String.rev r). by rewrite string_rev_app.
Qed.

Lemma strip_prefix_spec p s r : FS.strip_prefix p s = Some r ↔ s = p +:+ r.
Proof.
  revert s. induction p as [|a p IH]; intros s; cbn.
  - split; [by intros [= ->]|by intros ->].
  - rewrite string_app_cons. destruct s as [|b s]; [done|]. case_decide as Hab.
    + subst b. rewrite IH. split; [by intros ->|by intros [= ->]].
    + split; [done|]. intros [= ? ?]. done.
Qed.

Lemma contains_app c s1 s2 :
  Str.contains c (s1 +:+ s2) = Str.contains c s1 || Str.contains c s2.
Proof.
  induction s1 as [|a s1 IH]; [done|]. rewrite string_app_cons. cbn.
  by case_decide.
Qed.

Lemma rsplit_None c s : Str.rsplit c s = None ↔ Str.contains c s = false.
Proof.
  induction s as [|a s IH]; cbn; [done|].
  destruct (Str.rsplit c s) as [[? ?]|].
  - case_decide; [done|]. split; [done|]. intros Hc. by apply IH in Hc.
  - case_decide; [done|]. split; [intros _; by apply IH|done].
Qed.

Lemma rsplit_Some_1 c s pre post :
  Str.rsplit c s = Some (pre, post) →
  s = pre +:+ String c post ∧ Str.contains c post = false.
Proof.
  revert pre post. induction s as [|a s IH]; intros pre post; cbn; [done|].
  destruct (Str.rsplit c s) as [[pre' post']|] eqn:E.
  - intros [= <- <-]. destruct (IH _ _ eq_refl) as [-> ?].
    by rewrite string_app_cons.
  - case_decide; [|done]. intros [= <- <-]. subst a.
    split; [done|]. by apply rsplit_None.
Qed.

Lemma rsplit_Some_2 c pre post :
  Str.contains c post = false →
  Str.rsplit c (pre +:+ String c post) = Some (pre, post).
Proof.
  intros Hpost. induction pre as [|a pre IH].
  - rewrite string_app_nil_l. cbn.
    apply rsplit_None in Hpost as ->. by rewrite decide_True.
  - rewrite string_app_cons. cbn. by rewrite IH.
Qed.

(** [rsplit] cuts at the last occurrence of the separator. *)
Lemma rsplit_Some c s pre post :
  Str.rsplit c s = Some (pre, post)
  ↔ s = pre +:+ String c post ∧ Str.contains c post = false.
Proof.
  split; [apply rsplit_Some_1|]. intros [-> ?]. by apply rsplit_Some_2.
Qed.

Lemma split_nonempty c s : Str.split c s ≠ [].
Proof.
  destruct s as [|a s]; cbn; [done|].
  case_decide; [done|]. by destruct (Str.split c s).
Qed.

Lemma split_no_sep c s : Str.contains c s = false → Str.split c s = [s].
Proof.
  induction s as [|a s IH]; cbn; [done|].
  case_decide; [done|]. intros Hc. by rewrite IH.
Qed.

Lemma split_app_sep c s1 s2 :
  Str.split c (s1 +:+ String c s2) = Str.split c s1 ++ Str.split c s2.
Proof.
  induction s1 as [|a s1 IH]; rewrite ?string_app_cons, ?string_app_nil_l; cbn.
  - by rewrite decide_True.
  - case_decide; [by rewrite IH|]. rewrite IH.
    pose proof (split_nonempty c s1). by destruct (Str.split c s1).
Qed.

Lemma split_Forall_no_sep c s :
  Forall (λ w, Str.contains c w = false) (Str.split c s).
Proof.
  induction s as [|a s IH]; cbn; [by repeat constructor|].
  case_decide; [by constructor|].
  destruct (Str.split c s) as [|w ws]; [by repeat constructor; cbn; case_decide|].
  apply Forall_cons in IH as [Hw Hws]. constructor; [|done].
  cbn. by case_decide.
Qed.

Lemma join_snoc sep l x :
  l ≠ [] → Str.join sep (l ++ [x]) = Str.join sep l +:+ sep +:+ x.
Proof.
  induction l as [|y l IH]; [done|]. intros _. destruct l as [|z l]; [done|].
  change (Str.join sep ((y :: z :: l) ++ [x]))
    with (y +:+ sep +:+ Str.join sep ((z :: l) ++ [x])).
  rewrite IH by done.
  change (Str.join sep (y :: z :: l)) with (y +:+ sep +:+ Str.join sep (z :: l)).
  by rewrite !string_app_assoc.
Qed.

Lemma split_join c l :
  l ≠ [] → Forall (λ w, Str.contains c w = false) l →
  Str.split c (Str.join (String c "") l) = l.
Proof.
  induction l as [|x l IH]; [done|]. intros _ [Hx Hl]%Forall_cons.
  destruct l as [|y l]; [by apply split_no_sep|].
  change (Str.join (String c "") (x :: y :: l))
    with (x +:+ String c (Str.join (String c "") (y :: l))).
  rewrite split_app_sep, IH, split_no_sep by done. done.
Qed.

Lemma basename_no_sep p : Str.contains OsPath.sep (OsPath.basename p) = false.
Proof.
  unfold OsPath.basename. destruct (Str.rsplit OsPath.sep p) as [[pre post]|] eqn:E.
  - by apply rsplit_Some in E as [_ ?].
  - by apply rsplit_None.
Qed.

Lemma basename_app_sep pre s :
  Str.contains OsPath.sep s = false →
  OsPath.basename (pre +:+ String OsPath.sep s) = s.
Proof.
  intros Hs. unfold OsPath.basename.
  assert (Str.rsplit OsPath.sep (pre +:+ String OsPath.sep s) = Some (pre, s)) as ->;
    [|done].
  by apply rsplit_Some.
Qed.

End StringFacts.

(* ================================================================== *)
(** * Paths *)

Section PathFacts.
Implicit Types (s d : string).

Lemma dir_prefix_app d1 d2 :
  dir_prefix d1 → dir_prefix d2 → dir_prefix (d1 +:+ d2).
Proof.
  intros H1 [->|[d' ->]]; [by rewrite string_app_nil_r|].
  right. exists (d1 +:+ d'). by rewrite string_app_assoc.
Qed.

Lemma dir_prefix_slashes n : dir_prefix (Str.join "" (replicate n "/")).
Proof.
  destruct n as [|n]; [by left|]. right.
  induction n as [|n [d' IH]]; [by exists ""|].
  exists ("/" +:+ d').
  change (Str.join "" (replicate (S (S n)) "/"))
    with ("/" +:+ "" +:+ Str.join "" (replicate (S n) "/")).
  by rewrite IH.
Qed.

Lemma split_dir_prefix d s :
  dir_prefix d → Str.contains OsPath.sep s = false →
  ∃ init, Str.split OsPath.sep (d +:+ s) = init ++ [s].
Proof.
  intros [->|[d' ->]] Hs.
  - exists []. by rewrite string_app_nil_l, split_no_sep.
  - exists (Str.split OsPath.sep d').
    rewrite string_app_assoc.
    change ("/" +:+ s) with (String OsPath.sep s).
    by rewrite split_app_sep, (split_no_sep _ s).
Qed.

Lemma basename_dir_prefix d s :
  dir_prefix d → Str.contains OsPath.sep s = false →
  OsPath.basename (d +:+ s) = s.
Proof.
  intros [->|[d' ->]] Hs.
  - rewrite string_app_nil_l. unfold OsPath.basename.
    by apply rsplit_None in Hs as ->.
  - rewrite string_app_assoc. by apply basename_app_sep.
Qed.

Lemma norm_step_proper k comps s :
  proper_name s → OsPath.norm_step k comps s = comps ++ [s].
Proof.
  intros (_ & ? & ? & ?). unfold OsPath.norm_step.
  rewrite decide_False by (by intros [?|?]). by rewrite decide_True by auto.
Qed.

Lemma join_snoc_dir_prefix l s :
  ∃ d, dir_prefix d ∧ Str.join "/" (l ++ [s]) = d +:+ s.
Proof.
  destruct (decide (l = [])) as [->|Hl].
  - exists "". split; [by left|done].
  - exists (Str.join "/" l +:+ "/"). split; [right; eauto|].
    by rewrite join_snoc, string_app_assoc.
Qed.

Lemma proper_name_app_ne d s : proper_name s → d +:+ s ≠ "".
Proof.
  intros (_ & Hs & _) Heq. apply (f_equal String.length) in Heq.
  rewrite string_length_app in Heq. destruct s; [done|]. cbn in Heq. lia.
Qed.

(** Normalisation keeps a proper last component in place. *)
Lemma normpath_dir_prefix d s :
  dir_prefix d → proper_name s →
  ∃ d', dir_prefix d' ∧ OsPath.normpath (d +:+ s) = d' +:+ s.
Proof.
  intros Hd Hs. unfold OsPath.normpath.
  rewrite decide_False by by apply proper_name_app_ne.
  destruct (split_dir_prefix d s Hd) as [init ->]; [apply Hs|].
  rewrite foldl_app. cbn [foldl]. rewrite norm_step_proper by done.
  destruct (join_snoc_dir_prefix
    (foldl (OsPath.norm_step (OsPath.initial_slashes (d +:+ s))) [] init) s)
    as (d1 & Hd1 & ->).
  rewrite <-string_app_assoc.
  rewrite decide_False by by apply proper_name_app_ne.
  eexists; split; [|done]. apply dir_prefix_app; [|done].
  apply dir_prefix_slashes.
Qed.

Lemma join_dir_prefix cwd d s :
  dir_prefix d →
  ∃ d', dir_prefix d'
    ∧ (if OsPath.isabs (d +:+ s) then d +:+ s else OsPath.join cwd (d +:+ s))
      = d' +:+ s.
Proof.
  intros Hd. unfold OsPath.join.
  destruct (OsPath.isabs (d +:+ s)); [by eauto|].
  case_decide; [by eauto|].
  destruct (Str.endswith "/" cwd) eqn:E.
  - apply endswith_spec in E as [r ->].
    exists ((r +:+ "/") +:+ d). rewrite !string_app_assoc. split; [|done].
    rewrite <-string_app_assoc. apply dir_prefix_app; [right; eauto|done].
  - exists ((cwd +:+ "/") +:+ d). rewrite !string_app_assoc. split; [|done].
    rewrite <-string_app_assoc. apply dir_prefix_app; [right; eauto|done].
Qed.

(** The absolute path of [d +:+ s] still ends with the name [s]. *)
Lemma abspath_dir_prefix cwd d s :
  dir_prefix d → proper_name s →
  ∃ d', dir_prefix d' ∧ OsPath.abspath cwd (d +:+ s) = d' +:+ s.
Proof.
  intros Hd Hs. unfold OsPath.abspath.
  destruct (join_dir_prefix cwd d s Hd) as (d1 & Hd1 & ->).
  by apply normpath_dir_prefix.
Qed.

Lemma basename_abspath cwd d s :
  dir_prefix d → proper_name s →
  OsPath.basename (OsPath.abspath cwd (d +:+ s)) = s.
Proof.
  intros Hd Hs. destruct (abspath_dir_prefix cwd d s Hd Hs) as (d' & Hd' & ->).
  apply basename_dir_prefix; [done|apply Hs].
Qed.

Lemma not_isabs_proper s : proper_name s → OsPath.isabs s = false.
Proof.
  intros (Hc & Hne & _). destruct s as [|a s]; [done|].
  unfold OsPath.isabs, OsPath.sep in *. cbn in *.
  repeat case_decide; congruence.
Qed.

Lemma parts_Path_proper s : proper_name s → PathLib.parts (PathLib.Path s) = [s].
Proof.
  intros (Hc & ? & ? & _). unfold PathLib.Path. cbn.
  rewrite split_no_sep by done. by rewrite filter_cons_True, filter_nil.
Qed.

(** [str(parent / name)] is a directory prefix followed by [name]. *)
Lemma str_joinpath_proper p s :
  dir_prefix (PathLib.root p) → proper_name s →
  ∃ d, dir_prefix d ∧ PathLib.str (PathLib.joinpath p s) = d +:+ s.
Proof.
  intros Hroot Hs. unfold PathLib.joinpath.
  rewrite not_isabs_proper, parts_Path_proper by done.
  unfold PathLib.str. cbn.
  destruct (join_snoc_dir_prefix (PathLib.parts p) s) as (d & Hd & ->).
  rewrite <-string_app_assoc.
  rewrite decide_False by by apply proper_name_app_ne.
  eexists; split; [|done]. by apply dir_prefix_app.
Qed.

Lemma root_Path_dir_prefix s : dir_prefix (PathLib.root (PathLib.Path s)).
Proof. apply dir_prefix_slashes. Qed.


Lemma parts_Path_no_sep s :
  Forall (λ w, Str.contains OsPath.sep w = false) (PathLib.parts (PathLib.Path s)).
Proof.
  unfold PathLib.Path. cbn. apply Forall_forall. intros w Hw.
  apply list_elem_of_filter in Hw as [_ Hw].
  by eapply Forall_forall in Hw; [|apply split_Forall_no_sep].
Qed.

Lemma name_Path_no_sep s :
  Str.contains OsPath.sep (PathLib.name (PathLib.Path s)) = false.
Proof.
  unfold PathLib.name. pose proof (parts_Path_no_sep s) as H.
  destruct (last (PathLib.parts (PathLib.Path s))) as [w|] eqn:E; [|done].
  cbn. apply last_Some in E as [l' E]. rewrite E in H.
  by apply Forall_app in H as [_ [? _]%Forall_cons].
Qed.

Lemma stem_suffix_of_name n :
  PathLib.stem_of_name n +:+ PathLib.suffix_of_name n = n.
Proof.
  unfold PathLib.stem_of_name, PathLib.suffix_of_name.
  destruct (Str.rsplit "." n) as [[pre post]|] eqn:E;
    [|by rewrite string_app_nil_r].
  case_decide; [by rewrite string_app_nil_r|].
  by apply rsplit_Some in E as [-> _].
Qed.

Lemma stem_suffix_no_sep n :
  Str.contains OsPath.sep n = false →
  Str.contains OsPath.sep (PathLib.stem_of_name n) = false
  ∧ Str.contains OsPath.sep (PathLib.suffix_of_name n) = false.
Proof.
  rewrite <-(stem_suffix_of_name n) at 1. rewrite contains_app.
  by intros [? ?]%orb_false_elim.
Qed.

End PathFacts.

(* ================================================================== *)
(** * [normpath] and [abspath] are idempotent *)

Section NormFacts.
Implicit Types (s p : string) (cs : list string) (k : nat).

Lemma replicate_snoc {A} (x : A) j : replicate j x ++ [x] = replicate (S j) x.
Proof. induction j as [|j IH]; [done|]. cbn. by rewrite IH. Qed.

Lemma last_replicate_app j cs' :
  Forall (λ c, c ≠ "..") cs' →
  last (replicate j ".." ++ cs') = Some ".." → cs' = [] ∧ 0 < j.
Proof.
  intros Hcs'. destruct cs' as [|c cs' _] using rev_ind.
  - rewrite app_nil_r. destruct j; [done|]. intros _. split; [done|lia].
  - rewrite app_assoc, last_snoc. intros [= ->].
    by apply Forall_app in Hcs' as [_ [? _]%Forall_cons].
Qed.

Lemma normal_comps_nil k : normal_comps k [].
Proof. split; [constructor|]. exists 0, []. by split_and!. Qed.

Lemma norm_step_normal k cs comp :
  Str.contains OsPath.sep comp = false →
  normal_comps k cs → normal_comps k (OsPath.norm_step k cs comp).
Proof.
  intros Hcomp (Hok & j & cs' & -> & Hcs' & Hk). unfold OsPath.norm_step.
  case_decide as Hdot; [by split; eauto|].
  assert (comp ≠ "" ∧ comp ≠ ".") as [? ?] by (split; intros ->; auto).
  case_decide as Happ.
  - split; [apply Forall_app; split; [done|by repeat constructor]|].
    destruct (decide (comp = "..")) as [->|Hne].
    + destruct Happ as [?|[[-> Hnil]|Hlast]]; [done|..].
      * apply app_eq_nil in Hnil as [Hj ->]. rewrite Hj.
        exists 1, []. split_and!; [done|done|]. intros Hk0. by destruct Hk0.
      * apply last_replicate_app in Hlast as [-> ?]; [|done].
        rewrite app_nil_r, replicate_snoc. exists (S j), [].
        rewrite app_nil_r. split_and!; [done|done|]. intros Hk0.
        specialize (Hk Hk0). lia.
    + exists j, (cs' ++ [comp]). rewrite app_assoc. split_and!; [done| |done].
      apply Forall_app. split; [done|by repeat constructor].
  - assert (comp = "..") as -> by (destruct (decide (comp = "..")); tauto).
    destruct cs' as [|c cs' _] using rev_ind.
    + rewrite app_nil_r in *. destruct j as [|j]; [apply normal_comps_nil|].
      exfalso. apply Happ. right; right.
      by rewrite <-replicate_snoc, last_snoc.
    + rewrite app_assoc, removelast_last.
      rewrite app_assoc in Hok. apply Forall_app in Hok as [Hok _].
      apply Forall_app in Hcs' as [Hcs' _]. split; [done|]. by exists j, cs'.
Qed.

Lemma foldl_norm_step_normal k cs comps :
  Forall (λ c, Str.contains OsPath.sep c = false) comps →
  normal_comps k cs → normal_comps k (foldl (OsPath.norm_step k) cs comps).
Proof.
  revert cs. induction comps as [|c comps IH]; intros cs Hc Hcs; [done|].
  apply Forall_cons in Hc as [? ?]. cbn. apply IH; [done|].
  by apply norm_step_normal.
Qed.

Lemma dotdot_in_prefix j cs' acc cs :
  replicate j ".." ++ cs' = acc ++ ".." :: cs →
  Forall (λ c, c ≠ "..") cs' →
  ∃ i, acc = replicate i ".." ∧ i < j.
Proof.
  revert acc. induction j as [|j IH]; intros acc Heq Hcs'.
  - cbn in Heq. subst cs'. exfalso.
    by apply Forall_app in Hcs' as [_ [? _]%Forall_cons].
  - destruct acc as [|a acc].
    + exists 0. split; [done|lia].
    + cbn in Heq. injection Heq as <- Heq.
      destruct (IH acc Heq Hcs') as (i & -> & ?).
      exists (S i). split; [done|lia].
Qed.

(** A normal component list is left as it is by the loop. *)
Lemma foldl_norm_step_fix k acc cs :
  normal_comps k (acc ++ cs) → foldl (OsPath.norm_step k) acc cs = acc ++ cs.
Proof.
  revert acc. induction cs as [|c cs IH]; intros acc Hn; [by rewrite app_nil_r|].
  cbn. replace (acc ++ c :: cs) with ((acc ++ [c]) ++ cs) in *
    by (by rewrite <-app_assoc).
  assert (OsPath.norm_step k acc c = acc ++ [c]) as ->; [|by apply IH].
  destruct Hn as (Hok & j & cs' & Heq & Hcs' & Hk).
  assert (Str.contains OsPath.sep c = false ∧ c ≠ "" ∧ c ≠ ".") as (_ & ? & ?).
  { apply Forall_app in Hok as [Hok _].
    by apply Forall_app in Hok as [_ [? _]%Forall_cons]. }
  unfold OsPath.norm_step. rewrite decide_False by (by intros [?|?]).
  rewrite decide_True; [done|].
  destruct (decide (c = "..")) as [->|?]; [|by left]. right.
  rewrite <-app_assoc in Heq. cbn in Heq. symmetry in Heq.
  destruct (dotdot_in_prefix j cs' acc cs) as (i & -> & Hi); [done..|].
  assert (k = 0) as -> by (destruct k; [done|]; specialize (Hk ltac:(done)); lia).
  destruct i as [|i]; [by left|]. right.
  by rewrite <-replicate_snoc, last_snoc.
Qed.

Lemma join_slashes k :
  Str.join "" (replicate k "/")
  = match k with 0 => "" | S k' => String OsPath.sep (Str.join "" (replicate k' "/")) end.
Proof.
  destruct k as [|[|k]]; [done|done|].
  change (Str.join "" (replicate (S (S k)) "/"))
    with ("/" +:+ "" +:+ Str.join "" (replicate (S k) "/")).
  done.
Qed.

Lemma initial_slashes_le p : OsPath.initial_slashes p ≤ 2.
Proof. unfold OsPath.initial_slashes. repeat case_match; lia. Qed.

Lemma join_normal_head k cs :
  normal_comps k cs → Str.startswith "/" (Str.join "/" cs) = false.
Proof.
  intros [Hok _]. destruct cs as [|c cs]; [done|].
  apply Forall_cons in Hok as [(Hc & Hne & _) _].
  assert (Str.startswith "/" c = false) as Hhead.
  { destruct c as [|a c]; [done|]. unfold OsPath.sep in Hc. cbn in *.
    repeat case_decide; congruence. }
  destruct cs as [|c' cs]; [done|].
  change (Str.join "/" (c :: c' :: cs)) with (c +:+ "/" +:+ Str.join "/" (c' :: cs)).
  destruct c as [|a c]; [done|]. rewrite string_app_cons. cbn in *.
  by case_decide.
Qed.

(** The string built from [k <= 2] slashes and a normal component list
    has [k] initial slashes and splits back into that list. *)
Lemma normal_form_reads_back k cs :
  k ≤ 2 → normal_comps k cs →
  let r := Str.join "" (replicate k "/") +:+ Str.join "/" cs in
  r ≠ "" →
  OsPath.initial_slashes r = k
  ∧ foldl (OsPath.norm_step k) [] (Str.split OsPath.sep r) = cs.
Proof.
  intros Hk Hn r Hr.
  pose proof (join_normal_head k cs Hn) as Hhead.
  assert (foldl (OsPath.norm_step k) [] (Str.split OsPath.sep (Str.join "/" cs)) = cs)
    as Hfold.
  { destruct (decide (cs = [])) as [->|Hne]; [done|].
    rewrite (split_join OsPath.sep);
      [by apply (foldl_norm_step_fix k [])|done|].
    destruct Hn as [Hok _]. eapply Forall_impl; [exact Hok|]. by intros c [? _]. }
  subst r. destruct k as [|[|[|k]]]; [| | |lia].
  - rewrite string_app_nil_l in *. split; [|done].
    unfold OsPath.initial_slashes. by rewrite Hhead.
  - change (Str.join "" (replicate 1 "/") +:+ Str.join "/" cs)
      with (String OsPath.sep (Str.join "/" cs)) in *.
    split.
    + unfold OsPath.initial_slashes. cbn. unfold OsPath.sep.
      rewrite decide_True by done.
      destruct (Str.join "/" cs) as [|a s] eqn:E; [done|]. clear Hfold. cbn in *.
      repeat case_decide; try done; congruence.
    + cbn. by rewrite decide_True.
  - change (Str.join "" (replicate 2 "/") +:+ Str.join "/" cs)
      with (String OsPath.sep (String OsPath.sep (Str.join "/" cs))) in *.
    split.
    + unfold OsPath.initial_slashes. cbn. unfold OsPath.sep.
      rewrite !decide_True by done.
      destruct (Str.join "/" cs) as [|a s] eqn:E; [done|]. clear Hfold. cbn in *.
      repeat case_decide; try done; congruence.
    + cbn. by rewrite !decide_True.
Qed.

Lemma normpath_normal p :
  ∃ k cs, k ≤ 2 ∧ normal_comps k cs
    ∧ OsPath.normpath p
      = let r := Str.join "" (replicate k "/") +:+ Str.join "/" cs in
        if decide (r = "") then "." else r.
Proof.
  unfold OsPath.normpath. case_decide as Hp.
  - exists 0, []. split_and!; [lia|apply normal_comps_nil|done].
  - eexists (OsPath.initial_slashes p), _.
    split_and!; [apply initial_slashes_le| |done].
    apply foldl_norm_step_normal; [apply split_Forall_no_sep|apply normal_comps_nil].
Qed.

Theorem normpath_idempotent p :
  OsPath.normpath (OsPath.normpath p) = OsPath.normpath p.
Proof.
  destruct (normpath_normal p) as (k & cs & Hk & Hn & ->). cbn zeta.
  case_decide as Hr; [done|].
  destruct (normal_form_reads_back k cs Hk Hn Hr) as [Hk' Hfold].
  unfold OsPath.normpath. rewrite decide_False by done.
  rewrite Hk', Hfold. by rewrite decide_False.
Qed.

Lemma normpath_isabs p :
  OsPath.isabs p = true → OsPath.isabs (OsPath.normpath p) = true.
Proof.
  intros Habs. unfold OsPath.normpath.
  rewrite decide_False by (by intros ->).
  assert (∃ k', OsPath.initial_slashes p = S k') as [k' ->].
  { unfold OsPath.initial_slashes. unfold OsPath.isabs in Habs. rewrite Habs.
    case_match; eauto. }
  rewrite join_slashes. rewrite string_app_cons. by rewrite decide_False.
Qed.

Lemma abspath_isabs cwd p :
  OsPath.isabs cwd = true → OsPath.isabs (OsPath.abspath cwd p) = true.
Proof.
  intros Hcwd. unfold OsPath.abspath. apply normpath_isabs.
  destruct (OsPath.isabs p) eqn:Hp; [done|].
  unfold OsPath.join. rewrite Hp.
  unfold OsPath.isabs in *. apply startswith_spec in Hcwd as [r ->].
  rewrite decide_False by done.
  case_match; apply startswith_spec; eexists; by rewrite !string_app_assoc.
Qed.

(** [abspath] leaves an absolute path it has produced as it is. *)
Theorem abspath_idempotent cwd p :
  OsPath.isabs cwd = true →
  OsPath.abspath cwd (OsPath.abspath cwd p) = OsPath.abspath cwd p.
Proof.
  intros Hcwd. unfold OsPath.abspath at 1.
  rewrite abspath_isabs by done. unfold OsPath.abspath.
  apply normpath_idempotent.
Qed.

End NormFacts.

(* ================================================================== *)
(** * Collision-free names *)

Section UniquePathFacts.
Context (cwd : string).
Implicit Types (fs : FS.t) (s d stem ext : string) (k : nat).

Lemma pretty_N_go_no_sep (x : N) s :
  Str.contains OsPath.sep s = false →
  Str.contains OsPath.sep (pretty_N_go x s) = false.
Proof.
  revert s. induction (N.lt_wf_0 x) as [x _ IH]; intros s Hs.
  assert (x = 0 ∨ 0 < x)%N as [->|?] by lia.
  - by rewrite pretty_N_go_0.
  - rewrite pretty_N_go_step by done. apply IH; [by apply N.div_lt|].
    cbn. rewrite Hs. unfold pretty_N_char. by repeat case_match.
Qed.

Lemma pretty_nat_no_sep k : Str.contains OsPath.sep (pretty k) = false.
Proof.
  unfold pretty, pretty_nat, pretty, pretty_N.
  case_decide; [done|]. by apply pretty_N_go_no_sep.
Qed.

Lemma numbered_name_proper stem ext k :
  Str.contains OsPath.sep stem = false → Str.contains OsPath.sep ext = false →
  proper_name (numbered_name stem ext k).
Proof.
  intros Hstem Hext. unfold numbered_name.
  assert (Str.contains "_" (stem +:+ "_" +:+ pretty k +:+ ext) = true) as Hu.
  { rewrite contains_app. apply orb_true_iff. by right. }
  split_and!.
  - by rewrite !contains_app, Hstem, Hext, pretty_nat_no_sep.
  - by intros Heq; rewrite Heq in Hu.
  - by intros Heq; rewrite Heq in Hu.
  - by intros Heq; rewrite Heq in Hu.
Qed.

Lemma numbered_name_inj stem ext k1 k2 :
  numbered_name stem ext k1 = numbered_name stem ext k2 → k1 = k2.
Proof.
  unfold numbered_name. intros H.
  apply String.app_inj in H. apply (String.app_inj "_") in H.
  apply string_app_inj_r in H. by apply (inj pretty) in H.
Qed.

(** The filesystem key of the candidate numbered [k]. *)
Lemma candidate_key_basename (parent : PathLib.path) stem ext k :
  dir_prefix (PathLib.root parent) →
  Str.contains OsPath.sep stem = false → Str.contains OsPath.sep ext = false →
  OsPath.basename (OsPath.abspath cwd
    (PathLib.str (PathLib.joinpath parent (numbered_name stem ext k))))
  = numbered_name stem ext k.
Proof.
  intros Hroot Hstem Hext.
  pose proof (numbered_name_proper stem ext k Hstem Hext) as Hp.
  destruct (str_joinpath_proper parent _ Hroot Hp) as (d & Hd & ->).
  by apply basename_abspath.
Qed.

(** Among more candidates than the filesystem has entries, one is free. *)
Lemma free_candidate fs (parent : PathLib.path) stem ext :
  dir_prefix (PathLib.root parent) →
  Str.contains OsPath.sep stem = false → Str.contains OsPath.sep ext = false →
  ∃ k, 1 ≤ k < 1 + S (size fs)
    ∧ FS.exists_ cwd fs
        (PathLib.str (PathLib.joinpath parent (numbered_name stem ext k))) = false.
Proof.
  intros Hroot Hstem Hext.
  set (key := λ k, OsPath.abspath cwd
    (PathLib.str (PathLib.joinpath parent (numbered_name stem ext k)))).
  set (ks := seq 1 (S (size fs))).
  destruct (decide (Exists (λ k, fs !! key k = None) ks)) as [Hex|Hall].
  - apply Exists_exists in Hex as (k & Hk & Hfree).
    exists k. apply elem_of_seq in Hk. split; [lia|].
    unfold FS.exists_. fold (key k). rewrite Hfree.
    apply bool_decide_eq_false. by intros [? ?].
  - exfalso. apply not_Exists_Forall in Hall; [|intros k; apply _].
    assert (NoDup (key <$> ks)) as Hnd.
    { apply NoDup_fmap_2_strong; [|apply NoDup_seq].
      intros k1 k2 _ _ Heq. apply (f_equal OsPath.basename) in Heq.
      unfold key in Heq. rewrite !candidate_key_basename in Heq by done.
      by apply numbered_name_inj in Heq. }
    assert (list_to_set (key <$> ks) ⊆ dom fs) as Hsub.
    { intros x Hx. apply elem_of_list_to_set, list_elem_of_fmap in Hx
        as (k & -> & Hk).
      eapply Forall_forall in Hall; [|exact Hk]. cbn in Hall.
      apply elem_of_dom. by destruct (fs !! key k). }
    apply subseteq_size in Hsub.
    rewrite size_list_to_set, length_fmap, size_dom in Hsub by done.
    subst ks. rewrite length_seq in Hsub. lia.
Qed.

(** The loop of [unique_path], given a free candidate within the fuel:
    it returns the path under test when that is free, and otherwise the
    first free candidate from [counter] on. *)
Lemma unique_path_loop_spec fs parent stem ext p counter fuel :
  (FS.exists_ cwd fs (PathLib.str p) = false
   ∨ ∃ k, counter ≤ k < counter + fuel
       ∧ FS.exists_ cwd fs
           (PathLib.str (PathLib.joinpath parent (numbered_name stem ext k)))
         = false) →
  ∃ q, unique_path_loop cwd fs parent stem ext p counter fuel = Some q
    ∧ FS.exists_ cwd fs q = false
    ∧ ((FS.exists_ cwd fs (PathLib.str p) = false ∧ q = PathLib.str p)
       ∨ (FS.exists_ cwd fs (PathLib.str p) = true
          ∧ ∃ k, counter ≤ k
              ∧ q = PathLib.str (PathLib.joinpath parent (numbered_name stem ext k))
              ∧ ∀ j, counter ≤ j < k →
                  FS.exists_ cwd fs
                    (PathLib.str (PathLib.joinpath parent (numbered_name stem ext j)))
                  = true)).
Proof.
  revert p counter. induction fuel as [|fuel IH]; intros p counter Hfree.
  - cbn. destruct (FS.exists_ cwd fs (PathLib.str p)) eqn:E.
    + destruct Hfree as [?|(k & ? & _)]; [done|lia].
    + exists (PathLib.str p). by eauto.
  - cbn. destruct (FS.exists_ cwd fs (PathLib.str p)) eqn:E.
    + fold (numbered_name stem ext counter).
      set (p1 := PathLib.joinpath parent (numbered_name stem ext counter)).
      destruct (IH p1 (S counter)) as (q & Hq & Hqfree & Hcase).
      { destruct (FS.exists_ cwd fs (PathLib.str p1)) eqn:E1; [|by left].
        right. destruct Hfree as [?|(k & Hk & Hkfree)]; [done|].
        exists k. split; [|done].
        destruct (decide (k = counter)) as [->|?]; [|lia].
        subst p1. congruence. }
      exists q. split_and!; [done|done|]. right. split; [done|].
      destruct Hcase as [[E1 ->]|(E1 & k & Hk & -> & Hlt)].
      * exists counter. split_and!; [lia|done|]. intros j ?. lia.
      * exists k. split_and!; [lia|done|]. intros j Hj.
        destruct (decide (j = counter)) as [->|?]; [done|].
        apply Hlt. lia.
    + exists (PathLib.str p). by eauto.
Qed.

(** [unique_path] always returns, and what it returns is the
    collision-free name of the target. *)
Lemma unique_path_spec fs target :
  ∃ q, unique_path cwd fs target = Some q ∧ collision_free cwd fs target q.
Proof.
  unfold unique_path, collision_free.
  set (base := PathLib.Path target).
  destruct (unique_path_loop_spec fs (PathLib.parent base) (PathLib.stem base)
    (PathLib.suffix base) base 1 (S (size fs))) as (q & Hq & Hfree & Hcase).
  { right.
    destruct (stem_suffix_no_sep (PathLib.name base)) as [Hstem Hext];
      [apply name_Path_no_sep|].
    apply free_candidate; try done. apply root_Path_dir_prefix. }
  exists q. by split_and!.
Qed.

Lemma exists_false fs p :
  FS.exists_ cwd fs p = false ↔ fs !! OsPath.abspath cwd p = None.
Proof.
  unfold FS.exists_. rewrite bool_decide_eq_false, <-eq_None_not_Some. done.
Qed.

Lemma write_file_fresh fs p data :
  FS.exists_ cwd fs p = false →
  FS.write_file cwd fs p data
  = Some (<[OsPath.abspath cwd p := FS.File data]> fs).
Proof. intros E%exists_false. unfold FS.write_file. by rewrite E. Qed.

Lemma insert_fresh_preserves fs key (x : FS.node) p :
  fs !! key = None → is_Some (fs !! p) → <[key := x]> fs !! p = fs !! p.
Proof.
  intros Hkey [y Hp]. rewrite lookup_insert_ne; [done|]. congruence.
Qed.

End UniquePathFacts.

(* ================================================================== *)
(** * Ingestion *)

Section IngestFacts.
Context (cwd : string).
Implicit Types (fs : FS.t) (n s : string).

#[local] Arguments unique_path : simpl never.
#[local] Arguments OsPath.join : simpl never.
#[local] Arguments OsPath.basename : simpl never.
#[local] Arguments OsPath.abspath : simpl never.
#[local] Arguments FS.write_file : simpl never.

Lemma lower_length s : String.length (Str.lower s) = String.length s.
Proof. induction s; cbn; by f_equal. Qed.

Lemma any_audio_ext_length s :
  any_audio_ext s = true → 4 ≤ String.length s.
Proof.
  unfold any_audio_ext, ALLOWED_AUDIO_EXTS. cbn [existsb].
  rewrite !orb_true_iff.
  intros H; repeat destruct H as [H|H]; try done;
    apply endswith_spec in H as [r ->]; rewrite string_length_app; cbn; lia.
Qed.

(** A base name with an audio extension is a proper file name. *)
Lemma audio_basename_proper p :
  any_audio_ext (Str.lower (OsPath.basename p)) = true →
  proper_name (OsPath.basename p).
Proof.
  intros H%any_audio_ext_length. rewrite lower_length in H.
  split_and!; [apply basename_no_sep|..]; intros Heq; rewrite Heq in H;
    cbn in H; lia.
Qed.

Lemma join_uploads n :
  proper_name n → OsPath.join UPLOAD_DIR n = "uploads/" +:+ n.
Proof.
  intros Hn. unfold OsPath.join. by rewrite not_isabs_proper.
Qed.

Lemma Path_uploads n :
  proper_name n →
  PathLib.Path ("uploads/" +:+ n) = PathLib.Path_ "" ["uploads"; n].
Proof.
  intros (Hc & ? & ? & _). unfold PathLib.Path. f_equal.
  change ("uploads/" +:+ n) with ("uploads" +:+ String OsPath.sep n).
  rewrite split_app_sep, (split_no_sep _ n), (split_no_sep _ "uploads") by done.
  cbn [app]. rewrite filter_cons_True by done.
  by rewrite filter_cons_True, filter_nil.
Qed.

Lemma str_uploads n :
  PathLib.str (PathLib.Path_ "" ["uploads"; n]) = "uploads/" +:+ n.
Proof. done. Qed.

Lemma joinpath_uploads n :
  proper_name n →
  PathLib.str (PathLib.joinpath (PathLib.Path_ "" ["uploads"]) n)
  = "uploads/" +:+ n.
Proof.
  intros Hn. unfold PathLib.joinpath.
  by rewrite not_isabs_proper, parts_Path_proper.
Qed.

(** The collision-free name of [uploads/n], spelled out. *)
Lemma collision_free_uploads fs n dest :
  proper_name n →
  collision_free cwd fs ("uploads/" +:+ n) dest →
  let numbered := λ k,
    "uploads/" +:+ numbered_name (PathLib.stem_of_name n) (PathLib.suffix_of_name n) k in
  FS.exists_ cwd fs dest = false
  ∧ ((FS.exists_ cwd fs ("uploads/" +:+ n) = false ∧ dest = "uploads/" +:+ n)
     ∨ (FS.exists_ cwd fs ("uploads/" +:+ n) = true
        ∧ ∃ k, 1 ≤ k ∧ dest = numbered k
            ∧ ∀ j, 1 ≤ j < k → FS.exists_ cwd fs (numbered j) = true)).
Proof.
  intros Hn. unfold collision_free. rewrite Path_uploads by done.
  rewrite str_uploads. unfold PathLib.stem, PathLib.suffix, PathLib.parent.
  cbn [PathLib.name PathLib.parts PathLib.root last removelast default].
  destruct (stem_suffix_no_sep n) as [Hstem Hext]; [apply Hn|].
  assert (∀ k, PathLib.str (PathLib.joinpath (PathLib.Path_ "" ["uploads"])
      (numbered_name (PathLib.stem_of_name n) (PathLib.suffix_of_name n) k))
    = "uploads/" +:+ numbered_name (PathLib.stem_of_name n)
                       (PathLib.suffix_of_name n) k) as Hcand.
  { intros k. apply joinpath_uploads. by apply numbered_name_proper. }
  intros [Hfree Hcase]. split; [done|].
  destruct Hcase as [?|(Hex & k & Hk & -> & Hlt)]; [by left|right].
  split; [done|]. exists k. rewrite Hcand. split_and!; [done|done|].
  intros j Hj. rewrite <-Hcand. by apply Hlt.
Qed.


(** [save_uploaded_file] returns for every upload, whatever its name: the
    path it writes did not exist before. *)
Lemma save_uploaded_file_total fs up dest_dir :
  ∃ dest,
    save_uploaded_file cwd fs up dest_dir
    = Some (<[OsPath.abspath cwd dest := FS.File (up_buffer up)]> fs, dest)
    ∧ fs !! OsPath.abspath cwd dest = None.
Proof.
  unfold save_uploaded_file.
  destruct (unique_path_spec cwd fs
    (OsPath.join dest_dir (OsPath.basename (up_name up)))) as (dest & -> & Hfree & _).
  exists dest. cbn. rewrite write_file_fresh by done.
  split; [done|]. by apply exists_false.
Qed.

(** The test on an archive member: directory entries, entries below
    [__MACOSX/] and entries whose base name has no audio extension are
    not selected; the test on an empty base name changes nothing. *)
Lemma member_selected_spec m :
  member_selected m
  = negb (Str.endswith "/" m) && negb (Str.startswith "__MACOSX/" m)
    && any_audio_ext (Str.lower (OsPath.basename m)).
Proof.
  unfold member_selected. rewrite negb_orb.
  destruct (any_audio_ext (Str.lower (OsPath.basename m))) eqn:E.
  - apply audio_basename_proper in E as (_ & Hne & _).
    rewrite bool_decide_eq_false_2 by done. cbn. by rewrite !andb_true_r.
  - by rewrite !andb_false_r.
Qed.

Lemma extract_step_skip z dest_dir st m :
  member_selected m = false ∨ z_read z m = None →
  extract_step cwd z dest_dir st m = st.
Proof.
  unfold extract_step, extract_member.
  intros [->|Hr]; [done|]. rewrite Hr. by destruct (member_selected m).
Qed.

Lemma extract_step_save z st m data :
  member_selected m = true → z_read z m = Some data →
  ∃ dest,
    collision_free cwd st.1 (OsPath.join UPLOAD_DIR (OsPath.basename m)) dest
    ∧ extract_step cwd z UPLOAD_DIR st m
      = (<[OsPath.abspath cwd dest := FS.File data]> st.1, st.2 ++ [dest]).
Proof.
  intros Hsel Hr. unfold extract_step, extract_member. rewrite Hsel, Hr. cbn.
  destruct (unique_path_spec cwd st.1
    (OsPath.join UPLOAD_DIR (OsPath.basename m))) as (dest & -> & Hcf).
  exists dest. split; [done|]. cbn.
  rewrite write_file_fresh by apply Hcf. done.
Qed.

(** The loop over the members, from any state: it prefixes what it saves
    with what was saved before, and follows [extracted]. *)
Lemma extract_loop_spec z ms fs acc :
  ∃ fs' saved,
    foldl (extract_step cwd z UPLOAD_DIR) (fs, acc) ms = (fs', acc ++ saved)
    ∧ extracted cwd z ms fs saved fs'.
Proof.
  revert fs acc. induction ms as [|m ms IH]; intros fs acc.
  - exists fs, []. rewrite app_nil_r. split; [done|constructor].
  - cbn [foldl].
    destruct (member_selected m) eqn:Hsel;
      [destruct (z_read z m) as [data|] eqn:Hr|].
    + destruct (extract_step_save z (fs, acc) m data Hsel Hr)
        as (dest & Hcf & ->). cbn [fst snd] in *.
      destruct (IH (<[OsPath.abspath cwd dest := FS.File data]> fs) (acc ++ [dest]))
        as (fs' & saved & -> & Hex).
      exists fs', (dest :: saved). rewrite <-app_assoc. split; [done|].
      by eapply extracted_save.
    + rewrite extract_step_skip by auto.
      destruct (IH fs acc) as (fs' & saved & -> & Hex).
      exists fs', saved. split; [done|]. by apply extracted_fail.
    + rewrite extract_step_skip by auto.
      destruct (IH fs acc) as (fs' & saved & -> & Hex).
      exists fs', saved. split; [done|]. by apply extracted_skip.
Qed.

(** What [extracted] guarantees: one saved path per selected readable
    member, no entry that existed is changed, the saved paths are new
    and pairwise distinct, and each holds the bytes of its member at the
    end. *)
Lemma extracted_safe z ms fs saved fs' :
  extracted cwd z ms fs saved fs' →
  length saved
    = length (filter (λ m, member_selected m = true ∧ is_Some (z_read z m)) ms)
  ∧ (∀ p, is_Some (fs !! p) → fs' !! p = fs !! p)
  ∧ Forall (λ dest, fs !! OsPath.abspath cwd dest = None
                    ∧ ∃ data, fs' !! OsPath.abspath cwd dest = Some (FS.File data))
      saved
  ∧ NoDup (OsPath.abspath cwd <$> saved).
Proof.
  induction 1 as [fs|m ms fs saved fs' Hsel _ IH|m ms fs saved fs' Hsel Hr _ IH
                 |m ms fs data dest saved fs' Hsel Hr Hcf _ IH].
  - split_and!; [done|done|constructor|constructor].
  - rewrite filter_cons_False by (rewrite Hsel; by intros [? _]). done.
  - rewrite filter_cons_False by (rewrite Hr; by intros [_ [? ?]]). done.
  - destruct IH as (Hlen & Hkeep & Hnew & Hnd).
    destruct Hcf as [Hfree%exists_false _].
    rewrite filter_cons_True by (rewrite Hr; eauto).
    split_and!.
    + cbn. by rewrite Hlen.
    + intros p Hp. rewrite Hkeep.
      * by apply insert_fresh_preserves.
      * rewrite lookup_insert_ne; [done|]. destruct Hp. congruence.
    + constructor.
      * split; [done|]. exists data. rewrite Hkeep; by rewrite lookup_insert_eq.
      * eapply Forall_impl; [exact Hnew|]. cbn. intros d [Hd1 Hd2].
        split; [|done].
        destruct (decide (OsPath.abspath cwd dest = OsPath.abspath cwd d)) as [Heq|Hne].
        -- rewrite Heq, lookup_insert_eq in Hd1. done.
        -- by rewrite lookup_insert_ne in Hd1.
    + rewrite fmap_cons. constructor; [|done].
      intros Hin. apply list_elem_of_fmap in Hin as (d & Heq & Hd).
      eapply Forall_forall in Hnew; [|exact Hd]. destruct Hnew as [Hd1 _].
      by rewrite <-Heq, lookup_insert_eq in Hd1.
Qed.

(** C7. Extraction from an archive passes over the directory entries,
    the entries below [__MACOSX/] and the entries whose base name has no
    audio extension; every other entry is written under its collision-free
    name; an entry whose bytes cannot be read is passed over and the loop
    goes on with the entries after it; no entry that existed is
    overwritten. *)
Theorem extract_audio_from_zip_spec z fs :
  ∃ fs' saved,
    extract_audio_from_zip cwd z fs UPLOAD_DIR = (fs', saved)
    ∧ extracted cwd z (namelist z) fs saved fs'
    ∧ (∀ m, member_selected m
            = negb (Str.endswith "/" m) && negb (Str.startswith "__MACOSX/" m)
              && any_audio_ext (Str.lower (OsPath.basename m)))
    ∧ length saved
      = length (filter (λ m, member_selected m = true ∧ is_Some (z_read z m))
                  (namelist z))
    ∧ (∀ p, is_Some (fs !! p) → fs' !! p = fs !! p)
    ∧ Forall (λ dest, fs !! OsPath.abspath cwd dest = None
                      ∧ ∃ data, fs' !! OsPath.abspath cwd dest = Some (FS.File data))
        saved
    ∧ NoDup (OsPath.abspath cwd <$> saved).
Proof.
  unfold extract_audio_from_zip.
  destruct (extract_loop_spec z (namelist z) fs []) as (fs' & saved & -> & Hex).
  exists fs', saved. cbn [app].
  destruct (extracted_safe _ _ _ _ _ Hex) as (? & ? & ? & ?).
  split_and!; try done. apply member_selected_spec.
Qed.

(** A member that cannot be read does not change what the loop does with
    the members around it. *)
Lemma extract_isolates_failure z ms1 m ms2 st :
  z_read z m = None →
  foldl (extract_step cwd z UPLOAD_DIR) st (ms1 ++ m :: ms2)
  = foldl (extract_step cwd z UPLOAD_DIR) st (ms1 ++ ms2).
Proof.
  intros Hr. rewrite !foldl_app. cbn [foldl].
  by rewrite extract_step_skip by auto.
Qed.

End IngestFacts.

(* ================================================================== *)
(** * The temporary query file *)

Section QueryFileFacts.
Context (cwd : string)
        (decode : list Byte.byte → option (list R * N))
        (mfcc : list R → N → ∀ n_mfcc : nat, option (mfcc_matrix n_mfcc)).

#[local] Arguments OsPath.abspath : simpl never.
#[local] Arguments save_uploaded_file : simpl never.

Lemma try_remove_written (fs : FS.t) p data :
  fs !! OsPath.abspath cwd p = None →
  FS.try_remove cwd (<[OsPath.abspath cwd p := FS.File data]> fs) p = fs.
Proof.
  intros Hnone. unfold FS.try_remove, FS.remove.
  rewrite lookup_insert_eq. cbn. by rewrite delete_insert_id.
Qed.

(** What the branch reports: no candidates, no valid comparisons, or the
    ranking of the candidates against the query file. *)
Lemma find_match_report up mode top_k threshold db (fs fs1 : FS.t) query_path :
  save_uploaded_file cwd fs up UPLOAD_DIR = Some (fs1, query_path) →
  let candidates := candidates_of cwd mode db fs1 in
  let results := results_of cwd decode mfcc fs1 query_path candidates in
  find_match cwd decode mfcc (Some up) mode top_k threshold db fs
  = Some (FS.try_remove cwd fs1 query_path,
          if decide (candidates = []) then NoCandidates
          else if decide (results = []) then NoValidComparisons
          else Shown (rank cwd decode mfcc fs1 query_path candidates
                        threshold top_k)).
Proof.
  intros Hsave candidates results. unfold find_match. rewrite Hsave. cbn.
  do 2 f_equal. fold candidates.
  destruct candidates as [|c candidates]; [done|].
  rewrite decide_False by done. fold results. unfold rank. fold results.
  destruct (sort_by_dist results) as [|r sorted] eqn:E.
  - rewrite decide_True; [done|].
    apply Permutation_nil_r. by rewrite <-E, sort_by_dist_perm.
  - rewrite decide_False; [done|]. intros Hnil.
    by rewrite Hnil in E.
Qed.


(** Without a query file the branch writes nothing. *)
Lemma find_match_no_query mode top_k threshold db (fs : FS.t) :
  find_match cwd decode mfcc None mode top_k threshold db fs
  = Some (fs, NoQueryFile).
Proof. done. Qed.

End QueryFileFacts.

(* ================================================================== *)
(** * The scan of the uploads folder and the candidate set *)

Section CandidateFacts.
Context (cwd : string).
Implicit Types (fs : FS.t) (d : list (string * string)) (k v f : string).

Lemma elem_of_scan fs f :
  f ∈ scan_uploads_for_audio cwd fs
  ↔ ∃ ext g, ext ∈ ALLOWED_AUDIO_EXTS
        ∧ g ∈ FS.glob_rec cwd fs UPLOAD_DIR ext
        ∧ f = OsPath.abspath cwd g.
Proof.
  unfold scan_uploads_for_audio.
  rewrite merge_sort_Permutation, elem_of_remove_dups, list_elem_of_fmap.
  split.
  - intros (g & -> & (ext & Hg & Hext)%list_elem_of_bind). by exists ext, g.
  - intros (ext & g & Hext & Hg & ->). exists g. split; [done|].
    apply list_elem_of_bind. by exists ext.
Qed.

Lemma NoDup_scan fs : NoDup (scan_uploads_for_audio cwd fs).
Proof.
  unfold scan_uploads_for_audio.
  rewrite merge_sort_Permutation. apply NoDup_remove_dups.
Qed.

Lemma scan_abspath fs f :
  OsPath.isabs cwd = true →
  f ∈ scan_uploads_for_audio cwd fs → OsPath.abspath cwd f = f.
Proof.
  intros Hcwd (ext & g & _ & _ & ->)%elem_of_scan.
  by apply abspath_idempotent.
Qed.

Lemma dict_get_set d k v k' :
  dict_get (dict_set d k v) k'
  = if decide (k = k') then Some v else dict_get d k'.
Proof.
  induction d as [|[k0 v0] d IH]; cbn.
  - by repeat case_decide.
  - repeat (case_decide; cbn); try congruence.
Qed.

Lemma dict_set_keys d k v :
  NoDup d.*1 → NoDup (dict_set d k v).*1
  ∧ ∀ k', k' ∈ (dict_set d k v).*1 ↔ k' = k ∨ k' ∈ d.*1.
Proof.
  induction d as [|[k0 v0] d IH]; cbn.
  - intros _. split; [apply NoDup_singleton|]. intros k'.
    rewrite list_elem_of_singleton, elem_of_nil. tauto.
  - intros [Hk0 Hnd]%NoDup_cons. destruct (IH Hnd) as [IH1 IH2].
    case_decide as Hk; cbn.
    + subst k0. split; [by apply NoDup_cons|]. intros k'.
      rewrite !elem_of_cons. tauto.
    + split; [|intros k'; rewrite !elem_of_cons, IH2; tauto].
      apply NoDup_cons. split; [|done].
      rewrite IH2. intros [?|?]; congruence.
Qed.

Lemma dict_get_elem_of d k v :
  NoDup d.*1 → (k, v) ∈ d ↔ dict_get d k = Some v.
Proof.
  induction d as [|[k0 v0] d IH]; cbn.
  - intros _. split; [by intros ?%elem_of_nil|done].
  - intros [Hk0 Hnd]%NoDup_cons. rewrite elem_of_cons, (IH Hnd).
    case_decide as Hk.
    + subst k0. split; [intros [[= ->]|Hget]; [done|]|by intros [= ->]; left].
      exfalso. apply Hk0. apply (IH Hnd) in Hget.
      apply list_elem_of_fmap. by exists (k, v).
    + split; [intros [[= ? ?]|?]; [congruence|done]|by right].
Qed.

(** The dictionary built by the comprehension, from any dictionary. *)
Lemma foldl_dict_set_NoDup rows d :
  NoDup d.*1 →
  NoDup (foldl (λ d np, dict_set d (OsPath.abspath cwd np.2) np.1) d rows).*1.
Proof.
  revert d. induction rows as [|[n p] rows IH]; intros d Hd; [done|].
  cbn. apply IH. by apply dict_set_keys.
Qed.

(** Last write wins: after the rows [rows1], then the row [(n, p)], then
    the rows [rows2], none of which has the key of [p], the key of [p] is
    bound to [n]. *)
Lemma foldl_dict_set_last rows1 n p rows2 d :
  Forall (λ np, OsPath.abspath cwd np.2 ≠ OsPath.abspath cwd p) rows2 →
  dict_get
    (foldl (λ d np, dict_set d (OsPath.abspath cwd np.2) np.1) d
       (rows1 ++ (n, p) :: rows2))
    (OsPath.abspath cwd p)
  = Some n.
Proof.
  intros Hrows2. rewrite foldl_app. cbn [foldl fst snd].
  generalize (foldl (λ d np, dict_set d (OsPath.abspath cwd np.2) np.1) d rows1).
  intros d1.
  assert (dict_get (dict_set d1 (OsPath.abspath cwd p) n) (OsPath.abspath cwd p)
          = Some n) as Hget by (by rewrite dict_get_set, decide_True).
  revert Hget. generalize (dict_set d1 (OsPath.abspath cwd p) n). clear d1.
  induction rows2 as [|[n' p'] rows2 IH]; intros d2 Hget; [done|].
  apply Forall_cons in Hrows2 as [Hne Hrows2]. cbn in *.
  apply IH; [done|]. by rewrite dict_get_set, decide_False.
Qed.

(** C10. In mode "Both" (with [os.getcwd()] absolute, as it always is),
    when a catalog row and a scanned file have the same absolute path,
    the candidate kept for that path carries the name derived from the
    file ([Path(f).stem]) and no other. *)
Theorem both_mode_folder_name_wins db fs name p f :
  OsPath.isabs cwd = true →
  (name, p) ∈ DB.get_all_db_rows db →
  f ∈ scan_uploads_for_audio cwd fs →
  OsPath.abspath cwd p = f →
  (path_stem f, f) ∈ candidates_of cwd Both db fs
  ∧ ∀ name', (name', f) ∈ candidates_of cwd Both db fs → name' = path_stem f.
Proof.
  intros Hcwd Hrow Hf Hp. unfold candidates_of, combined_of.
  set (files := scan_uploads_for_audio cwd fs) in *.
  set (rows := DB.get_all_db_rows db ++ ((λ f, (path_stem f, f)) <$> files)).
  set (combined := foldl (λ d np, dict_set d (OsPath.abspath cwd np.2) np.1) [] rows).
  assert (NoDup combined.*1) as Hnd by (apply foldl_dict_set_NoDup; constructor).
  assert (dict_get combined f = Some (path_stem f)) as Hget.
  { apply list_elem_of_split in Hf as (l1 & l2 & Hfiles).
    pose proof (NoDup_scan fs) as Hndf. fold files in Hndf.
    assert (∀ g, g ∈ files → OsPath.abspath cwd g = g) as Habs
      by (intros g; by apply scan_abspath).
    assert (f ∈ files) as Hf by (rewrite Hfiles, elem_of_app, elem_of_cons; auto).
    cut (dict_get combined (OsPath.abspath cwd f) = Some (path_stem f));
      [by rewrite (Habs f Hf)|].
    subst combined rows. rewrite Hfiles, fmap_app, fmap_cons, app_assoc.
    apply foldl_dict_set_last. apply Forall_fmap, Forall_forall.
    intros g Hg. cbn.
    assert (g ∈ files) as Hg'
      by (rewrite Hfiles, elem_of_app, elem_of_cons; auto).
    rewrite (Habs f Hf), (Habs g Hg').
    rewrite Hfiles in Hndf. apply NoDup_app in Hndf as (_ & _ & Hndf).
    apply NoDup_cons in Hndf as [Hnotin _]. by intros ->. }
  assert (∀ n, (n, f) ∈ ((λ pn : string * string, (pn.2, pn.1)) <$> combined)
               ↔ dict_get combined f = Some n) as Hiff.
  { intros n. rewrite <-dict_get_elem_of by done. rewrite list_elem_of_fmap.
    split.
    - intros ([k v] & [= -> ->] & Hin). done.
    - intros Hin. by exists (f, n). }
  split; [by apply Hiff|].
  intros n Hn%Hiff. congruence.
Qed.

End CandidateFacts.

(* ================================================================== *)
(** * Reconciling the catalog with the uploads folder *)

Section SyncFacts.
Context (cwd : string).
Implicit Types (fs : FS.t) (db : DB.t) (f : string).

Lemma sync_step_spec db count f :
  unique_filenames db →
  let st := sync_step (db, count) f in
  unique_filenames st.1
  ∧ rows_of_path st.1 f = 1
  ∧ (∀ g, rows_of_path db g = 1 → rows_of_path st.1 g = 1)
  ∧ DB.rows db `prefix_of` DB.rows st.1
  ∧ (DB.file_registered_in_db db f = false →
       DB.rows st.1 = DB.rows db ++ [DB.Row (DB.last_id db + 1) (path_stem f) f]
       ∧ st.2 = S count)
  ∧ (DB.file_registered_in_db db f = true → st = (db, count)).
Proof.
  intros Hu. unfold sync_step. cbn [fst snd].
  destruct (DB.file_registered_in_db db f) eqn:E; cbn [fst snd].
  - split_and!; try done.
    apply rows_of_path_1; [done|]. by apply file_registered_iff.
  - split_and!; try done.
    + by apply save_voice_unique.
    + apply rows_of_path_1; [by apply save_voice_unique|].
      apply file_registered_iff, save_voice_registered.
    + intros g Hg. destruct (decide (f = g)) as [<-|Hne].
      * apply file_registered_false, rows_of_path_0 in E. congruence.
      * by rewrite save_voice_other.
    + apply save_voice_rows_prefix.
    + intros _. unfold DB.save_voice. by rewrite E.
Qed.

(** The loop of [sync_uploads_to_db] over any list of files. *)
Lemma sync_loop_spec files db count :
  unique_filenames db →
  let st := foldl sync_step (db, count) files in
  unique_filenames st.1
  ∧ (∀ f, f ∈ files → rows_of_path st.1 f = 1)
  ∧ (∀ g, rows_of_path db g = 1 → rows_of_path st.1 g = 1)
  ∧ DB.rows db `prefix_of` DB.rows st.1
  ∧ length (DB.rows st.1) + count = length (DB.rows db) + st.2.
Proof.
  revert db count. induction files as [|f files IH]; intros db count Hu.
  - cbn. split_and!; try done. by intros f ?%elem_of_nil.
  - cbn [foldl].
    destruct (sync_step_spec db count f Hu) as (Hu1 & Hf & Hkeep & Hpre & Hnew & Hold).
    destruct (sync_step (db, count) f) as [db1 count1] eqn:Est. cbn [fst snd] in *.
    destruct (IH db1 count1 Hu1) as (Hu2 & Hall & Hkeep2 & Hpre2 & Hlen).
    split_and!; try done.
    + intros g [->|Hg]%elem_of_cons; [by apply Hkeep2|by apply Hall].
    + intros g Hg. by apply Hkeep2, Hkeep.
    + by etrans.
    + destruct (DB.file_registered_in_db db f) eqn:E.
      * specialize (Hold eq_refl). injection Hold as -> ->. done.
      * destruct (Hnew eq_refl) as [Hrows ->].
        rewrite Hrows, length_app in Hlen. cbn in Hlen. lia.
Qed.

(** A file of the list that was not registered before has, after the
    loop, a row that carries its stem as the name. *)
Lemma sync_loop_names files db count f :
  f ∈ files →
  f ∈ DB.filename <$> DB.rows db
  ∨ ∃ id, DB.Row id (path_stem f) f ∈ DB.rows (foldl sync_step (db, count) files).1.
Proof.
  revert db count. induction files as [|f0 files IH]; intros db count Hf;
    [by apply elem_of_nil in Hf|].
  cbn [foldl]. unfold sync_step at 2. cbn [fst snd].
  destruct (DB.file_registered_in_db db f0) eqn:E.
  - apply elem_of_cons in Hf as [->|Hf]; [|by apply IH].
    left. by apply file_registered_iff.
  - set (db1 := DB.save_voice db (path_stem f0) f0).
    assert (DB.rows db1 = DB.rows db ++ [DB.Row (DB.last_id db + 1) (path_stem f0) f0])
      as Hrows by (subst db1; unfold DB.save_voice; by rewrite E).
    assert (∀ files' n, DB.rows db1
              `prefix_of` DB.rows (foldl sync_step (db1, n) files').1) as Hpre.
    { intros files' n. revert n. generalize db1.
      induction files' as [|g files' IH']; intros d n; [done|]. cbn [foldl].
      destruct (sync_step (d, n) g) as [d' n'] eqn:Est.
      trans (DB.rows d'); [|apply IH'].
      unfold sync_step in Est. cbn [fst snd] in Est.
      destruct (DB.file_registered_in_db d g); injection Est as <- <-; [done|].
      apply save_voice_rows_prefix. }
    assert (∃ id, DB.Row id (path_stem f0) f0
                    ∈ DB.rows (foldl sync_step (db1, S count) files).1) as Hf0.
    { exists (DB.last_id db + 1)%Z.
      destruct (Hpre files (S count)) as [k ->]. rewrite Hrows, !elem_of_app.
      left; right. apply list_elem_of_here. }
    apply elem_of_cons in Hf as [->|Hf]; [by right|].
    destruct (IH db1 (S count) Hf) as [Hin|?]; [|by right].
    rewrite Hrows, fmap_app in Hin. apply elem_of_app in Hin as [?|Hin]; [by left|].
    apply list_elem_of_singleton in Hin. cbn in Hin. subst f. by right.
Qed.

(** X1. What [sync_uploads_to_db] does for the files the scan returns: each
    has exactly one row afterwards, named after its stem when the row is
    new; rows are only added; the count returned is the number of rows
    added; and a second run adds none. *)
Lemma sync_uploads_to_db_spec fs db :
  unique_filenames db →
  let st := sync_uploads_to_db cwd fs db in
  unique_filenames st.1
  ∧ (∀ f, f ∈ scan_uploads_for_audio cwd fs → rows_of_path st.1 f = 1)
  ∧ (∀ f, f ∈ scan_uploads_for_audio cwd fs →
       DB.file_registered_in_db db f = false →
       ∃ id, DB.Row id (path_stem f) f ∈ DB.rows st.1)
  ∧ DB.rows db `prefix_of` DB.rows st.1
  ∧ length (DB.rows st.1) = length (DB.rows db) + st.2
  ∧ sync_uploads_to_db cwd fs st.1 = (st.1, 0).
Proof.
  intros Hu. unfold sync_uploads_to_db.
  destruct (sync_loop_spec (scan_uploads_for_audio cwd fs) db 0 Hu)
    as (Hu1 & Hall & _ & Hpre & Hlen).
  cbn zeta. split_and!; try done; [|lia|].
  { intros f Hf Hreg.
    destruct (sync_loop_names (scan_uploads_for_audio cwd fs) db 0 f Hf)
      as [Hin|?]; [|done].
    apply file_registered_false in Hreg. done. }
  generalize dependent (foldl sync_step (db, 0) (scan_uploads_for_audio cwd fs)).
  intros [db1 count1] Hu1 Hall _ _. cbn [fst snd] in *.
  assert (∀ files n, (∀ f, f ∈ files → rows_of_path db1 f = 1) →
            foldl sync_step (db1, n) files = (db1, n)) as Hfix.
  { induction files as [|f files IH]; intros n Hfiles; [done|]. cbn [foldl].
    unfold sync_step at 2. cbn [fst snd].
    assert (DB.file_registered_in_db db1 f = true) as ->.
    { destruct (DB.file_registered_in_db db1 f) eqn:E; [done|].
      apply file_registered_false, rows_of_path_0 in E.
      rewrite Hfiles in E by (by left). done. }
    apply IH. intros g Hg. apply Hfiles. by right. }
  by apply Hfix.
Qed.

End SyncFacts.

(** C3 (the code differs). A file [SONG.WAV] in [uploads/] is a regular
    file whose extension is supported when compared case-insensitively, as
    the registration loop of "Add Data" and the archive extraction compare
    it; but the scan matches [*.wav] case-sensitively, does not return the
    file, and [sync_uploads_to_db] leaves it without a catalog row. The
    same holds for a hidden file [.take.wav]. *)
Theorem sync_misses_upper_case_extension :
  let path := "/app/uploads/SONG.WAV" in
  FS.isfile Fixture.cwd Fixture.fs_upper path = true
  ∧ any_audio_ext (Str.lower (OsPath.basename path)) = true
  ∧ member_selected "SONG.WAV" = true
  ∧ register_saved Fixture.cwd Fixture.fs_upper DB.init_db ["uploads/SONG.WAV"]
    = (DB.Make [DB.Row 1 "SONG" path] 1, 1)
  ∧ scan_uploads_for_audio Fixture.cwd Fixture.fs_upper = []
  ∧ sync_uploads_to_db Fixture.cwd Fixture.fs_upper DB.init_db = (DB.init_db, 0)
  ∧ rows_of_path (sync_uploads_to_db Fixture.cwd Fixture.fs_upper DB.init_db).1 path = 0
  ∧ any_audio_ext (Str.lower (OsPath.basename "/app/uploads/.take.wav")) = true
  ∧ sync_uploads_to_db Fixture.cwd Fixture.fs_hidden DB.init_db = (DB.init_db, 0).
Proof. cbv zeta. split_and!; by vm_compute. Qed.

(* ================================================================== *)
(** * The theorems at sample inputs *)



(** [compare_voice_sym_refl] for the two files of the sample folder. *)
Lemma compare_voice_sym_refl_witness :
  is_Some (load_mfcc_mean Fixture.cwd Fixture.decode Fixture.mfcc
             Fixture.fs_two "uploads/alice.wav" 20)
  ∧ is_Some (load_mfcc_mean Fixture.cwd Fixture.decode Fixture.mfcc
               Fixture.fs_two "/app/uploads/bob.mp3" 20)
  ∧ compare_voice Fixture.cwd Fixture.decode Fixture.mfcc Fixture.fs_two
      "uploads/alice.wav" "/app/uploads/bob.mp3"
    = compare_voice Fixture.cwd Fixture.decode Fixture.mfcc Fixture.fs_two
        "/app/uploads/bob.mp3" "uploads/alice.wav"
  ∧ compare_voice Fixture.cwd Fixture.decode Fixture.mfcc Fixture.fs_two
      "uploads/alice.wav" "uploads/alice.wav" = Some 0%R.
Proof.
  assert (is_Some (load_mfcc_mean Fixture.cwd Fixture.decode Fixture.mfcc
                     Fixture.fs_two "uploads/alice.wav" 20)) as HA.
  { eexists. reflexivity. }
  assert (is_Some (load_mfcc_mean Fixture.cwd Fixture.decode Fixture.mfcc
                     Fixture.fs_two "/app/uploads/bob.mp3" 20)) as HB.
  { eexists. reflexivity. }
  split; [exact HA|]. split; [exact HB|].
  exact (compare_voice_sym_refl Fixture.cwd Fixture.decode Fixture.mfcc
           Fixture.fs_two "uploads/alice.wav" "/app/uploads/bob.mp3" HA HB).
Defined.

(** [both_mode_folder_name_wins] for [alice.wav], registered in the catalog
    under the name "Alice Smith". *)
Lemma both_mode_folder_name_wins_witness :
  OsPath.isabs Fixture.cwd = true
  ∧ ("Alice Smith", "/app/uploads/alice.wav") ∈ DB.get_all_db_rows Fixture.db_alice
  ∧ "/app/uploads/alice.wav" ∈ scan_uploads_for_audio Fixture.cwd Fixture.fs_two
  ∧ OsPath.abspath Fixture.cwd "/app/uploads/alice.wav" = "/app/uploads/alice.wav"
  ∧ ("alice", "/app/uploads/alice.wav")
      ∈ candidates_of Fixture.cwd Both Fixture.db_alice Fixture.fs_two
  ∧ ("Alice Smith", "/app/uploads/alice.wav")
      ∉ candidates_of Fixture.cwd Both Fixture.db_alice Fixture.fs_two.
Proof.
  assert (("Alice Smith", "/app/uploads/alice.wav")
            ∈ DB.get_all_db_rows Fixture.db_alice) as Hrow.
  { vm_compute. apply list_elem_of_here. }
  assert ("/app/uploads/alice.wav"
            ∈ scan_uploads_for_audio Fixture.cwd Fixture.fs_two) as Hscan.
  { vm_compute. apply list_elem_of_here. }
  destruct (both_mode_folder_name_wins Fixture.cwd Fixture.db_alice Fixture.fs_two
              "Alice Smith" "/app/uploads/alice.wav" "/app/uploads/alice.wav"
              eq_refl Hrow Hscan eq_refl) as [Hin Honly].
  split_and!; [reflexivity|exact Hrow|exact Hscan|reflexivity|exact Hin|].
  intros Hbad. apply Honly in Hbad. discriminate Hbad.
Defined.

(* ================================================================== *)
(** * Examples *)

(** A second [alice.wav] goes to [alice_1.wav]; a third one would go to
    [alice_2.wav]. *)
Example unique_path_alice :
  unique_path Fixture.cwd Fixture.fs_two "uploads/alice.wav"
  = Some "uploads/alice_1.wav"
  ∧ unique_path Fixture.cwd
      (<["/app/uploads/alice_1.wav" := FS.File []]> Fixture.fs_two)
      "uploads/alice.wav"
    = Some "uploads/alice_2.wav"
  ∧ unique_path Fixture.cwd Fixture.fs_two "uploads/carol.flac"
    = Some "uploads/carol.flac".
Proof. split_and!; by vm_compute. Qed.

(** An archive with [bob.mp3], [readme.txt] and the directory entry
    [data/]: exactly one file is extracted, and since [uploads/bob.mp3]
    exists it is written to [bob_1.mp3]. An entry that cannot be read does
    not stop the entries after it. *)
Example extract_archive :
  (extract_audio_from_zip Fixture.cwd
     [("bob.mp3", Some Fixture.audio8); ("readme.txt", Some []); ("data/", Some [])]
     Fixture.fs_two UPLOAD_DIR).2
  = ["uploads/bob_1.mp3"]
  ∧ (extract_audio_from_zip Fixture.cwd
       [("__MACOSX/a.wav", Some []); ("x/bad.wav", None); ("x/Good.OGG", Some [])]
       Fixture.fs_two UPLOAD_DIR).2
    = ["uploads/Good.OGG"].
Proof. split; by vm_compute. Qed.

(** With threshold 0 and distances 5 and 12 nothing is accepted, and both
    results are shown, the closer one first. *)
Example shown_of_fallback :
  shown_of (Finite 0) 3
    (sort_by_dist [("b", "/app/uploads/b.wav", 12%R); ("a", "/app/uploads/a.wav", 5%R)])
  = [("a", "/app/uploads/a.wav", 5%R); ("b", "/app/uploads/b.wav", 12%R)].
Proof.
  unfold sort_by_dist, shown_of, accepted_of. cbn [foldr insert_by_dist dist snd].
  destruct (Rlt_dec 5 12) as [_|?]; [|lra].
  rewrite !filter_cons_False, filter_nil; [done|..];
    unfold le_threshold, dist; cbn [snd];
    match goal with |- context [Rle_dec ?a ?b] => destruct (Rle_dec a b) end;
    first [lra | by intros ?].
Qed.

(** The three reports of the "Match" branch on the sample folder, each
    leaving the filesystem as it was: a query against an empty catalog; a
    query too short to have a fingerprint; and a query that is compared
    with the two files of the folder and with itself. *)
Example find_match_paths :
  find_match Fixture.cwd Fixture.decode Fixture.mfcc
    (Some (Upload "q.wav" Fixture.audio12)) Database 3 (Finite 100)
    DB.init_db Fixture.fs_two
  = Some (Fixture.fs_two, NoCandidates)
  ∧ find_match Fixture.cwd Fixture.decode Fixture.mfcc
      (Some (Upload "q.wav" Fixture.audio8)) UploadsFolder 3 (Finite 100)
      DB.init_db Fixture.fs_two
    = Some (Fixture.fs_two, NoValidComparisons)
  ∧ ∃ shown,
      find_match Fixture.cwd Fixture.decode Fixture.mfcc
        (Some (Upload "q.wav" Fixture.audio12)) UploadsFolder 3 Infinity
        DB.init_db Fixture.fs_two
      = Some (Fixture.fs_two, Shown shown)
      ∧ length shown = 3.
Proof.
  assert (∀ data,
    save_uploaded_file Fixture.cwd Fixture.fs_two (Upload "q.wav" data) UPLOAD_DIR
    = Some (<[OsPath.abspath Fixture.cwd "uploads/q.wav" := FS.File data]>
              Fixture.fs_two, "uploads/q.wav")) as Hsave.
  { intros data. vm_compute. reflexivity. }
  assert (Fixture.fs_two !! OsPath.abspath Fixture.cwd "uploads/q.wav" = None)
    as Hfresh by (vm_compute; reflexivity).
  split_and!.
  - rewrite (find_match_report _ _ _ _ _ _ _ _ _ _ _ (Hsave _)).
    rewrite try_remove_written by exact Hfresh.
    rewrite decide_True; [done|]. vm_compute. reflexivity.
  - rewrite (find_match_report _ _ _ _ _ _ _ _ _ _ _ (Hsave _)).
    rewrite try_remove_written by exact Hfresh.
    rewrite decide_False by (vm_compute; discriminate).
    rewrite decide_True; [done|].
    apply results_of_query_absent. vm_compute. reflexivity.
  - set (fs1 := <[OsPath.abspath Fixture.cwd "uploads/q.wav"
                  := FS.File Fixture.audio12]> Fixture.fs_two).
    exists (rank Fixture.cwd Fixture.decode Fixture.mfcc fs1 "uploads/q.wav"
              [("alice", "/app/uploads/alice.wav"); ("bob", "/app/uploads/bob.mp3");
               ("q", "/app/uploads/q.wav")] Infinity 3).
    rewrite (find_match_report _ _ _ _ _ _ _ _ _ _ _ (Hsave _)).
    rewrite try_remove_written by exact Hfresh. fold fs1.
    assert (candidates_of Fixture.cwd UploadsFolder DB.init_db fs1
            = [("alice", "/app/uploads/alice.wav"); ("bob", "/app/uploads/bob.mp3");
               ("q", "/app/uploads/q.wav")]) as -> by (vm_compute; reflexivity).
    assert (∀ p, p ∈ ["/app/uploads/alice.wav"; "/app/uploads/bob.mp3";
                      "/app/uploads/q.wav"] →
              is_Some (compare_voice Fixture.cwd Fixture.decode Fixture.mfcc fs1
                         "uploads/q.wav" p)) as Hsome.
    { intros p Hp. repeat (apply elem_of_cons in Hp as [->|Hp]);
        [..|by apply elem_of_nil in Hp]; eexists;
        (eapply compare_voice_Some; vm_compute; reflexivity). }
    assert (length (results_of Fixture.cwd Fixture.decode Fixture.mfcc fs1
              "uploads/q.wav"
              [("alice", "/app/uploads/alice.wav"); ("bob", "/app/uploads/bob.mp3");
               ("q", "/app/uploads/q.wav")]) = 3) as Hlen.
    { rewrite length_results_of.
      rewrite !filter_cons_True; [done|apply Hsome; cbn [snd]..].
      - apply elem_of_cons; right. apply elem_of_cons; right. apply list_elem_of_here.
      - apply elem_of_cons; right. apply list_elem_of_here.
      - apply list_elem_of_here. }
    rewrite decide_False by done.
    rewrite decide_False by (intros Hnil; by rewrite Hnil in Hlen).
    split; [done|]. by rewrite length_rank_Infinity, Hlen.
Qed.

(* ================================================================== *)
(** * More on distances *)

Section DistanceFacts.
Context (cwd : string)
        (decode : list Byte.byte → option (list R * N))
        (mfcc : list R → N → ∀ n_mfcc : nat, option (mfcc_matrix n_mfcc)).

Lemma sum_sq_diff_nonneg l1 l2 : (0 <= sum_sq_diff l1 l2)%R.
Proof.
  revert l2. induction l1 as [|x l1 IH]; intros [|y l2]; cbn; try lra.
  specialize (IH l2). pose proof (Rle_0_sqr (x - y)) as Hsq.
  unfold Rsqr in Hsq. lra.
Qed.

Lemma sum_sq_diff_zero l1 l2 :
  length l1 = length l2 → sum_sq_diff l1 l2 = 0%R → l1 = l2.
Proof.
  revert l2. induction l1 as [|x l1 IH]; intros [|y l2]; cbn; try done.
  intros [= Hlen] Hsum. pose proof (sum_sq_diff_nonneg l1 l2) as Hpos.
  pose proof (Rle_0_sqr (x - y)) as Hsq. unfold Rsqr in Hsq.
  assert ((x - y) * (x - y) = 0)%R as H0 by lra.
  apply Rmult_integral in H0.
  assert (x = y) as -> by (destruct H0; lra).
  f_equal. apply IH; [done|]. lra.
Qed.

Lemma euclidean_distance_nonneg l1 l2 : (0 <= euclidean_distance l1 l2)%R.
Proof. apply sqrt_pos. Qed.

Lemma euclidean_distance_zero l1 l2 :
  length l1 = length l2 → euclidean_distance l1 l2 = 0%R ↔ l1 = l2.
Proof.
  intros Hlen. unfold euclidean_distance. split.
  - intros H0. apply sqrt_eq_0 in H0; [|apply sum_sq_diff_nonneg].
    by apply sum_sq_diff_zero.
  - intros ->. by rewrite sum_sq_diff_diag, sqrt_0.
Qed.

Lemma compare_voice_nonneg fs A B d :
  compare_voice cwd decode mfcc fs A B = Some d → (0 <= d)%R.
Proof.
  unfold compare_voice.
  destruct (load_mfcc_mean cwd decode mfcc fs A 20) as [va|]; [|done].
  destruct (load_mfcc_mean cwd decode mfcc fs B 20) as [vb|]; [|done].
  rewrite norm_sub_euclidean. intros [= <-]. apply euclidean_distance_nonneg.
Qed.

Lemma load_mfcc_mean_same_bytes (fs : FS.t) A B n :
  FS.read_file cwd fs A = FS.read_file cwd fs B →
  load_mfcc_mean cwd decode mfcc fs A n = load_mfcc_mean cwd decode mfcc fs B n.
Proof. intros Heq. unfold load_mfcc_mean, librosa_load. by rewrite Heq. Qed.

Lemma compare_voice_copy (fs : FS.t) A B :
  FS.read_file cwd fs A = FS.read_file cwd fs B →
  is_Some (load_mfcc_mean cwd decode mfcc fs A 20) →
  compare_voice cwd decode mfcc fs A B = Some 0%R.
Proof.
  intros Heq [v Hv].
  pose proof Hv as Hv'. rewrite (load_mfcc_mean_same_bytes fs A B 20 Heq) in Hv'.
  rewrite (compare_voice_Some _ _ _ _ _ _ _ _ Hv Hv').
  f_equal. apply euclidean_distance_zero; [|done].
  by rewrite !length_vec_to_list.
Qed.

Lemma load_mfcc_mean_not_file (fs : FS.t) B n :
  FS.isfile cwd fs B = false → load_mfcc_mean cwd decode mfcc fs B n = None.
Proof.
  intros Hfile. unfold load_mfcc_mean, librosa_load, FS.read_file.
  unfold FS.isfile in Hfile.
  by destruct (fs !! OsPath.abspath cwd B) as [[]|].
Qed.

(** X2. The distance of two files with a fingerprint is never negative, and
    it is 0 exactly when the two fingerprints are the same vector. *)
Theorem compare_voice_zero_iff fs A B v1 v2 :
  load_mfcc_mean cwd decode mfcc fs A 20 = Some v1 →
  load_mfcc_mean cwd decode mfcc fs B 20 = Some v2 →
  (∃ d, compare_voice cwd decode mfcc fs A B = Some d ∧ (0 <= d)%R)
  ∧ (compare_voice cwd decode mfcc fs A B = Some 0%R ↔ v1 = v2).
Proof.
  intros H1 H2. rewrite (compare_voice_Some _ _ _ _ _ _ _ _ H1 H2). split.
  - eexists. split; [done|]. apply euclidean_distance_nonneg.
  - split.
    + intros [= H0]. apply euclidean_distance_zero in H0.
      * by apply vec_to_list_inj2.
      * by rewrite !length_vec_to_list.
    + intros ->. f_equal. apply euclidean_distance_zero; [|done].
      by rewrite !length_vec_to_list.
Qed.

(** X3. Two paths that hold the same bytes are interchangeable in every
    comparison, and when they have a fingerprint they are at distance 0
    of each other: a copy of a file matches it exactly. *)
Theorem compare_voice_same_bytes (fs : FS.t) A B :
  FS.read_file cwd fs A = FS.read_file cwd fs B →
  (∀ C, compare_voice cwd decode mfcc fs A C = compare_voice cwd decode mfcc fs B C
        ∧ compare_voice cwd decode mfcc fs C A = compare_voice cwd decode mfcc fs C B)
  ∧ (is_Some (load_mfcc_mean cwd decode mfcc fs A 20) →
     compare_voice cwd decode mfcc fs A B = Some 0%R).
Proof.
  intros Heq. split; [|by apply compare_voice_copy].
  intros C. unfold compare_voice.
  by rewrite (load_mfcc_mean_same_bytes fs A B 20 Heq).
Qed.

(** X4. A path with no regular file behind it (a stale catalog row, a
    directory) has no fingerprint, and every comparison with it is
    absent. *)
Theorem compare_voice_missing_file (fs : FS.t) A B :
  FS.isfile cwd fs B = false →
  load_mfcc_mean cwd decode mfcc fs B 20 = None
  ∧ compare_voice cwd decode mfcc fs A B = None
  ∧ compare_voice cwd decode mfcc fs B A = None.
Proof.
  intros Hfile.
  pose proof (load_mfcc_mean_not_file fs B 20 Hfile) as Hload.
  split_and!; [done|by apply compare_voice_None_r|by apply compare_voice_None_l].
Qed.

Section Triangle.
Local Open Scope R_scope.





End Triangle.

End DistanceFacts.

(* ================================================================== *)
(** * More on the ranking *)

Section RankingFacts.
Context (cwd : string)
        (decode : list Byte.byte → option (list R * N))
        (mfcc : list R → N → ∀ n_mfcc : nat, option (mfcc_matrix n_mfcc)).

Lemma results_of_cons fs q c cands :
  results_of cwd decode mfcc fs q (c :: cands)
  = match compare_voice cwd decode mfcc fs q c.2 with
    | Some d => (c.1, c.2, d) :: results_of cwd decode mfcc fs q cands
    | None => results_of cwd decode mfcc fs q cands
    end.
Proof.
  unfold results_of. cbn [omap list_omap].
  by destruct (compare_voice cwd decode mfcc fs q c.2).
Qed.

(** In a sorted list the entries within the threshold come first. *)
Lemma accepted_split threshold l :
  sorted_by_dist l →
  ∃ rest, l = filter (within_threshold threshold) l ++ rest
    ∧ Forall (λ x, ¬ within_threshold threshold x) rest.
Proof.
  induction 1 as [|x l Hsorted IH Hx].
  - by exists [].
  - destruct (decide (within_threshold threshold x)) as [Hin|Hout].
    + destruct IH as (rest & Hl & Hrest). exists rest.
      rewrite filter_cons_True by done. split; [|done].
      cbn. by rewrite <-Hl.
    + exists (x :: l). rewrite filter_cons_False by done.
      assert (Forall (λ y, ¬ within_threshold threshold y) l) as Hall.
      { eapply Forall_impl; [exact Hx|]. intros y Hy Hin. apply Hout.
        destruct threshold as [t|]; cbn in *; [lra|done]. }
      assert (filter (within_threshold threshold) l = []) as ->.
      { clear -Hall. induction Hall as [|y l Hy _ IH]; [done|].
        by rewrite filter_cons_False. }
      split; [done|]. by constructor.
Qed.

Lemma shown_of_split threshold top_k l :
  sorted_by_dist l →
  ∃ rest, l = shown_of threshold top_k l ++ rest
    ∧ (Forall (within_threshold threshold) (shown_of threshold top_k l)
       ∨ Forall (λ x, ¬ within_threshold threshold x) l).
Proof.
  intros Hsorted. unfold shown_of. rewrite accepted_of_within.
  destruct (accepted_split threshold l Hsorted) as (rest & Hl & Hrest).
  destruct (filter (within_threshold threshold) l) as [|a acc] eqn:Hacc.
  - exists (drop top_k l). split; [by rewrite take_drop|].
    right. rewrite Hl. done.
  - exists (drop top_k (a :: acc) ++ rest). split.
    + by rewrite (assoc_L (++)), take_drop.
    + left. apply Forall_take. rewrite <-Hacc. apply Forall_forall.
      by intros x [Hx _]%list_elem_of_filter.
Qed.

Lemma shown_of_head threshold top_k r l :
  sorted_by_dist (r :: l) → 1 ≤ top_k →
  ∃ rest, shown_of threshold top_k (r :: l) = r :: rest.
Proof.
  intros Hsorted Hk.
  destruct (shown_of_split threshold top_k (r :: l) Hsorted) as (rest & Hl & _).
  assert (shown_of threshold top_k (r :: l) ≠ []) as Hne.
  { unfold shown_of. destruct top_k as [|k]; [lia|].
    by destruct (accepted_of threshold (r :: l)). }
  destruct (shown_of threshold top_k (r :: l)) as [|r' shown]; [done|].
  injection Hl as <- _. by exists shown.
Qed.

Lemma length_shown_of threshold top_k l :
  length (shown_of threshold top_k l) ≤ top_k.
Proof.
  unfold shown_of.
  destruct (accepted_of threshold l); rewrite length_take; lia.
Qed.

Lemma sorted_by_dist_app l1 l2 :
  sorted_by_dist (l1 ++ l2) →
  ∀ r x, r ∈ l1 → x ∈ l2 → (dist r <= dist x)%R.
Proof.
  induction l1 as [|a l1 IH]; cbn; intros Hsorted r x Hr Hx.
  - by apply elem_of_nil in Hr.
  - apply StronglySorted_inv in Hsorted as [Hsorted Ha].
    apply elem_of_cons in Hr as [->|Hr]; [|by eapply IH].
    rewrite Forall_forall in Ha. apply Ha. apply elem_of_app. by right.
Qed.

(** X6. What the ranking shows is a front part of the valid comparisons
    in order of distance, of at most [top_k] entries: no comparison left
    out is closer than one that is shown. Either everything shown is
    within the threshold, or no valid comparison is. *)
Theorem rank_shows_closest fs q cands threshold top_k :
  let valid := results_of cwd decode mfcc fs q cands in
  let shown := rank cwd decode mfcc fs q cands threshold top_k in
  ∃ rest, sort_by_dist valid = shown ++ rest
    ∧ (∀ r x, r ∈ shown → x ∈ rest → (dist r <= dist x)%R)
    ∧ length shown ≤ top_k
    ∧ (Forall (within_threshold threshold) shown
       ∨ Forall (λ x, ¬ within_threshold threshold x) valid).
Proof.
  cbn zeta. unfold rank.
  set (valid := results_of cwd decode mfcc fs q cands).
  pose proof (sort_by_dist_sorted valid) as Hsorted.
  destruct (shown_of_split threshold top_k _ Hsorted) as (rest & Hl & Hin).
  exists rest. split_and!.
  - done.
  - apply sorted_by_dist_app. by rewrite <-Hl.
  - apply length_shown_of.
  - destruct Hin as [Hin|Hout]; [by left|right].
    by rewrite <-(sort_by_dist_perm valid).
Qed.

(** X7. When at least one entry may be shown and some comparison is valid,
    the first entry shown is a closest candidate, whatever the threshold:
    no valid comparison has a smaller distance. *)
Theorem rank_first_is_closest fs q cands threshold top_k :
  1 ≤ top_k →
  results_of cwd decode mfcc fs q cands ≠ [] →
  ∃ r rest, rank cwd decode mfcc fs q cands threshold top_k = r :: rest
    ∧ r ∈ results_of cwd decode mfcc fs q cands
    ∧ ∀ x, x ∈ results_of cwd decode mfcc fs q cands → (dist r <= dist x)%R.
Proof.
  intros Hk Hne. unfold rank.
  set (valid := results_of cwd decode mfcc fs q cands) in *.
  pose proof (sort_by_dist_sorted valid) as Hsorted.
  pose proof (sort_by_dist_perm valid) as Hperm.
  destruct (sort_by_dist valid) as [|r l] eqn:Hsort.
  { apply Permutation_nil_l in Hperm. by subst. }
  destruct (shown_of_head threshold top_k r l Hsorted Hk) as (rest & ->).
  exists r, rest. split_and!; [done|..].
  - rewrite <-Hperm. by left.
  - intros x Hx. rewrite <-Hperm in Hx.
    apply StronglySorted_inv in Hsorted as [_ Hr].
    apply elem_of_cons in Hx as [->|Hx]; [lra|].
    rewrite Forall_forall in Hr. by apply Hr.
Qed.

(** X8. The sort is stable: the valid comparisons at one distance stand in
    the sorted list in the order of their candidates. *)
Theorem sort_keeps_candidate_order fs q cands d :
  filter (λ r, dist r = d) (sort_by_dist (results_of cwd decode mfcc fs q cands))
  = results_of cwd decode mfcc fs q
      (filter (λ c, compare_voice cwd decode mfcc fs q c.2 = Some d) cands).
Proof.
  rewrite sort_by_dist_stable.
  induction cands as [|c cands IH]; [done|].
  rewrite results_of_cons.
  destruct (compare_voice cwd decode mfcc fs q c.2) as [d'|] eqn:Hd.
  - destruct (decide (d' = d)) as [->|Hne].
    + rewrite filter_cons_True by done.
      rewrite (filter_cons_True _ c) by done.
      rewrite results_of_cons, Hd. by rewrite IH.
    + rewrite filter_cons_False by done.
      rewrite (filter_cons_False _ c) by congruence. done.
  - rewrite (filter_cons_False _ c) by congruence. done.
Qed.

End RankingFacts.

(* ================================================================== *)
(** * Paths below the uploads folder *)

Section BelowFacts.
Context (cwd : string).
Implicit Types (fs : FS.t).

#[local] Arguments OsPath.abspath : simpl never.

Lemma startswith_app_long p x y :
  String.length p ≤ String.length x →
  Str.startswith p (x +:+ y) = Str.startswith p x.
Proof.
  revert x. induction p as [|a p IH]; intros [|b x]; cbn; try done; [lia|].
  intros Hlen. rewrite string_app_cons. cbn.
  case_decide; [|done]. apply IH. lia.
Qed.

Lemma initial_slashes_app_long x y :
  3 ≤ String.length x →
  OsPath.initial_slashes (x +:+ y) = OsPath.initial_slashes x.
Proof.
  intros Hlen. unfold OsPath.initial_slashes.
  by rewrite !startswith_app_long by (cbn; lia).
Qed.

Lemma foldl_norm_step_app k acc cs :
  Forall (λ c, c ≠ "" ∧ c ≠ "." ∧ c ≠ "..") cs →
  foldl (OsPath.norm_step k) acc cs = acc ++ cs.
Proof.
  intros Hcs. revert acc.
  induction Hcs as [|c cs (H1 & H2 & H3) _ IH]; intros acc; cbn.
  - by rewrite app_nil_r.
  - rewrite IH. unfold OsPath.norm_step.
    rewrite decide_False by tauto. rewrite decide_True by tauto.
    by rewrite <-(assoc_L (++)).
Qed.

Lemma join_app sep l1 l2 :
  l1 ≠ [] → l2 ≠ [] →
  Str.join sep (l1 ++ l2) = Str.join sep l1 +:+ sep +:+ Str.join sep l2.
Proof.
  intros Hl1 Hl2. induction l1 as [|x [|y l1] IH]; [done|..].
  - destruct l2; [done|]. done.
  - change (Str.join sep ((x :: y :: l1) ++ l2))
      with (x +:+ sep +:+ Str.join sep ((y :: l1) ++ l2)).
    rewrite IH by done.
    change (Str.join sep (x :: y :: l1))
      with (x +:+ sep +:+ Str.join sep (y :: l1)).
    by rewrite !string_app_assoc.
Qed.

Lemma join_split c s : Str.join (String c "") (Str.split c s) = s.
Proof.
  induction s as [|a s IH]; [done|]. cbn [Str.split].
  pose proof (split_nonempty c s) as Hne.
  case_decide as Hac.
  - subst a. destruct (Str.split c s) as [|w ws]; [done|].
    change (Str.join (String c "") ("" :: w :: ws))
      with ("" +:+ String c "" +:+ Str.join (String c "") (w :: ws)).
    by rewrite IH.
  - destruct (Str.split c s) as [|w [|w' ws]]; [done|..].
    + cbn in *. by subst.
    + change (Str.join (String c "") (String a w :: w' :: ws))
        with (String a w +:+ String c "" +:+ Str.join (String c "") (w' :: ws)).
      rewrite string_app_cons. f_equal. exact IH.
Qed.

(** [normpath] leaves alone what follows a proper directory name, when the
    components that follow are plain names. *)
Lemma normpath_below d s rel :
  dir_prefix d → proper_name s → 3 ≤ String.length s →
  Forall (λ c, c ≠ "" ∧ c ≠ "." ∧ c ≠ "..") (Str.split OsPath.sep rel) →
  OsPath.normpath (d +:+ s +:+ "/" +:+ rel)
  = OsPath.normpath (d +:+ s) +:+ "/" +:+ rel.
Proof.
  intros Hd Hs Hlen Hrel.
  assert (d +:+ s +:+ "/" +:+ rel = (d +:+ s) +:+ String OsPath.sep rel) as ->.
  { by rewrite string_app_assoc. }
  set (A := d +:+ s).
  assert (3 ≤ String.length A) as HlenA.
  { unfold A. rewrite string_length_app. lia. }
  assert (A ≠ "") as HA by (by intros HA; rewrite HA in HlenA; cbn in HlenA; lia).
  assert (A +:+ String OsPath.sep rel ≠ "") as HA'.
  { intros H0. apply (f_equal String.length) in H0.
    rewrite string_length_app in H0. cbn in H0. lia. }
  unfold OsPath.normpath. rewrite !decide_False by done. cbn zeta.
  rewrite initial_slashes_app_long by done.
  set (k := OsPath.initial_slashes A).
  rewrite split_app_sep, foldl_app.
  destruct (split_dir_prefix d s Hd (proj1 Hs)) as (init & Hsplit).
  fold A in Hsplit. rewrite Hsplit, foldl_app. cbn [foldl].
  rewrite norm_step_proper by done.
  set (X := foldl (OsPath.norm_step k) [] init).
  rewrite foldl_norm_step_app by done.
  rewrite join_app; [|by destruct X|apply split_nonempty].
  change "/" with (String OsPath.sep "") at 3. rewrite join_split.
  destruct (join_snoc_dir_prefix X s) as (d' & Hd' & ->).
  assert (∀ t, Str.join "" (replicate k "/") +:+ (d' +:+ s) +:+ t ≠ "") as Hne.
  { intros t H0. apply (f_equal String.length) in H0.
    rewrite !string_length_app in H0. cbn in H0. lia. }
  rewrite decide_False.
  - rewrite (decide_False (P := A = "")) by done.
    rewrite decide_False; [by rewrite !string_app_assoc|].
    specialize (Hne ""). by rewrite !string_app_nil_r in Hne.
  - specialize (Hne ("/" +:+ rel)). by rewrite !string_app_assoc in *.
Qed.

(** The absolute path of an entry below [uploads]. *)
Lemma abspath_below rel :
  Forall (λ c, c ≠ "" ∧ c ≠ "." ∧ c ≠ "..") (Str.split OsPath.sep rel) →
  OsPath.abspath cwd (UPLOAD_DIR +:+ "/" +:+ rel)
  = OsPath.abspath cwd UPLOAD_DIR +:+ "/" +:+ rel.
Proof.
  intros Hrel.
  assert (proper_name UPLOAD_DIR) as Hup by (by compute).
  assert (∃ d, dir_prefix d
            ∧ (∀ t, (if OsPath.isabs (UPLOAD_DIR +:+ t) then UPLOAD_DIR +:+ t
                     else OsPath.join cwd (UPLOAD_DIR +:+ t))
                    = d +:+ UPLOAD_DIR +:+ t)) as (d & Hd & Hjoin).
  { assert (∀ t, OsPath.isabs (UPLOAD_DIR +:+ t) = false) as Habs by done.
    unfold OsPath.join. setoid_rewrite Habs.
    destruct (decide (cwd = "")) as [->|Hcwd].
    { exists "". split; [by left|]. intros t. by rewrite string_app_nil_l. }
    destruct (Str.endswith "/" cwd) eqn:Hend.
    - exists cwd. split; [|done].
      apply endswith_spec in Hend as [r ->]. right. by exists r.
    - exists (cwd +:+ "/"). split; [right; by exists cwd|].
      intros t. by rewrite !string_app_assoc. }
  unfold OsPath.abspath.
  rewrite (Hjoin ("/" +:+ rel)).
  pose proof (Hjoin "") as Hjoin0. rewrite !string_app_nil_r in Hjoin0.
  rewrite Hjoin0.
  apply normpath_below; [done|done|cbn; lia|done].
Qed.

End BelowFacts.

(* ================================================================== *)
(** * What the scan of the uploads folder returns *)

Section ScanFacts.
Context (cwd : string).
Implicit Types (fs : FS.t).

#[local] Arguments OsPath.abspath : simpl never.

Lemma glob_match_plain ext rel :
  FS.glob_match ext rel = true →
  Forall (λ c, c ≠ "" ∧ c ≠ "." ∧ c ≠ "..") (Str.split OsPath.sep rel).
Proof.
  unfold FS.glob_match. intros [Hall _]%andb_true_iff.
  rewrite forallb_forall in Hall. apply Forall_forall. intros c Hc.
  apply list_elem_of_In, Hall in Hc.
  apply andb_true_iff in Hc as [Hne Hhid].
  apply negb_true_iff, bool_decide_eq_false in Hne.
  apply negb_true_iff in Hhid.
  split_and!; [done|..]; by intros ->.
Qed.

Lemma scanned_rel_spec rel :
  scanned_rel rel = true
  ↔ ∃ ext, ext ∈ ALLOWED_AUDIO_EXTS ∧ FS.glob_match ext rel = true.
Proof.
  unfold scanned_rel. rewrite existsb_exists.
  by setoid_rewrite <-list_elem_of_In.
Qed.

Lemma scanned_rel_plain rel :
  scanned_rel rel = true →
  Forall (λ c, c ≠ "" ∧ c ≠ "." ∧ c ≠ "..") (Str.split OsPath.sep rel).
Proof. intros (ext & _ & Hm)%scanned_rel_spec. by eapply glob_match_plain. Qed.

Lemma elem_of_glob_rec fs ext g :
  g ∈ FS.glob_rec cwd fs UPLOAD_DIR ext
  ↔ ∃ rel, FS.glob_match ext rel = true
      ∧ g = UPLOAD_DIR +:+ "/" +:+ rel
      ∧ is_Some (fs !! (uploads_root cwd +:+ "/" +:+ rel)).
Proof.
  unfold FS.glob_rec. rewrite list_elem_of_omap. split.
  - intros (k & Hk & Hf).
    apply list_elem_of_fmap in Hk as ([k' x] & -> & Hk%elem_of_map_to_list).
    cbn in Hf.
    destruct (FS.strip_prefix _ k') as [rel|] eqn:Hstrip; [|done]. cbn in Hf.
    apply strip_prefix_spec in Hstrip.
    destruct (FS.glob_match ext rel) eqn:Hm; [|done]. injection Hf as <-.
    exists rel. split_and!; [done..|].
    unfold uploads_root. rewrite string_app_assoc in Hstrip.
    rewrite <-Hstrip. by eexists.
  - intros (rel & Hm & -> & [x Hx]).
    exists (uploads_root cwd +:+ "/" +:+ rel). split.
    + apply list_elem_of_fmap. exists (uploads_root cwd +:+ "/" +:+ rel, x).
      split; [done|]. by apply elem_of_map_to_list.
    + assert (FS.strip_prefix (OsPath.abspath cwd UPLOAD_DIR +:+ "/")
                (uploads_root cwd +:+ "/" +:+ rel) = Some rel) as ->.
      { apply strip_prefix_spec. unfold uploads_root.
        by rewrite string_app_assoc. }
      cbn. by rewrite Hm.
Qed.

(** The scan returns exactly the existing entries below the uploads folder
    whose relative path is picked up by one of the patterns. *)
Lemma elem_of_scan_rel fs f :
  f ∈ scan_uploads_for_audio cwd fs
  ↔ ∃ rel, scanned_rel rel = true
      ∧ f = uploads_root cwd +:+ "/" +:+ rel
      ∧ is_Some (fs !! f).
Proof.
  rewrite elem_of_scan. split.
  - intros (ext & g & Hext & (rel & Hm & -> & Hin)%elem_of_glob_rec & ->).
    exists rel. rewrite abspath_below by (by eapply glob_match_plain).
    split_and!; [|done..]. apply scanned_rel_spec. by exists ext.
  - intros (rel & (ext & Hext & Hm)%scanned_rel_spec & -> & Hin).
    exists ext, (UPLOAD_DIR +:+ "/" +:+ rel). split_and!; [done|..].
    + apply elem_of_glob_rec. by exists rel.
    + rewrite abspath_below by (by eapply glob_match_plain). done.
Qed.

Lemma ascending_NoDup l : ascending l → NoDup l.
Proof.
  induction 1 as [|x l _ IH Hx]; constructor; [|done].
  intros Hin. rewrite Forall_forall in Hx. by destruct (Hx x Hin).
Qed.

Lemma ascending_sort l : NoDup l → ascending (merge_sort String.le l).
Proof.
  intros Hnd.
  pose proof (StronglySorted_merge_sort String.le l) as Hsorted.
  assert (NoDup (merge_sort String.le l)) as Hnd'.
  { by rewrite merge_sort_Permutation. }
  induction Hsorted as [|x l' _ IH Hx]; [constructor|].
  apply NoDup_cons in Hnd' as [Hx' Hnd']. constructor; [by apply IH|].
  apply Forall_forall. intros y Hy. split.
  - rewrite Forall_forall in Hx. by apply Hx.
  - by intros ->.
Qed.

Lemma ascending_scan fs : ascending (scan_uploads_for_audio cwd fs).
Proof. apply ascending_sort, NoDup_remove_dups. Qed.

#[local] Instance ascending_rel_antisymm :
  AntiSymm (=) (λ a b : string, String.le a b ∧ a ≠ b).
Proof. intros a b [Hab _] [Hba _]. by apply (anti_symm String.le). Qed.

(** Two ascending lists with the same members are the same list. *)
Lemma ascending_ext l1 l2 :
  ascending l1 → ascending l2 → (∀ x, x ∈ l1 ↔ x ∈ l2) → l1 = l2.
Proof.
  intros H1 H2 Hmem.
  apply (StronglySorted_unique (λ a b : string, String.le a b ∧ a ≠ b));
    [done..|].
  apply NoDup_Permutation; [by apply ascending_NoDup..|done].
Qed.

(** X9. The scan returns exactly the existing entries (files or
    directories) below the uploads folder whose relative path has no
    empty or hidden component and ends with an allowed extension as it is
    written; it returns them as absolute paths, in strictly ascending
    order, so none twice. *)
Theorem scan_uploads_for_audio_spec fs :
  (∀ f, f ∈ scan_uploads_for_audio cwd fs
        ↔ ∃ rel, scanned_rel rel = true
            ∧ f = uploads_root cwd +:+ "/" +:+ rel
            ∧ is_Some (fs !! f))
  ∧ ascending (scan_uploads_for_audio cwd fs)
  ∧ NoDup (scan_uploads_for_audio cwd fs).
Proof.
  split_and!.
  - apply elem_of_scan_rel.
  - apply ascending_scan.
  - apply NoDup_scan.
Qed.

(** X10. The scan looks at which entries exist, not at what they hold: two
    filesystems with the same entries below the uploads folder give the
    same list. *)
Theorem scan_depends_on_names fs1 fs2 :
  (∀ rel, is_Some (fs1 !! (uploads_root cwd +:+ "/" +:+ rel))
          ↔ is_Some (fs2 !! (uploads_root cwd +:+ "/" +:+ rel))) →
  scan_uploads_for_audio cwd fs1 = scan_uploads_for_audio cwd fs2.
Proof.
  intros Hsame. apply ascending_ext; [apply ascending_scan..|].
  intros f. rewrite !elem_of_scan_rel.
  split; intros (rel & Hrel & -> & Hin); exists rel; split_and!; try done;
    by apply Hsame.
Qed.

End ScanFacts.

(* ================================================================== *)
(** * More on saving files *)

Section SavingFacts.
Context (cwd : string).
Implicit Types (fs : FS.t).

#[local] Arguments unique_path : simpl never.
#[local] Arguments OsPath.join : simpl never.
#[local] Arguments OsPath.basename : simpl never.
#[local] Arguments OsPath.abspath : simpl never.
#[local] Arguments FS.write_file : simpl never.


Lemma proper_name_plain m :
  proper_name m →
  Forall (λ c, c ≠ "" ∧ c ≠ "." ∧ c ≠ "..") (Str.split OsPath.sep m).
Proof.
  intros (Hsep & H1 & H2 & H3). rewrite split_no_sep by done.
  by repeat constructor.
Qed.

(** A proper name joined to [uploads] is a direct child of the uploads
    folder. *)
Lemma abspath_uploads_child m :
  proper_name m →
  OsPath.abspath cwd ("uploads/" +:+ m) = uploads_root cwd +:+ "/" +:+ m.
Proof.
  intros Hm.
  change ("uploads/" +:+ m) with (UPLOAD_DIR +:+ "/" +:+ m).
  by rewrite abspath_below by (by apply proper_name_plain).
Qed.

(** Where [unique_path] puts a proper name joined to [uploads]. *)
Lemma collision_free_child fs n dest :
  proper_name n →
  collision_free cwd fs ("uploads/" +:+ n) dest →
  ∃ m, proper_name m ∧ dest = "uploads/" +:+ m
    ∧ fs !! (uploads_root cwd +:+ "/" +:+ m) = None
    ∧ (m = n
       ∨ ∃ k, m = numbered_name (PathLib.stem_of_name n)
                    (PathLib.suffix_of_name n) k).
Proof.
  intros Hn Hcf. apply collision_free_uploads in Hcf as [Hfree Hcase]; [|done].
  apply exists_false in Hfree.
  destruct (stem_suffix_no_sep n) as [Hstem Hext]; [apply Hn|].
  destruct Hcase as [[_ ->]|(_ & k & _ & -> & _)].
  - exists n. rewrite <-abspath_uploads_child by done. by split_and!; [..|left].
  - pose proof (numbered_name_proper (PathLib.stem_of_name n)
                  (PathLib.suffix_of_name n) k Hstem Hext) as Hm.
    eexists. rewrite <-abspath_uploads_child by done.
    split_and!; [exact Hm|done|done|right; by exists k].
Qed.




(** X14. An upload is saved under its base name: when that is a proper
    file name, the new file is a direct child of the uploads folder,
    whatever directories the name of the upload goes through. *)
Theorem saved_file_inside_uploads fs up :
  proper_name (OsPath.basename (up_name up)) →
  ∃ m, proper_name m
    ∧ fs !! (uploads_root cwd +:+ "/" +:+ m) = None
    ∧ OsPath.abspath cwd ("uploads/" +:+ m) = uploads_root cwd +:+ "/" +:+ m
    ∧ save_uploaded_file cwd fs up UPLOAD_DIR
      = Some (<[uploads_root cwd +:+ "/" +:+ m := FS.File (up_buffer up)]> fs,
              "uploads/" +:+ m).
Proof.
  intros Hn. unfold save_uploaded_file. rewrite join_uploads by done.
  destruct (unique_path_spec cwd fs
              ("uploads/" +:+ OsPath.basename (up_name up))) as (dest & -> & Hcf).
  pose proof Hcf as [Hfree _].
  apply collision_free_child in Hcf as (m & Hm & -> & Hnone & _); [|done].
  exists m. cbn. rewrite write_file_fresh by done. cbn.
  rewrite abspath_uploads_child by done. done.
Qed.

Lemma extracted_children z ms fs saved fs' :
  extracted cwd z ms fs saved fs' →
  Forall (λ dest, ∃ m, proper_name m ∧ dest = "uploads/" +:+ m
                    ∧ OsPath.abspath cwd dest = uploads_root cwd +:+ "/" +:+ m)
    saved.
Proof.
  induction 1 as [fs|m ms fs saved fs' Hsel _ IH|m ms fs saved fs' Hsel Hr _ IH
                 |m ms fs data dest saved fs' Hsel Hr Hcf _ IH]; try done.
  constructor; [|done].
  rewrite member_selected_spec in Hsel.
  apply andb_true_iff in Hsel as [_ Haudio].
  pose proof (audio_basename_proper _ Haudio) as Hn.
  rewrite join_uploads in Hcf by done.
  apply collision_free_child in Hcf as (m' & Hm' & -> & _); [|done].
  exists m'. split_and!; [done..|]. by apply abspath_uploads_child.
Qed.

(** X15. Whatever the names of the members of an archive (a name with
    directories, with [..], absolute), every file the extraction saves is
    a direct child of the uploads folder. *)
Theorem extracted_files_inside_uploads z fs :
  Forall (λ dest, ∃ m, proper_name m ∧ dest = "uploads/" +:+ m
                    ∧ OsPath.abspath cwd dest = uploads_root cwd +:+ "/" +:+ m)
    (extract_audio_from_zip cwd z fs UPLOAD_DIR).2.
Proof.
  unfold extract_audio_from_zip.
  destruct (extract_loop_spec cwd z (namelist z) fs []) as (fs' & saved & -> & Hex).
  cbn. by eapply extracted_children.
Qed.

End SavingFacts.

(* ================================================================== *)
(** * From a saved upload to the scan *)

Section SavedScannedFacts.
Context (cwd : string).
Implicit Types (fs : FS.t).

#[local] Arguments unique_path : simpl never.
#[local] Arguments OsPath.join : simpl never.
#[local] Arguments OsPath.basename : simpl never.
#[local] Arguments OsPath.abspath : simpl never.
#[local] Arguments FS.write_file : simpl never.

Lemma any_audio_ext_spec s :
  any_audio_ext s = true
  ↔ ∃ ext, ext ∈ ALLOWED_AUDIO_EXTS ∧ Str.endswith ext s = true.
Proof.
  unfold any_audio_ext. rewrite existsb_exists.
  by setoid_rewrite <-list_elem_of_In.
Qed.

(** An allowed extension is a dot followed by letters. *)
Lemma audio_ext_shape ext :
  ext ∈ ALLOWED_AUDIO_EXTS →
  ∃ e, ext = String "."%char e ∧ Str.contains "."%char e = false ∧ e ≠ "".
Proof.
  unfold ALLOWED_AUDIO_EXTS. rewrite !elem_of_cons, elem_of_nil.
  intros [->|[->|[->|[->|[->|[->|[]]]]]]]; by eexists.
Qed.

Lemma ishidden_app r x : r ≠ "" → FS.ishidden (r +:+ x) = FS.ishidden r.
Proof. by destruct r. Qed.

(** How [pathlib] splits a name that is not hidden and ends with an allowed
    extension. *)
Lemma audio_name_split n ext :
  ext ∈ ALLOWED_AUDIO_EXTS → Str.endswith ext n = true →
  FS.ishidden n = false →
  PathLib.suffix_of_name n = ext
  ∧ PathLib.stem_of_name n ≠ ""
  ∧ n = PathLib.stem_of_name n +:+ ext.
Proof.
  intros (e & -> & He & Hne)%audio_ext_shape [r ->]%endswith_spec Hhid.
  assert (r ≠ "") as Hr by (by intros ->).
  unfold PathLib.suffix_of_name, PathLib.stem_of_name.
  rewrite rsplit_Some_2 by done.
  rewrite !decide_False by tauto. done.
Qed.

(** A proper name that is not hidden and ends with an allowed extension is
    picked up by the scan as a child of the uploads folder. *)
Lemma scanned_child m ext :
  proper_name m → FS.ishidden m = false →
  ext ∈ ALLOWED_AUDIO_EXTS → Str.endswith ext m = true →
  scanned_rel m = true.
Proof.
  intros (Hsep & Hne & _) Hhid Hext Hend.
  apply scanned_rel_spec. exists ext. split; [done|].
  unfold FS.glob_match. rewrite split_no_sep by done.
  cbn [forallb last default]. unfold Datatypes.id.
  rewrite Hhid, Hend, bool_decide_eq_false_2 by done. done.
Qed.

(** Saving an upload whose name is not hidden and ends with an allowed
    extension: the new entry is a child of the uploads folder that the
    scan picks up. *)
Lemma save_audio_upload fs up :
  any_audio_ext (OsPath.basename (up_name up)) = true →
  FS.ishidden (OsPath.basename (up_name up)) = false →
  ∃ m, proper_name m ∧ scanned_rel m = true
    ∧ fs !! (uploads_root cwd +:+ "/" +:+ m) = None
    ∧ OsPath.abspath cwd ("uploads/" +:+ m) = uploads_root cwd +:+ "/" +:+ m
    ∧ save_uploaded_file cwd fs up UPLOAD_DIR
      = Some (<[uploads_root cwd +:+ "/" +:+ m := FS.File (up_buffer up)]> fs,
              "uploads/" +:+ m).
Proof.
  set (n := OsPath.basename (up_name up)). intros Haudio Hhid.
  assert (proper_name n) as Hn.
  { pose proof (any_audio_ext_length _ Haudio) as Hlen.
    split_and!; [apply basename_no_sep|..]; intros Heq; rewrite Heq in Hlen;
      cbn in Hlen; lia. }
  apply any_audio_ext_spec in Haudio as (ext & Hext & Hend).
  destruct (audio_name_split n ext Hext Hend Hhid) as (Hsuf & Hstem & Hsplit).
  unfold save_uploaded_file. fold n. rewrite join_uploads by done.
  destruct (unique_path_spec cwd fs ("uploads/" +:+ n)) as (dest & -> & Hcf).
  pose proof Hcf as [Hfree _].
  apply collision_free_child in Hcf as (m & Hm & -> & Hnone & Hcase); [|done].
  exists m. cbn. rewrite write_file_fresh by done. cbn.
  rewrite abspath_uploads_child by done.
  split_and!; [done| |done..].
  destruct Hcase as [->|[k ->]]; [by eapply scanned_child|].
  eapply scanned_child; [done| |exact Hext|].
  - unfold numbered_name. rewrite ishidden_app by done.
    rewrite Hsplit, ishidden_app in Hhid by done. done.
  - rewrite Hsuf. apply endswith_spec.
    exists (PathLib.stem_of_name n +:+ "_" +:+ pretty k).
    unfold numbered_name. by rewrite !string_app_assoc.
Qed.

(** X16. After an upload whose name is not hidden and ends with an allowed
    extension as written is saved, the scan returns what it returned
    before and the new file. *)
Theorem saved_upload_is_scanned fs up :
  any_audio_ext (OsPath.basename (up_name up)) = true →
  FS.ishidden (OsPath.basename (up_name up)) = false →
  ∃ fs' dest,
    save_uploaded_file cwd fs up UPLOAD_DIR = Some (fs', dest)
    ∧ OsPath.abspath cwd dest ∉ scan_uploads_for_audio cwd fs
    ∧ ∀ f, f ∈ scan_uploads_for_audio cwd fs'
           ↔ f = OsPath.abspath cwd dest ∨ f ∈ scan_uploads_for_audio cwd fs.
Proof.
  intros Haudio Hhid.
  destruct (save_audio_upload fs up Haudio Hhid)
    as (m & Hm & Hscan & Hnone & Habs & Hsave).
  eexists _, _. split; [exact Hsave|]. rewrite Habs. split.
  - intros (rel & _ & _ & Hin)%elem_of_scan_rel.
    rewrite Hnone in Hin. by destruct Hin.
  - intros f. rewrite !elem_of_scan_rel. split.
    + intros (rel & Hrel & -> & Hin).
      destruct (decide (uploads_root cwd +:+ "/" +:+ rel
                        = uploads_root cwd +:+ "/" +:+ m)) as [?|Hne]; [by left|].
      right. exists rel. by rewrite lookup_insert_ne in Hin.
    + intros [->|(rel & Hrel & -> & Hin)].
      * exists m. by rewrite lookup_insert_eq.
      * exists rel. split_and!; [done..|].
        rewrite lookup_insert_ne; [done|]. intros Heq.
        rewrite <-Heq, Hnone in Hin. by destruct Hin.
Qed.

End SavedScannedFacts.

(* ================================================================== *)
(** * Manage: clearing the catalog and deleting the files *)

Section ManageFacts.
Context (cwd : string).
Implicit Types (fs : FS.t) (db : DB.t).

#[local] Arguments OsPath.abspath : simpl never.



Lemma remove_spec fs f :
  OsPath.abspath cwd f = f →
  FS.remove cwd fs f
  = if FS.isfile cwd fs f then Some (delete f fs) else None.
Proof.
  intros Hf. unfold FS.remove, FS.isfile. rewrite Hf.
  by destruct (fs !! f) as [[]|].
Qed.

Lemma length_filter_ext {A} (P Q : A → Prop)
    `{∀ x, Decision (P x), ∀ x, Decision (Q x)} (l : list A) :
  Forall (λ x, P x ↔ Q x) l → length (filter P l) = length (filter Q l).
Proof.
  induction 1 as [|x l Hx _ IH]; [done|].
  destruct (decide (P x)) as [HP|HP].
  - rewrite !filter_cons_True by tauto. cbn. by rewrite IH.
  - rewrite !filter_cons_False by tauto. done.
Qed.

(** The loop of "Delete all files" over distinct absolute paths: the
    regular files among them go, everything else stays. *)
Lemma delete_loop l fs n :
  NoDup l → Forall (λ f, OsPath.abspath cwd f = f) l →
  let st := foldl (delete_step cwd) (fs, n) l in
  (∀ k, st.1 !! k
        = if decide (k ∈ l ∧ FS.isfile cwd fs k = true) then None else fs !! k)
  ∧ st.2 = n + length (filter (λ f, FS.isfile cwd fs f = true) l).
Proof.
  intros Hnd. revert fs n.
  induction Hnd as [|f l Hf Hnd IH]; intros fs n Habs; cbn zeta.
  - cbn. split; [|lia]. intros k. rewrite decide_False; [done|].
    intros [Hk _]. by apply elem_of_nil in Hk.
  - apply Forall_cons in Habs as [Habsf Habs].
    cbn [foldl].
    assert (delete_step cwd (fs, n) f
            = if FS.isfile cwd fs f then (delete f fs, S n) else (fs, n))
      as ->.
    { unfold delete_step. cbn [fst snd]. rewrite remove_spec by done.
      by destruct (FS.isfile cwd fs f). }
    destruct (FS.isfile cwd fs f) eqn:Hfile.
    + destruct (IH (delete f fs) (S n) Habs) as [IH1 IH2].
      assert (∀ k, k ∈ l →
                FS.isfile cwd (delete f fs) k = FS.isfile cwd fs k) as Hsame.
      { intros k Hk. rewrite Forall_forall in Habs.
        unfold FS.isfile. rewrite (Habs k Hk).
        rewrite lookup_delete_ne; [done|]. by intros ->. }
      split.
      * intros k. rewrite IH1.
        destruct (decide (k = f)) as [->|Hkf].
        -- rewrite decide_False by (by intros [? _]).
           rewrite lookup_delete_eq.
           rewrite decide_True; [done|]. split; [by left|done].
        -- rewrite lookup_delete_ne by done.
           destruct (decide (k ∈ l)) as [Hk|Hk].
           ++ rewrite Hsame by done.
              destruct (FS.isfile cwd fs k) eqn:Hfk.
              ** rewrite !decide_True; [done|split; [by right|done]|done].
              ** rewrite !decide_False; [done|by intros [_ ?]..].
           ++ rewrite !decide_False; [done| |by intros [? _]].
              intros [[?|?]%elem_of_cons _]; done.
      * rewrite IH2, filter_cons_True by done. cbn [length].
        rewrite (length_filter_ext (λ f0, FS.isfile cwd (delete f fs) f0 = true)
                   (λ f0, FS.isfile cwd fs f0 = true)); [lia|].
        apply Forall_forall. intros k Hk. by rewrite Hsame.
    + destruct (IH fs n Habs) as [IH1 IH2]. split.
      * intros k. rewrite IH1.
        destruct (decide (k = f)) as [->|Hkf].
        -- rewrite !decide_False; [done|..]; intros [? ?]; congruence.
        -- destruct (decide (k ∈ l ∧ FS.isfile cwd fs k = true)) as [[Hk ?]|Hk].
           ++ rewrite decide_True; [done|]. split; [by right|done].
           ++ rewrite decide_False; [done|].
              intros [[?|?]%elem_of_cons ?]; [done|]. by apply Hk.
      * rewrite IH2, filter_cons_False by congruence. done.
Qed.

Lemma delete_all_files_lookup fs :
  OsPath.isabs cwd = true →
  let st := delete_all_files cwd fs in
  (∀ k, st.1 !! k
        = if decide (k ∈ scan_uploads_for_audio cwd fs
                     ∧ FS.isfile cwd fs k = true)
          then None else fs !! k)
  ∧ st.2 = length (filter (λ f, FS.isfile cwd fs f = true)
                     (scan_uploads_for_audio cwd fs)).
Proof.
  intros Hcwd. unfold delete_all_files.
  apply (delete_loop _ fs 0); [apply NoDup_scan|].
  apply Forall_forall. intros f Hf. by eapply scan_abspath.
Qed.

(** X18. "Delete all files in uploads/" removes exactly the regular files
    the scan returns and counts them; a scanned directory and every entry
    the scan does not return (a file with an upper-case extension, a
    hidden file) stay as they are. *)
Theorem delete_all_files_spec fs :
  OsPath.isabs cwd = true →
  let st := delete_all_files cwd fs in
  (∀ k, st.1 !! k
        = if decide (k ∈ scan_uploads_for_audio cwd fs
                     ∧ FS.isfile cwd fs k = true)
          then None else fs !! k)
  ∧ st.2 = length (filter (λ f, FS.isfile cwd fs f = true)
                     (scan_uploads_for_audio cwd fs))
  ∧ st.2 ≤ length (scan_uploads_for_audio cwd fs).
Proof.
  intros Hcwd. destruct (delete_all_files_lookup fs Hcwd) as [H1 H2].
  split_and!; [done..|]. cbn zeta in H2. rewrite H2. apply length_filter.
Qed.

(** X19. After "Delete all files in uploads/" the scan returns the scanned
    directories and nothing else, and a second deletion removes
    nothing. *)
Theorem delete_all_files_again fs :
  OsPath.isabs cwd = true →
  let st := delete_all_files cwd fs in
  (∀ f, f ∈ scan_uploads_for_audio cwd st.1
        ↔ f ∈ scan_uploads_for_audio cwd fs ∧ fs !! f = Some FS.Dir)
  ∧ delete_all_files cwd st.1 = (st.1, 0).
Proof.
  intros Hcwd st.
  destruct (delete_all_files_lookup fs Hcwd) as [Hlook _]. fold st in Hlook.
  assert (∀ f, f ∈ scan_uploads_for_audio cwd st.1
               ↔ f ∈ scan_uploads_for_audio cwd fs ∧ fs !! f = Some FS.Dir)
    as Hscan.
  { intros f. rewrite !elem_of_scan_rel. split.
    - intros (rel & Hrel & -> & Hin). rewrite Hlook in Hin.
      case_decide as Hdec; [by destruct Hin|].
      split; [by exists rel|].
      destruct Hin as [x Hx]. rewrite Hx. f_equal.
      destruct x as [data|]; [|done]. exfalso. apply Hdec. split.
      + apply elem_of_scan_rel. exists rel. by rewrite Hx.
      + unfold FS.isfile.
        rewrite (scan_abspath cwd fs), Hx; [done..|].
        apply elem_of_scan_rel. exists rel. by rewrite Hx.
    - intros [(rel & Hrel & -> & Hin) Hdir]. exists rel.
      split_and!; [done..|]. rewrite Hlook, decide_False; [done|].
      intros [Hs Hfile]. unfold FS.isfile in Hfile.
      rewrite (scan_abspath cwd fs), Hdir in Hfile; done. }
  split; [done|].
  destruct (delete_all_files_lookup st.1 Hcwd) as [Hlook' Hcount'].
  assert (∀ f, f ∈ scan_uploads_for_audio cwd st.1 →
               FS.isfile cwd st.1 f = false) as Hnofile.
  { intros f Hf. pose proof Hf as [Hs Hdir]%Hscan.
    unfold FS.isfile. rewrite (scan_abspath cwd st.1) by done.
    rewrite Hlook, decide_False, Hdir; [done|].
    intros [_ Hfile]. unfold FS.isfile in Hfile.
    rewrite (scan_abspath cwd fs), Hdir in Hfile; done. }
  cbn zeta in Hlook', Hcount'.
  rewrite (surjective_pairing (delete_all_files cwd st.1)). f_equal.
  - apply map_eq. intros k. rewrite Hlook'. rewrite decide_False; [done|].
    intros [Hk Hfile]. by rewrite Hnofile in Hfile.
  - rewrite Hcount'.
    assert (∀ l, (∀ f, f ∈ l → FS.isfile cwd st.1 f = false) →
                 length (filter (λ f, FS.isfile cwd st.1 f = true) l) = 0)
      as Hnone.
    { induction l as [|f l IH]; intros Hl; [done|].
      rewrite filter_cons_False.
      - apply IH. intros g Hg. apply Hl. by right.
      - rewrite Hl; [done|by left]. }
    by apply Hnone.
Qed.

End ManageFacts.

(* ================================================================== *)
(** * More on the candidates and on the match *)

Section MatchFacts.
Context (cwd : string)
        (decode : list Byte.byte → option (list R * N))
        (mfcc : list R → N → ∀ n_mfcc : nat, option (mfcc_matrix n_mfcc)).
Implicit Types (fs : FS.t) (db : DB.t) (d : list (string * string)).

#[local] Arguments OsPath.abspath : simpl never.
#[local] Arguments save_uploaded_file : simpl never.

Lemma dict_set_fresh d k v : k ∉ d.*1 → dict_set d k v = d ++ [(k, v)].
Proof.
  induction d as [|[k0 v0] d IH]; [done|]. cbn.
  intros Hk. rewrite not_elem_of_cons in Hk. destruct Hk as [Hne Hk].
  rewrite decide_False by done. by rewrite IH.
Qed.

Lemma foldl_dict_set_fresh rows d :
  NoDup (d.*1 ++ ((λ np, OsPath.abspath cwd np.2) <$> rows)) →
  foldl (λ d np, dict_set d (OsPath.abspath cwd np.2) np.1) d rows
  = d ++ ((λ np, (OsPath.abspath cwd np.2, np.1)) <$> rows).
Proof.
  revert d. induction rows as [|[n p] rows IH]; intros d Hnd; cbn.
  - by rewrite app_nil_r.
  - cbn in Hnd. rewrite dict_set_fresh.
    + rewrite IH.
      * by rewrite <-(assoc_L (++)).
      * rewrite fmap_app. cbn. rewrite <-(assoc_L (++)). done.
    + apply NoDup_app in Hnd as (_ & Hdisj & _). intros Hin.
      apply (Hdisj _ Hin). by left.
Qed.

Lemma foldl_dict_set_keys rows d k :
  NoDup d.*1 →
  k ∈ (foldl (λ d np, dict_set d (OsPath.abspath cwd np.2) np.1) d rows).*1
  ↔ k ∈ d.*1 ∨ k ∈ (λ np, OsPath.abspath cwd np.2) <$> rows.
Proof.
  revert d. induction rows as [|[n p] rows IH]; intros d Hnd; cbn.
  - rewrite elem_of_nil. tauto.
  - destruct (dict_set_keys d (OsPath.abspath cwd p) n Hnd) as [Hnd' Hkeys].
    rewrite IH by done. rewrite Hkeys, elem_of_cons. tauto.
Qed.

(** The paths of the candidates in the two modes that read the folder. *)
Lemma candidates_paths mode db fs :
  mode ≠ Database →
  (candidates_of cwd mode db fs).*2
  = (combined_of cwd
       (match mode with Both => DB.get_all_db_rows db | _ => [] end
        ++ ((λ f, (path_stem f, f)) <$> scan_uploads_for_audio cwd fs))).*1.
Proof.
  intros Hmode. unfold candidates_of.
  destruct mode; [done|..]; rewrite <-!list_fmap_compose;
    by apply list_fmap_ext.
Qed.

Lemma scanned_is_candidate mode db fs f :
  OsPath.isabs cwd = true → mode ≠ Database →
  f ∈ scan_uploads_for_audio cwd fs →
  ∃ name, (name, f) ∈ candidates_of cwd mode db fs.
Proof.
  intros Hcwd Hmode Hf.
  assert (f ∈ (candidates_of cwd mode db fs).*2) as Hin.
  { rewrite candidates_paths by done. unfold combined_of.
    apply foldl_dict_set_keys; [apply NoDup_nil_2|]. right.
    rewrite fmap_app. apply elem_of_app. right.
    rewrite <-list_fmap_compose. apply list_elem_of_fmap. exists f.
    split; [|done]. cbn. symmetry. by eapply scan_abspath. }
  apply list_elem_of_fmap in Hin as ([name p] & -> & Hin). by exists name.
Qed.

Lemma load_mfcc_mean_read fs path data :
  FS.read_file cwd fs path = Some data →
  load_mfcc_mean cwd decode mfcc fs path 20
  = match decode data with
    | None => None
    | Some (y, sr) =>
        if (length y <? 10)%nat then None
        else match mfcc y sr 20 with
             | None => None
             | Some m => Some (vmap np_mean m)
             end
    end.
Proof. intros Hread. unfold load_mfcc_mean, librosa_load. by rewrite Hread. Qed.

(** X20. In the mode "Uploads folder" the candidates are the scanned
    paths, each under its stem, in the order of the scan: the dictionary
    the code goes through changes nothing. *)
Theorem uploads_folder_candidates db fs :
  OsPath.isabs cwd = true →
  candidates_of cwd UploadsFolder db fs
  = (λ f, (path_stem f, f)) <$> scan_uploads_for_audio cwd fs.
Proof.
  intros Hcwd. unfold candidates_of, combined_of. cbn [app].
  assert (((λ np : string * string, OsPath.abspath cwd np.2)
             <$> ((λ f, (path_stem f, f)) <$> scan_uploads_for_audio cwd fs))
          = scan_uploads_for_audio cwd fs) as Hkeys.
  { rewrite <-list_fmap_compose.
    rewrite <-(list_fmap_id (scan_uploads_for_audio cwd fs)) at 2.
    apply list_fmap_ext. intros i f Hf. cbn.
    eapply scan_abspath; [done|]. by eapply list_elem_of_lookup_2. }
  rewrite foldl_dict_set_fresh.
  - cbn [app]. rewrite <-!list_fmap_compose.
    apply list_fmap_ext. intros i f Hf. cbn. f_equal.
    eapply scan_abspath; [done|]. by eapply list_elem_of_lookup_2.
  - cbn [fmap list_fmap app]. rewrite Hkeys. apply NoDup_scan.
Qed.

(** X21. In the mode "Both" no path is a candidate twice, and the paths of
    the candidates are the scanned paths together with the absolute paths
    of the catalog rows. *)
Theorem both_mode_candidate_paths db fs :
  OsPath.isabs cwd = true →
  NoDup (candidates_of cwd Both db fs).*2
  ∧ ∀ p, p ∈ (candidates_of cwd Both db fs).*2
         ↔ p ∈ scan_uploads_for_audio cwd fs
           ∨ p ∈ (λ np, OsPath.abspath cwd np.2) <$> DB.get_all_db_rows db.
Proof.
  intros Hcwd. rewrite candidates_paths by done. unfold combined_of. split.
  - apply foldl_dict_set_NoDup, NoDup_nil_2.
  - intros p. rewrite foldl_dict_set_keys by apply NoDup_nil_2.
    rewrite fmap_app, elem_of_app, <-list_fmap_compose.
    assert (p ∈ (λ np : string * string, OsPath.abspath cwd np.2)
                  ∘ (λ f, (path_stem f, f)) <$> scan_uploads_for_audio cwd fs
            ↔ p ∈ scan_uploads_for_audio cwd fs) as ->.
    { rewrite list_elem_of_fmap. split.
      - intros (f & -> & Hf). cbn. by rewrite (scan_abspath cwd fs).
      - intros Hp. exists p. cbn. by rewrite (scan_abspath cwd fs). }
    cbn. rewrite elem_of_nil. tauto.
Qed.

(** X22. The query is saved into the uploads folder before the folder is
    scanned, so in the modes that read the folder a query with a
    fingerprint, whose name is not hidden and ends with an allowed
    extension as written, is a candidate itself: something is always
    shown, and the first entry is at distance 0. *)
Theorem find_match_query_matches_itself up mode top_k threshold db fs y sr :
  OsPath.isabs cwd = true →
  any_audio_ext (OsPath.basename (up_name up)) = true →
  FS.ishidden (OsPath.basename (up_name up)) = false →
  decode (up_buffer up) = Some (y, sr) →
  10 ≤ length y →
  is_Some (mfcc y sr 20) →
  mode ≠ Database →
  1 ≤ top_k →
  ∃ r rest,
    find_match cwd decode mfcc (Some up) mode top_k threshold db fs
    = Some (fs, Shown (r :: rest))
    ∧ dist r = 0%R.
Proof.
  intros Hcwd Haudio Hhid Hdec Hlen [mm Hmfcc] Hmode Hk.
  destruct (save_audio_upload cwd fs up Haudio Hhid)
    as (m & Hm & Hscanned & Hnone & Habs & Hsave).
  set (fs1 := <[uploads_root cwd +:+ "/" +:+ m := FS.File (up_buffer up)]> fs)
    in *.
  set (q := "uploads/" +:+ m) in *.
  set (key := uploads_root cwd +:+ "/" +:+ m) in *.
  assert (OsPath.abspath cwd key = key) as Hkey.
  { rewrite <-Habs. by apply abspath_idempotent. }
  assert (FS.read_file cwd fs1 q = Some (up_buffer up)) as Hreadq.
  { unfold FS.read_file. rewrite Habs. unfold fs1. by rewrite lookup_insert_eq. }
  assert (FS.read_file cwd fs1 key = Some (up_buffer up)) as Hreadk.
  { unfold FS.read_file. rewrite Hkey. unfold fs1. by rewrite lookup_insert_eq. }
  assert (is_Some (load_mfcc_mean cwd decode mfcc fs1 q 20)) as Hload.
  { rewrite (load_mfcc_mean_read fs1 q _ Hreadq), Hdec.
    rewrite (proj2 (Nat.ltb_ge _ _)) by done. rewrite Hmfcc. by eexists. }
  assert (compare_voice cwd decode mfcc fs1 q key = Some 0%R) as Hzero.
  { apply compare_voice_copy; [|done]. by rewrite Hreadq, Hreadk. }
  assert (key ∈ scan_uploads_for_audio cwd fs1) as Hinscan.
  { apply elem_of_scan_rel. exists m. split_and!; [done..|].
    unfold fs1. by rewrite lookup_insert_eq. }
  destruct (scanned_is_candidate mode db fs1 key Hcwd Hmode Hinscan)
    as [name Hcand].
  set (cands := candidates_of cwd mode db fs1) in *.
  assert ((name, key, 0%R) ∈ results_of cwd decode mfcc fs1 q cands) as Hres.
  { apply elem_of_results_of. by exists name, key, 0%R. }
  assert (results_of cwd decode mfcc fs1 q cands ≠ []) as Hne.
  { intros H0. rewrite H0 in Hres. by apply elem_of_nil in Hres. }
  pose proof (sort_by_dist_sorted (results_of cwd decode mfcc fs1 q cands))
    as Hsorted.
  pose proof (sort_by_dist_perm (results_of cwd decode mfcc fs1 q cands))
    as Hperm.
  destruct (sort_by_dist (results_of cwd decode mfcc fs1 q cands))
    as [|r l] eqn:Hsort.
  { apply Permutation_nil_l in Hperm. by rewrite Hperm in Hne. }
  destruct (shown_of_head threshold top_k r l Hsorted Hk) as (rest & Hshown).
  exists r, rest. split.
  - rewrite (find_match_report cwd decode mfcc up mode top_k threshold db fs
               fs1 q Hsave).
    cbn zeta. fold cands.
    rewrite decide_False by (intros H0; rewrite H0 in Hcand;
                             by apply elem_of_nil in Hcand).
    rewrite decide_False by done.
    unfold rank. rewrite Hsort, Hshown. f_equal. f_equal.
    unfold fs1. rewrite <-Habs.
    apply try_remove_written. by rewrite Habs.
  - assert ((0 <= dist r)%R) as Hpos.
    { assert (r ∈ results_of cwd decode mfcc fs1 q cands) as Hr.
      { rewrite <-Hperm. by left. }
      apply elem_of_results_of in Hr as (n' & p' & d' & _ & Hd' & ->).
      cbn. by eapply compare_voice_nonneg. }
    assert ((dist r <= 0)%R) as Hle.
    { rewrite <-Hperm in Hres. apply StronglySorted_inv in Hsorted as [_ Hr].
      apply elem_of_cons in Hres as [<-|Hres]; [cbn; lra|].
      rewrite Forall_forall in Hr. by apply (Hr _ Hres). }
    lra.
Qed.

(** X23. A query without a fingerprint (it cannot be decoded, it is shorter
    than ten samples, or the MFCC fails) is never matched: in every mode
    the report is "No candidate files found." or "No valid comparisons.",
    and the filesystem is left as it was. *)
Theorem find_match_bad_query up mode top_k threshold db fs :
  (∀ y sr, decode (up_buffer up) = Some (y, sr) →
           length y < 10 ∨ mfcc y sr 20 = None) →
  ∃ report,
    find_match cwd decode mfcc (Some up) mode top_k threshold db fs
    = Some (fs, report)
    ∧ (report = NoCandidates ∨ report = NoValidComparisons).
Proof.
  intros Hbad.
  destruct (save_uploaded_file_total cwd fs up UPLOAD_DIR)
    as (q & Hsave & Hnone).
  set (fs1 := <[OsPath.abspath cwd q := FS.File (up_buffer up)]> fs) in *.
  assert (load_mfcc_mean cwd decode mfcc fs1 q 20 = None) as Hload.
  { rewrite (load_mfcc_mean_read fs1 q (up_buffer up)).
    - destruct (decode (up_buffer up)) as [[y sr]|] eqn:Hdec; [|done].
      destruct (Hbad y sr eq_refl) as [Hlen| ->].
      + by rewrite (proj2 (Nat.ltb_lt _ _)) by done.
      + by destruct (length y <? 10)%nat.
    - unfold FS.read_file, fs1. by rewrite lookup_insert_eq. }
  rewrite (find_match_report cwd decode mfcc up mode top_k threshold db fs
             fs1 q Hsave).
  cbn zeta. rewrite (results_of_query_absent _ _ _ _ _ _ Hload).
  unfold fs1. rewrite try_remove_written by done.
  eexists. split; [done|]. case_decide; [by left|right].
  by rewrite decide_True.
Qed.

End MatchFacts.

(* ================================================================== *)
(** * Add Data *)

Section AddDataFacts.
Context (cwd : string) (unzip : list Byte.byte → option archive).
Implicit Types (fs : FS.t) (db : DB.t).

#[local] Arguments OsPath.abspath : simpl never.
#[local] Arguments save_uploaded_file : simpl never.
#[local] Arguments extract_audio_from_zip : simpl never.


Lemma keeps_trans fs1 fs2 fs3 : keeps fs1 fs2 → keeps fs2 fs3 → keeps fs1 fs3.
Proof.
  intros H12 H23 p Hp. rewrite H23; [by apply H12|]. by rewrite H12.
Qed.

Lemma keeps_None fs fs' k : keeps fs fs' → fs' !! k = None → fs !! k = None.
Proof.
  intros Hk Hnone. destruct (fs !! k) as [x|] eqn:Hx; [|done].
  rewrite Hk in Hnone by (by rewrite Hx). congruence.
Qed.

Lemma keeps_insert_fresh fs k x : fs !! k = None → keeps fs (<[k := x]> fs).
Proof. intros Hnone p Hp. by apply insert_fresh_preserves. Qed.



(** What one plain upload adds. *)
Lemma save_adds_file fs up :
  ∃ dest,
    save_uploaded_file cwd fs up UPLOAD_DIR
    = Some (<[OsPath.abspath cwd dest := FS.File (up_buffer up)]> fs, dest)
    ∧ fs !! OsPath.abspath cwd dest = None
    ∧ adds_files cwd fs (<[OsPath.abspath cwd dest := FS.File (up_buffer up)]> fs)
        [dest].
Proof.
  destruct (save_uploaded_file_total cwd fs up UPLOAD_DIR) as (dest & Hsave & Hnone).
  exists dest. split_and!; [done..|]. split_and!.
  - by apply keeps_insert_fresh.
  - repeat constructor; [done|]. exists (up_buffer up). by rewrite lookup_insert_eq.
  - cbn. apply NoDup_singleton.
  - intros k Hk. cbn. rewrite list_elem_of_singleton.
    destruct (decide (k = OsPath.abspath cwd dest)) as [?|Hne]; [by right|].
    left. by rewrite lookup_insert_ne in Hk.
Qed.

(** The extraction adds the saved files and nothing else. *)
Lemma extracted_nothing_else z ms fs saved fs' :
  extracted cwd z ms fs saved fs' →
  ∀ k, is_Some (fs' !! k) →
       is_Some (fs !! k) ∨ k ∈ OsPath.abspath cwd <$> saved.
Proof.
  induction 1 as [fs|m ms fs saved fs' Hsel _ IH|m ms fs saved fs' Hsel Hr _ IH
                 |m ms fs data dest saved fs' Hsel Hr Hcf _ IH]; intros k Hk;
    [by left|by apply IH|by apply IH|].
  rewrite fmap_cons, elem_of_cons.
  destruct (IH k Hk) as [Hk1|?]; [|tauto].
  destruct (decide (k = OsPath.abspath cwd dest)) as [?|Hne]; [tauto|].
  left. by rewrite lookup_insert_ne in Hk1.
Qed.

(** What one archive adds, once it is open: the files extracted; the
    archive saved for the extraction is removed again. *)
Lemma extract_adds_files fs tmp data z :
  fs !! OsPath.abspath cwd tmp = None →
  let st := extract_audio_from_zip cwd z
              (<[OsPath.abspath cwd tmp := FS.File data]> fs) UPLOAD_DIR in
  FS.try_remove cwd st.1 tmp = delete (OsPath.abspath cwd tmp) st.1
  ∧ adds_files cwd fs (delete (OsPath.abspath cwd tmp) st.1) st.2.
Proof.
  intros Hnone. cbn zeta.
  set (fs1 := <[OsPath.abspath cwd tmp := FS.File data]> fs).
  unfold extract_audio_from_zip.
  destruct (extract_loop_spec cwd z (namelist z) fs1 [])
    as (fs2 & saved & -> & Hex).
  cbn [fst snd app].
  pose proof (extracted_nothing_else _ _ _ _ _ Hex) as Hexact.
  apply extracted_safe in Hex as (_ & Hkeep & Hnew & Hnd).
  assert (fs2 !! OsPath.abspath cwd tmp = Some (FS.File data)) as Htmp.
  { rewrite Hkeep; unfold fs1; by rewrite lookup_insert_eq. }
  split.
  - unfold FS.try_remove, FS.remove. by rewrite Htmp.
  - split_and!; [| |done|].
    + intros p Hp. assert (p ≠ OsPath.abspath cwd tmp) as Hne.
      { intros ->. rewrite Hnone in Hp. by destruct Hp. }
      rewrite lookup_delete_ne by done.
      rewrite Hkeep; unfold fs1; by rewrite lookup_insert_ne.
    + eapply Forall_impl; [exact Hnew|]. cbn. intros d [Hd1 Hd2].
      assert (OsPath.abspath cwd d ≠ OsPath.abspath cwd tmp) as Hne.
      { intros Heq. unfold fs1 in Hd1. by rewrite Heq, lookup_insert_eq in Hd1. }
      split.
      * unfold fs1 in Hd1. by rewrite lookup_insert_ne in Hd1.
      * by rewrite lookup_delete_ne.
    + intros k Hk.
      destruct (decide (k = OsPath.abspath cwd tmp)) as [->|Hne].
      { rewrite lookup_delete_eq in Hk. by destruct Hk. }
      rewrite lookup_delete_ne in Hk by done.
      destruct (Hexact k Hk) as [Hk1|?]; [left|by right].
      unfold fs1 in Hk1. by rewrite lookup_insert_ne in Hk1.
Qed.

Lemma extract_path_read fs tmp data :
  extract_audio_from_zip_path cwd unzip
    (<[OsPath.abspath cwd tmp := FS.File data]> fs) tmp
  = z ← unzip data;
    Some (extract_audio_from_zip cwd z
            (<[OsPath.abspath cwd tmp := FS.File data]> fs) UPLOAD_DIR).
Proof.
  unfold extract_audio_from_zip_path, FS.read_file.
  by rewrite lookup_insert_eq.
Qed.


(** The loop over the uploads when some archive cannot be opened. *)
Lemma save_all_bad uploaded fs acc :
  Exists (λ up, zip_named up = true ∧ unzip (up_buffer up) = None) uploaded →
  ∃ fs' up tmp,
    save_all cwd unzip fs acc uploaded = (fs', None)
    ∧ keeps fs fs'
    ∧ up ∈ uploaded ∧ zip_named up = true ∧ unzip (up_buffer up) = None
    ∧ fs !! OsPath.abspath cwd tmp = None
    ∧ FS.read_file cwd fs' tmp = Some (up_buffer up).
Proof.
  revert fs acc. induction uploaded as [|up uploaded IH]; intros fs acc Hbad.
  { by apply Exists_nil in Hbad. }
  cbn [save_all]. fold (zip_named up).
  destruct (save_adds_file fs up) as (dest & -> & Hnone & Hadds).
  destruct (zip_named up) eqn:Hzip.
  - rewrite extract_path_read.
    destruct (unzip (up_buffer up)) as [z|] eqn:Hz; cbn [mbind option_bind].
    + apply Exists_cons in Hbad as [[_ ?]|Hbad]; [congruence|].
      destruct (extract_adds_files fs dest (up_buffer up) z Hnone) as [Hrm Hex].
      destruct (extract_audio_from_zip cwd z _ UPLOAD_DIR) as [fs2 extracted].
      cbn [fst snd] in *. rewrite Hrm.
      destruct (IH (delete (OsPath.abspath cwd dest) fs2) (acc ++ extracted) Hbad)
        as (fs' & up' & tmp & -> & Hkeeps & Hin & Hz1 & Hz2 & Htmp & Hread).
      exists fs', up', tmp. destruct Hex as (Hk & _).
      split_and!; [done|by eapply keeps_trans|by right|done|done| |done].
      by eapply keeps_None.
    + exists (<[OsPath.abspath cwd dest := FS.File (up_buffer up)]> fs), up, dest.
      destruct Hadds as (Hk & _).
      split_and!; [done|done|by left|done|done|done|].
      unfold FS.read_file. by rewrite lookup_insert_eq.
  - apply Exists_cons in Hbad as [[? _]|Hbad]; [congruence|].
    destruct (IH (<[OsPath.abspath cwd dest := FS.File (up_buffer up)]> fs)
                (acc ++ [dest]) Hbad)
      as (fs' & up' & tmp & -> & Hkeeps & Hin & Hz1 & Hz2 & Htmp & Hread).
    exists fs', up', tmp. destruct Hadds as (Hk & _).
    split_and!; [done|by eapply keeps_trans|by right|done|done| |done].
    by eapply keeps_None.
Qed.






(** X25. An uploaded archive that cannot be opened makes the handler fail:
    the exception escapes before anything is registered, the files saved up
    to then stay, and so does the archive, which is not removed. *)
Theorem add_data_raises uploaded db fs :
  Exists (λ up, zip_named up = true ∧ unzip (up_buffer up) = None) uploaded →
  ∃ fs' up tmp,
    add_data cwd unzip uploaded db fs = Raised fs'
    ∧ keeps fs fs'
    ∧ up ∈ uploaded ∧ zip_named up = true ∧ unzip (up_buffer up) = None
    ∧ fs !! OsPath.abspath cwd tmp = None
    ∧ FS.read_file cwd fs' tmp = Some (up_buffer up).
Proof.
  intros Hbad.
  destruct (save_all_bad uploaded fs [] Hbad)
    as (fs' & up & tmp & Hsave & Hrest).
  exists fs', up, tmp. split; [|done].
  unfold add_data. destruct uploaded as [|up0 uploaded].
  { by apply Exists_nil in Hbad. }
  by rewrite Hsave.
Qed.


End AddDataFacts.

(* ================================================================== *)
(** * The catalogs the script can reach *)

Section ReachableFacts.
Implicit Types (db : DB.t).





End ReachableFacts.

(* ================================================================== *)
(** * The further theorems at sample inputs *)

(** [compare_voice_zero_iff] for the two files of the sample folder. *)
Lemma compare_voice_zero_iff_witness :
  ∃ v1 v2,
    load_mfcc_mean Fixture.cwd Fixture.decode Fixture.mfcc Fixture.fs_two
      "uploads/alice.wav" 20 = Some v1
    ∧ load_mfcc_mean Fixture.cwd Fixture.decode Fixture.mfcc Fixture.fs_two
        "/app/uploads/bob.mp3" 20 = Some v2
    ∧ (compare_voice Fixture.cwd Fixture.decode Fixture.mfcc Fixture.fs_two
         "uploads/alice.wav" "/app/uploads/bob.mp3" = Some 0%R ↔ v1 = v2).
Proof.
  eexists _, _. split; [reflexivity|]. split; [reflexivity|].
  exact (proj2 (compare_voice_zero_iff Fixture.cwd Fixture.decode Fixture.mfcc
                  Fixture.fs_two "uploads/alice.wav" "/app/uploads/bob.mp3"
                  _ _ eq_refl eq_refl)).
Defined.

(** [compare_voice_same_bytes] for the two files of the sample folder,
    which hold the same bytes. *)
Lemma compare_voice_same_bytes_witness :
  FS.read_file Fixture.cwd Fixture.fs_two "uploads/alice.wav"
  = FS.read_file Fixture.cwd Fixture.fs_two "/app/uploads/bob.mp3"
  ∧ compare_voice Fixture.cwd Fixture.decode Fixture.mfcc Fixture.fs_two
      "uploads/alice.wav" "/app/uploads/bob.mp3" = Some 0%R.
Proof.
  split; [reflexivity|].
  apply (compare_voice_same_bytes Fixture.cwd Fixture.decode Fixture.mfcc
           Fixture.fs_two "uploads/alice.wav" "/app/uploads/bob.mp3" eq_refl).
  eexists. reflexivity.
Defined.

(** [compare_voice_missing_file] for a path of the sample folder that does
    not exist. *)
Lemma compare_voice_missing_file_witness :
  FS.isfile Fixture.cwd Fixture.fs_two "uploads/carol.wav" = false
  ∧ compare_voice Fixture.cwd Fixture.decode Fixture.mfcc Fixture.fs_two
      "uploads/alice.wav" "uploads/carol.wav" = None.
Proof.
  split; [reflexivity|].
  exact (proj1 (proj2 (compare_voice_missing_file Fixture.cwd Fixture.decode
    Fixture.mfcc Fixture.fs_two "uploads/alice.wav" "uploads/carol.wav" eq_refl))).
Defined.


(** [rank_first_is_closest] for [alice.wav] as the query and [bob.mp3] as
    the only candidate. *)
Lemma rank_first_is_closest_witness :
  1 ≤ 3
  ∧ results_of Fixture.cwd Fixture.decode Fixture.mfcc Fixture.fs_two
      "uploads/alice.wav" [("bob", "/app/uploads/bob.mp3")] ≠ []
  ∧ ∃ r rest,
      rank Fixture.cwd Fixture.decode Fixture.mfcc Fixture.fs_two
        "uploads/alice.wav" [("bob", "/app/uploads/bob.mp3")] (Finite 5) 3
      = r :: rest.
Proof.
  assert (results_of Fixture.cwd Fixture.decode Fixture.mfcc Fixture.fs_two
            "uploads/alice.wav" [("bob", "/app/uploads/bob.mp3")] ≠ []) as Hne.
  { rewrite results_of_cons. cbn [snd].
    rewrite (compare_voice_copy Fixture.cwd Fixture.decode Fixture.mfcc
               Fixture.fs_two "uploads/alice.wav" "/app/uploads/bob.mp3" eq_refl);
      [discriminate|]. eexists. reflexivity. }
  split; [lia|]. split; [exact Hne|].
  destruct (rank_first_is_closest Fixture.cwd Fixture.decode Fixture.mfcc
              Fixture.fs_two "uploads/alice.wav" [("bob", "/app/uploads/bob.mp3")]
              (Finite 5) 3 ltac:(lia) Hne) as (r & rest & Hrank & _).
  by exists r, rest.
Defined.

(** [scan_depends_on_names] when the bytes of [alice.wav] are replaced. *)
Lemma scan_depends_on_names_witness :
  scan_uploads_for_audio Fixture.cwd Fixture.fs_two
  = scan_uploads_for_audio Fixture.cwd
      (<["/app/uploads/alice.wav" := FS.File Fixture.audio8]> Fixture.fs_two).
Proof.
  apply (scan_depends_on_names Fixture.cwd Fixture.fs_two
           (<["/app/uploads/alice.wav" := FS.File Fixture.audio8]> Fixture.fs_two)).
  intros rel. rewrite lookup_insert_is_Some. split.
  - intros Hin.
    destruct (decide ("/app/uploads/alice.wav"
                      = uploads_root Fixture.cwd +:+ "/" +:+ rel)); [by left|].
    by right.
  - intros [<-|[_ Hin]]; [|done]. eexists. reflexivity.
Defined.

(** [saved_upload_is_scanned] for an upload named [carol.wav]. *)
Lemma saved_upload_is_scanned_witness :
  any_audio_ext (OsPath.basename "carol.wav") = true
  ∧ FS.ishidden (OsPath.basename "carol.wav") = false
  ∧ ∃ fs' dest,
      save_uploaded_file Fixture.cwd Fixture.fs_two
        (Upload "carol.wav" Fixture.audio12) UPLOAD_DIR = Some (fs', dest)
      ∧ OsPath.abspath Fixture.cwd dest
        ∈ scan_uploads_for_audio Fixture.cwd fs'.
Proof.
  split; [reflexivity|]. split; [reflexivity|].
  destruct (saved_upload_is_scanned Fixture.cwd Fixture.fs_two
              (Upload "carol.wav" Fixture.audio12) eq_refl eq_refl)
    as (fs' & dest & Hsave & _ & Hscan).
  exists fs', dest. split; [exact Hsave|]. apply Hscan. by left.
Defined.

(** [saved_file_inside_uploads] for an upload whose name goes up the
    tree. *)
Lemma saved_file_inside_uploads_witness :
  proper_name (OsPath.basename "../../etc/notes.txt")
  ∧ ∃ m, proper_name m
      ∧ save_uploaded_file Fixture.cwd Fixture.fs_two
          (Upload "../../etc/notes.txt" Fixture.audio8) UPLOAD_DIR
        = Some (<[uploads_root Fixture.cwd +:+ "/" +:+ m
                  := FS.File Fixture.audio8]> Fixture.fs_two,
                "uploads/" +:+ m).
Proof.
  assert (proper_name (OsPath.basename "../../etc/notes.txt")) as Hn.
  { by vm_compute. }
  split; [exact Hn|].
  destruct (saved_file_inside_uploads Fixture.cwd Fixture.fs_two
              (Upload "../../etc/notes.txt" Fixture.audio8) Hn)
    as (m & Hm & _ & _ & Hsave).
  by exists m.
Defined.

(** [sync_uploads_to_db_spec] on the sample folder, from the catalog with
    one row. *)
Lemma sync_uploads_to_db_spec_witness :
  unique_filenames Fixture.db_alice
  ∧ unique_filenames
      (sync_uploads_to_db Fixture.cwd Fixture.fs_two Fixture.db_alice).1.
Proof.
  assert (unique_filenames Fixture.db_alice) as Hu.
  { unfold unique_filenames. vm_compute. apply NoDup_singleton. }
  split; [exact Hu|].
  exact (proj1 (sync_uploads_to_db_spec Fixture.cwd Fixture.fs_two
                  Fixture.db_alice Hu)).
Defined.

(** [delete_all_files_spec] on the sample folder. *)
Lemma delete_all_files_spec_witness :
  OsPath.isabs Fixture.cwd = true
  ∧ (delete_all_files Fixture.cwd Fixture.fs_two).2
    ≤ length (scan_uploads_for_audio Fixture.cwd Fixture.fs_two).
Proof.
  split; [reflexivity|].
  exact (proj2 (proj2 (delete_all_files_spec Fixture.cwd Fixture.fs_two eq_refl))).
Defined.

(** [delete_all_files_again] on the sample folder. *)
Lemma delete_all_files_again_witness :
  OsPath.isabs Fixture.cwd = true
  ∧ delete_all_files Fixture.cwd
      (delete_all_files Fixture.cwd Fixture.fs_two).1
    = ((delete_all_files Fixture.cwd Fixture.fs_two).1, 0).
Proof.
  split; [reflexivity|].
  exact (proj2 (delete_all_files_again Fixture.cwd Fixture.fs_two eq_refl)).
Defined.

(** [uploads_folder_candidates] on the sample folder. *)
Lemma uploads_folder_candidates_witness :
  OsPath.isabs Fixture.cwd = true
  ∧ candidates_of Fixture.cwd UploadsFolder Fixture.db_alice Fixture.fs_two
    = (λ f, (path_stem f, f))
        <$> scan_uploads_for_audio Fixture.cwd Fixture.fs_two.
Proof.
  split; [reflexivity|].
  exact (uploads_folder_candidates Fixture.cwd Fixture.db_alice Fixture.fs_two
           eq_refl).
Defined.

(** [both_mode_candidate_paths] on the sample folder. *)
Lemma both_mode_candidate_paths_witness :
  OsPath.isabs Fixture.cwd = true
  ∧ NoDup (candidates_of Fixture.cwd Both Fixture.db_alice Fixture.fs_two).*2.
Proof.
  split; [reflexivity|].
  exact (proj1 (both_mode_candidate_paths Fixture.cwd Fixture.db_alice
                  Fixture.fs_two eq_refl)).
Defined.

(** [find_match_query_matches_itself] for a query named [query.wav], in
    the mode "Uploads folder". *)
Lemma find_match_query_matches_itself_witness :
  ∃ r rest,
    find_match Fixture.cwd Fixture.decode Fixture.mfcc
      (Some (Upload "query.wav" Fixture.audio12)) UploadsFolder 3 (Finite 5)
      Fixture.db_alice Fixture.fs_two
    = Some (Fixture.fs_two, Shown (r :: rest))
    ∧ dist r = 0%R.
Proof.
  apply (find_match_query_matches_itself Fixture.cwd Fixture.decode Fixture.mfcc
           (Upload "query.wav" Fixture.audio12) UploadsFolder 3 (Finite 5)
           Fixture.db_alice Fixture.fs_two (replicate 12 1%R) 16000%N).
  - reflexivity.
  - reflexivity.
  - reflexivity.
  - reflexivity.
  - vm_compute. lia.
  - eexists. reflexivity.
  - discriminate.
  - lia.
Defined.

(** [find_match_bad_query] for a query with no bytes. *)
Lemma find_match_bad_query_witness :
  ∃ report,
    find_match Fixture.cwd Fixture.decode Fixture.mfcc
      (Some (Upload "query.wav" [])) Both 3 (Finite 5)
      Fixture.db_alice Fixture.fs_two
    = Some (Fixture.fs_two, report)
    ∧ (report = NoCandidates ∨ report = NoValidComparisons).
Proof.
  apply (find_match_bad_query Fixture.cwd Fixture.decode Fixture.mfcc
           (Upload "query.wav" []) Both 3 (Finite 5)
           Fixture.db_alice Fixture.fs_two).
  intros y sr Hdec. vm_compute in Hdec. discriminate Hdec.
Defined.


(** [add_data_raises] for an upload named as an archive that does not
    open. *)
Lemma add_data_raises_witness :
  ∃ fs' tmp,
    add_data Fixture.cwd (λ _, None) [Upload "voices.ZIP" Fixture.audio8]
      Fixture.db_alice Fixture.fs_two
    = Raised fs'
    ∧ FS.read_file Fixture.cwd fs' tmp = Some Fixture.audio8.
Proof.
  destruct (add_data_raises Fixture.cwd (λ _, None)
              [Upload "voices.ZIP" Fixture.audio8] Fixture.db_alice Fixture.fs_two)
    as (fs' & up & tmp & Hadd & _ & Hin & _ & _ & _ & Hread).
  - left. split; reflexivity.
  - apply list_elem_of_singleton in Hin. subst up.
    by exists fs', tmp.
Defined.

